(** * FixedMerkleTree (core/util/fixed_merkle_tree.go)

    A shallow embedding of the fixed-topology merkle tree of the SDK: the
    window assembler ([Write], [Finalize], [writeToLeaves]), the fold of
    the leaf digests ([CalculateMerkleRoot], [GetMerkleRoot]), the proof
    check ([VerifyMerklePath]) and the re-hydration helper ([Reload]).

    Go's [int] is modelled by [Z]; every value of that type met here is a
    length or an offset into a slice, far below the 64-bit range, so no
    wrap-around is involved.  A [[]byte] is a [list byte].  A call can
    return, panic (an index or slice bound out of range, an unlock of an
    unlocked mutex) or block for ever (locking a mutex that nobody will
    release), hence the [outcome] type.  The loops whose trip count
    depends on the data take fuel; [OutOfFuel] is the answer of a loop
    that was given too little, which the functions below never do (see
    [step_total]). *)

From Stdlib Require Import ZArith Lia.
From Stdlib.Strings Require Import Byte.
From stdpp Require Import base list strings gmap.

Local Open Scope Z_scope.

Abbreviation bytes := (list byte).

(** ** Outcomes of a call *)

Inductive outcome (A : Type) : Type :=
  | Returns (a : A)
  | Panics
  | Blocks
  | OutOfFuel.
Arguments Returns {A} a.
Arguments Panics {A}.
Arguments Blocks {A}.
Arguments OutOfFuel {A}.

#[global] Instance outcome_ret : MRet outcome := fun _ a => Returns a.
#[global] Instance outcome_bind : MBind outcome := fun _ _ f m =>
  match m with
  | Returns a => f a
  | Panics => Panics
  | Blocks => Blocks
  | OutOfFuel => OutOfFuel
  end.

(** ** Go errors

    [errors.New msg] builds an error value from its message; [io.EOF] is
    the sentinel that [errors.Is] recognises in [Reload]. *)

Inductive error : Type :=
  | errors_New (msg : string)
  | io_EOF.

Definition is_EOF (e : error) : bool :=
  match e with io_EOF => true | errors_New _ => false end.

(** ** Slices *)

Definition len {A} (s : list A) : Z := Z.of_nat (length s).

(** [s[lo:hi]]: panics unless [0 <= lo <= hi <= len s]. *)
Definition slice {A} (s : list A) (lo hi : Z) : outcome (list A) :=
  if (0 <=? lo) && (lo <=? hi) && (hi <=? len s)
  then Returns (take (Z.to_nat (hi - lo)) (drop (Z.to_nat lo) s))
  else Panics.

(** [s[i]]: panics out of range. *)
Definition index {A} (s : list A) (i : Z) : outcome A :=
  if 0 <=? i then
    match s !! Z.to_nat i with
    | Some x => Returns x
    | None => Panics
    end
  else Panics.

(** [s[i] = x]: panics out of range. *)
Definition store {A} (s : list A) (i : Z) (x : A) : outcome (list A) :=
  if (0 <=? i) && (i <? len s)
  then Returns (<[Z.to_nat i := x]> s)
  else Panics.

(** [copy(s[lo:hi], src)]: the destination is a window of [s], so the copy
    overwrites [s] in place; [min (hi - lo) (len src)] bytes are copied. *)
Definition copy_into (s : bytes) (lo hi : Z) (src : bytes) : outcome bytes :=
  if (0 <=? lo) && (lo <=? hi) && (hi <=? len s) then
    let n := Z.to_nat (Z.min (hi - lo) (len src)) in
    Returns (take (Z.to_nat lo) s ++ take n src ++ drop (Z.to_nat lo + n) s)
  else Panics.

(** ** Constants *)

Definition MerkleChunkSize : Z := 64.
Definition MaxMerkleLeavesSize : Z := 64 * 1024.
Definition FixedMerkleLeaves : Z := 1024.
Definition FixedMTDepth : Z := 11.

(** ** Leaves

    A leaf wraps a running SHA3-256 state.  The state is modelled by the
    bytes absorbed so far: [h.Write] appends, [h.Sum(nil)] hashes what
    was absorbed and leaves the state as it is. *)

Record leaf : Type := { h : bytes }.

Definition getNewLeaf : leaf := {| h := [] |}.

Definition leaf_Write (l : leaf) (b : bytes) : leaf := {| h := h l ++ b |}.

(** ** The tree *)

Record FixedMerkleTree : Type := {
  Leaves : list leaf;
  writeLock : bool;              (* true when the mutex is held *)
  isFinal : bool;
  writeCount : Z;
  writeBytes : bytes;
  merkleRoot : option bytes      (* None is the nil slice *)
}.

Definition set_Leaves (ls : list leaf) (t : FixedMerkleTree) :=
  {| Leaves := ls; writeLock := writeLock t; isFinal := isFinal t;
     writeCount := writeCount t; writeBytes := writeBytes t;
     merkleRoot := merkleRoot t |}.
Definition set_writeLock (b : bool) (t : FixedMerkleTree) :=
  {| Leaves := Leaves t; writeLock := b; isFinal := isFinal t;
     writeCount := writeCount t; writeBytes := writeBytes t;
     merkleRoot := merkleRoot t |}.
Definition set_isFinal (b : bool) (t : FixedMerkleTree) :=
  {| Leaves := Leaves t; writeLock := writeLock t; isFinal := b;
     writeCount := writeCount t; writeBytes := writeBytes t;
     merkleRoot := merkleRoot t |}.
Definition set_writeCount (n : Z) (t : FixedMerkleTree) :=
  {| Leaves := Leaves t; writeLock := writeLock t; isFinal := isFinal t;
     writeCount := n; writeBytes := writeBytes t;
     merkleRoot := merkleRoot t |}.
Definition set_writeBytes (b : bytes) (t : FixedMerkleTree) :=
  {| Leaves := Leaves t; writeLock := writeLock t; isFinal := isFinal t;
     writeCount := writeCount t; writeBytes := b;
     merkleRoot := merkleRoot t |}.
Definition set_merkleRoot (r : option bytes) (t : FixedMerkleTree) :=
  {| Leaves := Leaves t; writeLock := writeLock t; isFinal := isFinal t;
     writeCount := writeCount t; writeBytes := writeBytes t;
     merkleRoot := r |}.

(** [sync.Mutex]: [Lock] on a held mutex never returns, [Unlock] of a free
    mutex is a fatal error. *)
Definition Lock (t : FixedMerkleTree) : outcome FixedMerkleTree :=
  if writeLock t then Blocks else Returns (set_writeLock true t).

Definition Unlock (t : FixedMerkleTree) : outcome FixedMerkleTree :=
  if writeLock t then Returns (set_writeLock false t) else Panics.

(** [initLeaves]: 1024 fresh leaves. *)
Definition initLeaves (t : FixedMerkleTree) : FixedMerkleTree :=
  set_Leaves (replicate (Z.to_nat FixedMerkleLeaves) getNewLeaf) t.

Definition NewFixedMerkleTree : FixedMerkleTree :=
  initLeaves
    {| Leaves := [];
       writeLock := false;
       isFinal := false;
       writeCount := 0;
       writeBytes := replicate (Z.to_nat MaxMerkleLeavesSize) x00;
       merkleRoot := None |}.

(** [fmt.Leaves[leafInd].Write(b)] *)
Definition leaves_Write (ls : list leaf) (leafInd : Z) (b : bytes)
  : outcome (list leaf) :=
  l ← index ls leafInd;
  store ls leafInd (leaf_Write l b).

(** The loop of [writeToLeaves]:
    [for i := 0; i < len(b); i += MerkleChunkSize]. *)
Fixpoint writeToLeaves_loop (fuel : nat) (b : bytes) (i leafInd : Z)
    (ls : list leaf) : outcome (list leaf) :=
  if i <? len b then
    match fuel with
    | O => OutOfFuel
    | S fuel' =>
        let j := i + MerkleChunkSize in
        let j := if j >? len b then len b else j in
        chunk ← slice b i j;
        ls' ← leaves_Write ls leafInd chunk;
        writeToLeaves_loop fuel' b (i + MerkleChunkSize) (leafInd + 1) ls'
    end
  else Returns ls.

Definition writeToLeaves (t : FixedMerkleTree) (b : bytes)
  : outcome (FixedMerkleTree * option error) :=
  if len b >? MaxMerkleLeavesSize then
    Returns (t, Some (errors_New "data size greater than maximum required size"))
  else if (len b <? MaxMerkleLeavesSize) && negb (isFinal t) then
    Returns (t, Some (errors_New "invalid merkle leaf write"))
  else
    ls ← writeToLeaves_loop (length b) b 0 0 (Leaves t);
    Returns (set_Leaves ls t, None).

(** The loop of [Write]:
    [for i, j := 0, MaxMerkleLeavesSize-fmt.writeCount; i < len(b);
         i, j = j, j+MaxMerkleLeavesSize]. *)
Fixpoint Write_loop (fuel : nat) (b : bytes) (i j : Z) (t : FixedMerkleTree)
  : outcome (FixedMerkleTree * (Z * option error)) :=
  if i <? len b then
    match fuel with
    | O => OutOfFuel
    | S fuel' =>
        let j := if j >? len b then len b else j in
        let prevWriteCount := writeCount t in
        let t := set_writeCount (writeCount t + (j - i)) t in
        src ← slice b i j;
        buf ← copy_into (writeBytes t) prevWriteCount (writeCount t) src;
        let t := set_writeBytes buf t in
        if writeCount t =? MaxMerkleLeavesSize then
          '(t, err) ← writeToLeaves t (writeBytes t);
          match err with
          | Some e => Returns (t, (0, Some e))
          | None =>
              let t := set_writeCount 0 t in
              Write_loop fuel' b j (j + MaxMerkleLeavesSize) t
          end
        else Write_loop fuel' b j (j + MaxMerkleLeavesSize) t
    end
  else Returns (t, (len b, None)).

(** [Write]: the deferred [Unlock] runs on both return paths. *)
Definition Write (t : FixedMerkleTree) (b : bytes)
  : outcome (FixedMerkleTree * (Z * option error)) :=
  t ← Lock t;
  if isFinal t then
    t ← Unlock t;
    Returns (t, (0, Some (errors_New "cannot write. Tree is already finalized")))
  else
    '(t, r) ← Write_loop (S (length b)) b 0 (MaxMerkleLeavesSize - writeCount t) t;
    t ← Unlock t;
    Returns (t, r).

(** [Finalize]: the early return leaves the mutex held. *)
Definition Finalize (t : FixedMerkleTree)
  : outcome (FixedMerkleTree * option error) :=
  t ← Lock t;
  if isFinal t then Returns (t, Some (errors_New "already finalized"))
  else
    let t := set_isFinal true t in
    t ← Unlock t;
    if writeCount t >? 0 then
      w ← slice (writeBytes t) 0 (writeCount t);
      writeToLeaves t w
    else Returns (t, None).

(** ** Hexadecimal encoding ([encoding/hex]) *)

Definition hextable : string := "0123456789abcdef".

Definition hex_digit (n : N) : Ascii.ascii :=
  default Ascii.zero (String.get (N.to_nat n) hextable).

(** [hex.EncodeToString]: for every byte [v], [hextable[v>>4]] then
    [hextable[v&0x0f]]. *)
Fixpoint EncodeToString (src : bytes) : string :=
  match src with
  | [] => EmptyString
  | v :: rest =>
      String (hex_digit (N.shiftr (Byte.to_N v) 4))
        (String (hex_digit (N.land (Byte.to_N v) 15)) (EncodeToString rest))
  end.

(** [bytes.Equal] *)
Fixpoint bytes_Equal (a b : bytes) : bool :=
  match a, b with
  | [], [] => true
  | x :: a', y :: b' => Byte.eqb x y && bytes_Equal a' b'
  | _, _ => false
  end.

(** ** Readers ([io.Reader], [io.CopyN])

    A finite source: [content] is what is left to read; once it is
    exhausted the source reports [io.EOF], or the error [fault] when there
    is one. *)

Record Reader : Type := { content : bytes; fault : option error }.

Definition bytes_NewReader (b : bytes) : Reader :=
  {| content := b; fault := None |}.

(** [io.CopyN(dst, src, n)] gives the bytes appended to [dst], their
    number, the error and the source afterwards: no error when [n] bytes
    were copied, otherwise the source's error, [io.EOF] at a clean end. *)
Definition CopyN (src : Reader) (n : Z)
  : bytes * Z * option error * Reader :=
  let got := take (Z.to_nat n) (content src) in
  let src' := {| content := drop (Z.to_nat n) (content src);
                 fault := fault src |} in
  if len got =? n then (got, n, None, src')
  else (got, len got, Some (default io_EOF (fault src)), src').

Section Hashes.

(** The SHA3-256 digest of the bytes a leaf absorbed
    ([sha3.New256], [Write], [Sum(nil)]) and the two-input combinator
    [MHashBytes] of the package, which is declared outside this file.
    Both return a digest, never the nil slice, so that the root
    [CalculateMerkleRoot] stores is not nil. *)
Variable sha3_256 : bytes -> bytes.
Variable MHashBytes : bytes -> bytes -> bytes.

Definition GetHashBytes (l : leaf) : bytes := sha3_256 (h l).

Definition GetHash (l : leaf) : string := EncodeToString (sha3_256 (h l)).

(** The inner loop of [CalculateMerkleRoot]:
    [for j := 0; j < len(nodes); j += 2]. *)
Fixpoint pair_loop (fuel : nat) (nodes newNodes : list bytes)
    (j nodeInd : Z) : outcome (list bytes) :=
  if j <? len nodes then
    match fuel with
    | O => OutOfFuel
    | S fuel' =>
        a ← index nodes j;
        b ← index nodes (j + 1);
        newNodes ← store newNodes nodeInd (MHashBytes a b);
        pair_loop fuel' nodes newNodes (j + 2) (nodeInd + 1)
    end
  else Returns newNodes.

(** The state of the outer loop: the current level, and two ghost
    fields that record how many rounds ran and whether the odd-length
    branch (duplicate the last node) was ever taken. *)
Record fold_state : Type := {
  nodes : list bytes;
  rounds : nat;
  padded : bool
}.

(** The outer loop, [for i := 0; i < FixedMTDepth; i++], by recursion on
    the iterations that are left. *)
Fixpoint CalculateMerkleRoot_loop (remaining : nat) (st : fold_state)
  : outcome fold_state :=
  match remaining with
  | O => Returns st
  | S remaining' =>
      let newNodes :=
        replicate (Z.to_nat ((len (nodes st) + 1) / 2)) ([] : bytes) in
      let odd := Z.land (len (nodes st)) 1 =? 1 in
      nodes1 ← (if odd
                then lastNode ← index (nodes st) (len (nodes st) - 1);
                     Returns (nodes st ++ [lastNode])
                else Returns (nodes st));
      newNodes ← pair_loop (length nodes1) nodes1 newNodes 0 0;
      let st' := {| nodes := newNodes;
                    rounds := S (rounds st);
                    padded := padded st || odd |} in
      if len newNodes =? 1 then Returns st'
      else CalculateMerkleRoot_loop remaining' st'
  end.

Definition CalculateMerkleRoot_fold (t : FixedMerkleTree)
  : outcome fold_state :=
  CalculateMerkleRoot_loop (Z.to_nat FixedMTDepth)
    {| nodes := map GetHashBytes (Leaves t); rounds := 0; padded := false |}.

Definition CalculateMerkleRoot (t : FixedMerkleTree)
  : outcome FixedMerkleTree :=
  st ← CalculateMerkleRoot_fold t;
  root ← index (nodes st) 0;
  Returns (set_merkleRoot (Some root) t).

Definition GetMerkleRoot (t : FixedMerkleTree)
  : outcome (FixedMerkleTree * string) :=
  match merkleRoot t with
  | Some root => Returns (t, EncodeToString root)
  | None =>
      t ← CalculateMerkleRoot t;
      Returns (t, EncodeToString (default [] (merkleRoot t)))
  end.

(** ** Merkle paths *)

Record FixedMerklePath : Type := {
  LeafHash : bytes;
  RootHash : bytes;
  Nodes : list bytes;
  LeafInd : Z
}.

(** The loop of [VerifyMerklePath] over [fp.Nodes]; Go's [/] on [int]
    truncates, which is [Z.quot]. *)
Fixpoint VerifyMerklePath_loop (siblings : list bytes) (leafInd : Z)
    (hash : bytes) : bytes :=
  match siblings with
  | [] => hash
  | node :: rest =>
      let hash := if Z.land leafInd 1 =? 0
                  then MHashBytes hash node
                  else MHashBytes node hash in
      VerifyMerklePath_loop rest (Z.quot leafInd 2) hash
  end.

Definition VerifyMerklePath (fp : FixedMerklePath) : bool :=
  bytes_Equal (VerifyMerklePath_loop (Nodes fp) (LeafInd fp) (LeafHash fp))
              (RootHash fp).

End Hashes.

(** ** Reload *)

(** The loop of [Reload]; [bytesBuf] is the buffer the source is copied
    into, emptied by [Reset] after each [Write]. *)
Fixpoint Reload_loop (fuel : nat) (t : FixedMerkleTree) (bytesBuf : bytes)
    (reader : Reader) : outcome (FixedMerkleTree * option error) :=
  match fuel with
  | O => OutOfFuel
  | S fuel' =>
      let '(got, written, err, reader) := CopyN reader MaxMerkleLeavesSize in
      let bytesBuf := bytesBuf ++ got in
      if written >? 0 then
        '(t, (_, err)) ← Write t bytesBuf;
        match err with
        | Some e => Returns (t, Some e)
        | None => Reload_loop fuel' t [] reader
        end
      else
        match err with
        | Some e => if is_EOF e then Returns (t, None) else Returns (t, Some e)
        | None => Reload_loop fuel' t bytesBuf reader
        end
  end.

Definition Reload (t : FixedMerkleTree) (reader : Reader)
  : outcome (FixedMerkleTree * option error) :=
  let t := initLeaves t in
  Reload_loop (S (length (content reader))) t [] reader.

(** ** Sequences of calls on one tree

    The operations a client reaches: [Write], [Finalize], [GetMerkleRoot]
    and [Reload].  [run] threads the tree through a list of calls and
    drops what they return. *)

Inductive call : Type :=
  | CallWrite (b : bytes)
  | CallFinalize
  | CallGetMerkleRoot
  | CallReload (reader : Reader).

Section Calls.

Variable sha3_256 : bytes -> bytes.
Variable MHashBytes : bytes -> bytes -> bytes.

Definition step (t : FixedMerkleTree) (c : call) : outcome FixedMerkleTree :=
  match c with
  | CallWrite b => '(t, _) ← Write t b; Returns t
  | CallFinalize => '(t, _) ← Finalize t; Returns t
  | CallGetMerkleRoot =>
      '(t, _) ← GetMerkleRoot sha3_256 MHashBytes t; Returns t
  | CallReload reader => '(t, _) ← Reload t reader; Returns t
  end.

Fixpoint run (cs : list call) (t : FixedMerkleTree)
  : outcome FixedMerkleTree :=
  match cs with
  | [] => Returns t
  | c :: cs' => t ← step t c; run cs' t
  end.

End Calls.

(** * The sync code of package [sdk]

    [findDelta] compares the remote files, the local files and the
    remote files of the last sync, and gives the operations that bring
    the two sides together. *)

Module sdk.

Definition Upload : string := "Upload".
Definition Download : string := "Download".
Definition Update : string := "Update".
Definition Delete : string := "Delete".
Definition Conflict : string := "Conflict".
Definition LocalDelete : string := "LocalDelete".

Record fileInfo : Type := { Path : string; Size : Z; Hash : string }.

(** [FileDiff]; its field [Path] is [DPath] here, next to [fileInfo]'s. *)
Record FileDiff : Type := { Op : string; DPath : string }.

(** [_, ok := m[k]] *)
Definition has_key {V} (m : gmap string V) (k : string) : bool :=
  match m !! k with Some _ => true | None => false end.

(** [strings.TrimLeft(s, cutset)] and [strings.TrimRight(s, cutset)] for
    a cutset of ASCII characters, where Go compares byte by byte
    ([trimLeftByte], [trimLeftASCII] and their right-hand versions): the
    leading, or trailing, bytes of [s] that occur in [cutset] go. *)
Definition in_cutset (c : Ascii.ascii) (cutset : string) : bool :=
  existsb (Ascii.eqb c) (String.list_ascii_of_string cutset).



Fixpoint TrimRight (s cutset : string) : string :=
  match s with
  | EmptyString => EmptyString
  | String c s' =>
      match TrimRight s' cutset with
      | EmptyString =>
          if in_cutset c cutset then EmptyString else String c EmptyString
      | String c' r => String c (String c' r)
      end
  end.

(** [getRemoteExcludeMap]: the state of the loop is the map and [idx]. *)
Definition getRemoteExcludeMap (exclPath : list string) : gmap string Z :=
  (foldl (fun '(exclMap, idx) path =>
            (<[TrimRight path "/" := idx]> exclMap, idx + 1))
         (∅, 0) exclPath).1.


Section Files.

(** [calcFileHash] opens and reads the file: the hexadecimal SHA-1 digest
    of its content, or the end of the process ([log.Fatal]). *)
Variable calcFileHash : string -> option string.


End Files.

(** [for _, f := range prevRemote { prevMap[f.Path] = f.Hash }] *)
Definition prev_map (prevRemote : list fileInfo) : gmap string string :=
  foldl (fun prevMap f => <[Path f := Hash f]> prevMap) ∅ prevRemote.

(** The body of the loops that fill [rMap] and [rMod] from [remote], and
    [lMap] and [lMod] from [local]: the two loops are the same code. *)
Definition scan_step (prevMap : gmap string string)
    (st : gmap string string * gmap string string) (file : fileInfo)
  : gmap string string * gmap string string :=
  let '(fMap, fMod) := st in
  let fMap := <[Path file := Hash file]> fMap in
  match prevMap !! Path file with
  | Some hash =>
      if negb (String.eqb hash (Hash file))
      then (fMap, <[Path file := Hash file]> fMod)
      else (fMap, fMod)
  | None => (fMap, fMod)
  end.

Definition scan (prevMap : gmap string string) (files : list fileInfo)
  : gmap string string * gmap string string :=
  foldl (scan_step prevMap) (∅, ∅) files.

(** The body of [for rPath, _ := range rMap]: the state is [lMap], which
    the loop deletes from, and [lFDiff]. *)
Definition remote_step (prevMap rMod lMod : gmap string string)
    (st : gmap string string * list FileDiff) (rPath : string)
  : gmap string string * list FileDiff :=
  let '(lMap, lFDiff) := st in
  let bRemoteModified := has_key rMod rPath in
  let bLocalModified := has_key lMod rPath in
  let lMap := if bLocalModified then delete rPath lMap else lMap in
  if bRemoteModified && bLocalModified then
    (lMap, lFDiff ++ [{| Op := Conflict; DPath := rPath |}])
  else if bLocalModified then
    (lMap, lFDiff ++ [{| Op := Update; DPath := rPath |}])
  else if has_key lMap rPath then
    (delete rPath lMap, lFDiff)
  else if has_key prevMap rPath then
    (lMap, lFDiff ++ [{| Op := Delete; DPath := rPath |}])
  else
    (lMap, lFDiff ++ [{| Op := Download; DPath := rPath |}]).

(** The body of [for lPath, _ := range lMap]. *)
Definition local_step (prevMap lMod : gmap string string)
    (lFDiff : list FileDiff) (lPath : string) : list FileDiff :=
  let op :=
    if has_key lMod lPath then Update
    else if has_key prevMap lPath then LocalDelete
    else Upload in
  lFDiff ++ [{| Op := op; DPath := lPath |}].

Section Range.

(** Go's [range] over a map visits every key once, in an order that is
    not specified and changes from run to run: [keys m] is the order in
    which the keys of [m] are visited. *)
Variable keys : gmap string string -> list string.

Definition findDelta (remote local prevRemote : list fileInfo)
  : list FileDiff :=
  let prevMap := prev_map prevRemote in
  let '(rMap, rMod) := scan prevMap remote in
  let '(lMap, lMod) := scan prevMap local in
  let '(lMap, lFDiff) :=
    foldl (remote_step prevMap rMod lMod) (lMap, []) (keys rMap) in
  foldl (local_step prevMap lMod) lFDiff (keys lMap).

End Range.

End sdk.

(** * Definitions used to state the properties *)

(** ** Chunks and windows

    [chunk k w] is the chunk of position [k] of a window [w];
    [feed ls w] hands the successive 64-byte chunks of [w] to the
    successive leaves of [ls]. *)

Definition chunk (k : nat) (w : bytes) : bytes :=
  take (Z.to_nat MerkleChunkSize) (drop (Z.to_nat MerkleChunkSize * k) w).

Fixpoint feed (ls : list leaf) (w : bytes) : list leaf :=
  match ls with
  | [] => []
  | l :: ls' =>
      leaf_Write l (take (Z.to_nat MerkleChunkSize) w)
      :: feed ls' (drop (Z.to_nat MerkleChunkSize) w)
  end.

(** [absorb] is what the assembler does to a stream [data] that starts at
    a window boundary: every full window of 65536 bytes goes to the
    leaves, the rest stays staged.  [windows] gives it the fuel it
    needs. *)

Fixpoint absorb (fuel : nat) (ls : list leaf) (data : bytes)
  : list leaf * bytes :=
  match fuel with
  | O => (ls, data)
  | S fuel' =>
      if MaxMerkleLeavesSize <=? len data
      then absorb fuel'
             (feed ls (take (Z.to_nat MaxMerkleLeavesSize) data))
             (drop (Z.to_nat MaxMerkleLeavesSize) data)
      else (ls, data)
  end.

Definition windows (ls : list leaf) (data : bytes) : list leaf * bytes :=
  absorb (length data) ls data.

(** The windows [writeToLeaves] takes: at most 65536 bytes, and exactly
    65536 unless the tree is finalized. *)
Definition window_ok (final : bool) (w : bytes) : Prop :=
  len w <= MaxMerkleLeavesSize /\ (len w = MaxMerkleLeavesSize \/ final = true).

(** A sequence of dispatches, up to the first one that fails. *)
Fixpoint dispatch_all (ws : list bytes) (t : FixedMerkleTree)
  : outcome (FixedMerkleTree * option error) :=
  match ws with
  | [] => Returns (t, None)
  | w :: ws' =>
      '(t, err) ← writeToLeaves t w;
      match err with
      | Some e => Returns (t, Some e)
      | None => dispatch_all ws' t
      end
  end.

(** ** The state of a tree between calls *)

(** The bytes that wait in the staging buffer. *)
Definition staged (t : FixedMerkleTree) : bytes :=
  take (Z.to_nat (writeCount t)) (writeBytes t).

(** The invariant of a tree between calls. *)
Record wellformed (t : FixedMerkleTree) : Prop := {
  wf_leaves : length (Leaves t) = Z.to_nat FixedMerkleLeaves;
  wf_buffer : len (writeBytes t) = MaxMerkleLeavesSize;
  wf_count : 0 <= writeCount t < MaxMerkleLeavesSize;
  wf_lock : writeLock t = true -> isFinal t = true
}.

(** [absorbed t d t']: [t'] is [t] after the stream [d] went through the
    assembler. *)
Record absorbed (t : FixedMerkleTree) (d : bytes) (t' : FixedMerkleTree)
  : Prop := {
  ab_leaves : Leaves t' = (windows (Leaves t) (staged t ++ d)).1;
  ab_staged : staged t' = (windows (Leaves t) (staged t ++ d)).2;
  ab_count : writeCount t' = len (windows (Leaves t) (staged t ++ d)).2;
  ab_buffer : len (writeBytes t') = len (writeBytes t);
  ab_lock : writeLock t' = writeLock t;
  ab_final : isFinal t' = isFinal t;
  ab_root : merkleRoot t' = merkleRoot t
}.

(** The tree after its first [Finalize]: the staged bytes went to the
    leaves as the last window. *)
Definition finalized (t : FixedMerkleTree) : FixedMerkleTree :=
  set_Leaves (feed (Leaves t) (staged t)) (set_isFinal true t).


(** ** Streams *)

(** Successive [Write] calls, one per segment. *)
Fixpoint write_all (segs : list bytes) (t : FixedMerkleTree)
  : outcome FixedMerkleTree :=
  match segs with
  | [] => Returns t
  | b :: segs' => '(t, _) ← Write t b; write_all segs' t
  end.

(** The leaves of a tree that received the stream [data] and was
    finalized: the full windows, then the short last one. *)
Definition stream_leaves (data : bytes) : list leaf :=
  feed (windows (Leaves NewFixedMerkleTree) data).1
       (windows (Leaves NewFixedMerkleTree) data).2.

(** The successive reads of [Reload] from a source that holds [data]. *)
Fixpoint reads (fuel : nat) (data : bytes) : list bytes :=
  match fuel with
  | O => []
  | S fuel' =>
      if len data >? 0
      then take (Z.to_nat MaxMerkleLeavesSize) data
           :: reads fuel' (drop (Z.to_nat MaxMerkleLeavesSize) data)
      else []
  end.

(** ** Errors and strings *)

Definition ErrTreeFinalized : error :=
  errors_New "cannot write. Tree is already finalized".
Definition ErrAlreadyFinalized : error := errors_New "already finalized".



(** ** The tree of digests *)

Section Digests.

Variable sha3_256 : bytes -> bytes.
Variable MHashBytes : bytes -> bytes -> bytes.

(** One level of the tree over a level of even length. *)
Fixpoint pairs (level : list bytes) : list bytes :=
  match level with
  | a :: b :: rest => MHashBytes a b :: pairs rest
  | _ => []
  end.

Fixpoint fold_levels (k : nat) (level : list bytes) : list bytes :=
  match k with
  | O => level
  | S k' => fold_levels k' (pairs level)
  end.

(** The root of a tree with 1024 leaves. *)
Definition root_of (ls : list leaf) : bytes :=
  default [] (head (fold_levels 10 (map (GetHashBytes sha3_256) ls))).

(** Write the segments on a fresh tree, finalize, ask for the root. *)
Definition commit (segs : list bytes) : outcome (option error * string) :=
  t ← write_all segs NewFixedMerkleTree;
  '(t, err) ← Finalize t;
  '(_, root) ← GetMerkleRoot sha3_256 MHashBytes t;
  Returns (err, root).

(** The replay of a path as the specification words it: an even index
    is a left child, an odd one a right child, and the index is halved
    (Go's division, which truncates) at each level. *)
Fixpoint replay (siblings : list bytes) (idx : Z) (current : bytes) : bytes :=
  match siblings with
  | [] => current
  | sibling :: rest =>
      replay rest (Z.quot idx 2)
        (if Z.even idx then MHashBytes current sibling
         else MHashBytes sibling current)
  end.

End Digests.

(** ** Stand-in digests

    The properties below hold for every leaf digest and every combinator.
    Where a statement has to be instantiated at concrete values, these
    two functions stand in for them: they have the shape of the real
    digests (32 bytes out) and none of their strength. *)

Definition demo_sha3_256 (b : bytes) : bytes :=
  take 32 (b ++ replicate 32 x00).

Definition demo_MHashBytes (a b : bytes) : bytes :=
  take 32 (a ++ b ++ replicate 32 x00).

(** ** Paths of siblings and levels of any length *)

Section Siblings.

Variable MHashBytes : bytes -> bytes -> bytes.

(** The node that is paired with node [i] of a level. *)
Definition sibling (level : list bytes) (i : nat) : bytes :=
  default [] (level !! (if Nat.even i then S i else pred i)).

(** The siblings met on the way from node [i] of [level] up [k] levels. *)
Fixpoint merkle_path (k : nat) (level : list bytes) (i : nat) : list bytes :=
  match k with
  | O => []
  | S k' =>
      sibling level i :: merkle_path k' (pairs MHashBytes level) (i / 2)%nat
  end.

(** One round of [CalculateMerkleRoot] on a level of any length: a level
    of odd length gets its last node twice. *)
Definition level_up (level : list bytes) : list bytes :=
  pairs MHashBytes
    (if Nat.odd (length level)
     then level ++ [default [] (last level)]
     else level).

Fixpoint fold_up (k : nat) (level : list bytes) : list bytes :=
  match k with
  | O => level
  | S k' => fold_up k' (level_up level)
  end.

End Siblings.

(** The number of bytes a list of leaves has absorbed. *)
Definition held (ls : list leaf) : Z :=
  foldr (fun l n => len (h l) + n) 0 ls.

(** What [Reload] returns once its source is exhausted: the error of the
    source, unless it is [io.EOF]. *)
Definition source_error (reader : Reader) : option error :=
  match fault reader with
  | Some e => if is_EOF e then None else Some e
  | None => None
  end.

(** The value of a hexadecimal digit, and the bytes a string of such
    digits denotes, two digits per byte. *)
Definition hex_value (c : Ascii.ascii) : N :=
  let n := Ascii.N_of_ascii c in
  if (n <? 58)%N then (n - 48)%N else (n - 87)%N.

Fixpoint hex_decode (s : string) : bytes :=
  match s with
  | String hi (String lo rest) =>
      match Byte.of_N (16 * hex_value hi + hex_value lo) with
      | Some v => v :: hex_decode rest
      | None => []
      end
  | _ => []
  end.

(** ** The sync code *)

(** An order in which [range] may visit the keys of the maps: every key
    once. *)
Definition range_order (keys : gmap string string -> list string) : Prop :=
  forall m : gmap string string, keys m ≡ₚ (map_to_list m).*1.

(** [listed files p]: some entry of [files] has the path [p]. *)
Definition listed (files : list sdk.fileInfo) (p : string) : bool :=
  existsb (fun f => String.eqb (sdk.Path f) p) files.

(** The hash the snapshot [prevRemote] records for [p]: that of the last
    entry with this path. *)
Definition snapshot_hash (prevRemote : list sdk.fileInfo) (p : string)
  : option string :=
  foldl (fun found f =>
           if String.eqb (sdk.Path f) p then Some (sdk.Hash f) else found)
        None prevRemote.

(** [changed prevRemote files p]: some entry of [files] with the path [p]
    has another hash than the snapshot records for [p]. *)
Definition changed (prevRemote files : list sdk.fileInfo) (p : string)
  : bool :=
  match snapshot_hash prevRemote p with
  | Some hash =>
      existsb (fun f => String.eqb (sdk.Path f) p
                        && negb (String.eqb hash (sdk.Hash f))) files
  | None => false
  end.

(** The operation for the path [p], if any. *)
Definition operation (remote local prevRemote : list sdk.fileInfo)
    (p : string) : option string :=
  if listed remote p then
    if changed prevRemote local p then
      Some (if changed prevRemote remote p then sdk.Conflict else sdk.Update)
    else if listed local p then None
    else Some (if listed prevRemote p then sdk.Delete else sdk.Download)
  else if listed local p then
    Some (if changed prevRemote local p then sdk.Update
          else if listed prevRemote p then sdk.LocalDelete
          else sdk.Upload)
  else None.

(** What [scan] finds for a path. *)
Definition changed_in (prevMap : gmap string string) (files : list sdk.fileInfo)
    (p : string) : bool :=
  match prevMap !! p with
  | Some hash =>
      existsb (fun f => String.eqb (sdk.Path f) p
                        && negb (String.eqb hash (sdk.Hash f))) files
  | None => false
  end.

(** The entries the two loops of [findDelta] append for a path. *)
Definition remote_entry (prevMap rMod lMod lMap : gmap string string)
    (p : string) : list sdk.FileDiff :=
  if sdk.has_key lMod p then
    [{| sdk.Op := if sdk.has_key rMod p then sdk.Conflict else sdk.Update;
        sdk.DPath := p |}]
  else if sdk.has_key lMap p then []
  else [{| sdk.Op := if sdk.has_key prevMap p then sdk.Delete else sdk.Download;
           sdk.DPath := p |}].

Definition local_entry (prevMap lMod : gmap string string) (p : string)
  : sdk.FileDiff :=
  {| sdk.Op := if sdk.has_key lMod p then sdk.Update
           else if sdk.has_key prevMap p then sdk.LocalDelete
           else sdk.Upload;
     sdk.DPath := p |}.


(** * Properties *)

Arguments MerkleChunkSize : simpl never.
Arguments MaxMerkleLeavesSize : simpl never.
Arguments FixedMerkleLeaves : simpl never.
Arguments FixedMTDepth : simpl never.

Ltac osimpl :=
  cbn [mbind outcome_bind mret outcome_ret fst snd
       Leaves writeLock isFinal writeCount writeBytes merkleRoot
       set_Leaves set_writeLock set_isFinal set_writeCount set_writeBytes
       set_merkleRoot] in *.

Ltac consts :=
  unfold MerkleChunkSize, MaxMerkleLeavesSize, FixedMerkleLeaves,
    FixedMTDepth, len in *.

(** ** Slices and indices inside their bounds *)

Lemma len_nonneg {A} (s : list A) : 0 <= len s.
Proof. unfold len. lia. Qed.

Lemma len_app {A} (s1 s2 : list A) : len (s1 ++ s2) = len s1 + len s2.
Proof. unfold len. rewrite length_app. lia. Qed.

Lemma slice_in_bounds {A} (s : list A) (lo hi : Z) :
  0 <= lo -> lo <= hi -> hi <= len s ->
  slice s lo hi = Returns (take (Z.to_nat (hi - lo)) (drop (Z.to_nat lo) s)).
Proof.
  intros H1 H2 H3. unfold slice.
  destruct (Z.leb_spec 0 lo); [|lia].
  destruct (Z.leb_spec lo hi); [|lia].
  destruct (Z.leb_spec hi (len s)); [|lia].
  reflexivity.
Qed.

Lemma index_in_bounds {A} (s : list A) (i : nat) (x : A) :
  s !! i = Some x -> index s (Z.of_nat i) = Returns x.
Proof.
  intros H. unfold index.
  destruct (Z.leb_spec 0 (Z.of_nat i)); [|lia].
  rewrite Nat2Z.id, H. reflexivity.
Qed.

Lemma store_in_bounds {A} (s : list A) (i : nat) (x : A) :
  (i < length s)%nat -> store s (Z.of_nat i) x = Returns (<[i := x]> s).
Proof.
  intros H. unfold store, len.
  destruct (Z.leb_spec 0 (Z.of_nat i)); [|lia].
  destruct (Z.ltb_spec (Z.of_nat i) (Z.of_nat (length s))); [|lia].
  rewrite Nat2Z.id. reflexivity.
Qed.

Lemma copy_into_in_bounds (s : bytes) (lo : nat) (src : bytes) :
  (lo + length src <= length s)%nat ->
  copy_into s (Z.of_nat lo) (Z.of_nat lo + len src) src
  = Returns (take lo s ++ src ++ drop (lo + length src) s).
Proof.
  intros H. unfold copy_into, len.
  destruct (Z.leb_spec 0 (Z.of_nat lo)); [|lia].
  destruct (Z.leb_spec (Z.of_nat lo) (Z.of_nat lo + Z.of_nat (length src))); [|lia].
  destruct (Z.leb_spec (Z.of_nat lo + Z.of_nat (length src)) (Z.of_nat (length s))); [|lia].
  cbn [andb]. rewrite Nat2Z.id.
  replace (Z.to_nat (Z.min (Z.of_nat lo + Z.of_nat (length src) - Z.of_nat lo)
                           (Z.of_nat (length src)))) with (length src) by lia.
  rewrite firstn_all. reflexivity.
Qed.

Lemma leaf_Write_nil (l : leaf) : leaf_Write l [] = l.
Proof. destruct l as [hl]. unfold leaf_Write. cbn. rewrite app_nil_r. reflexivity. Qed.

Lemma feed_nil (ls : list leaf) : feed ls [] = ls.
Proof.
  induction ls as [|l ls IH]; [reflexivity|].
  cbn [feed]. rewrite take_nil, drop_nil, leaf_Write_nil, IH. reflexivity.
Qed.

Lemma length_feed (ls : list leaf) (w : bytes) : length (feed ls w) = length ls.
Proof.
  revert w. induction ls as [|l ls IH]; intros w; [reflexivity|].
  cbn [feed length]. rewrite IH. reflexivity.
Qed.

Lemma feed_lookup (ls : list leaf) (w : bytes) (k : nat) :
  feed ls w !! k = (fun l => leaf_Write l (chunk k w)) <$> ls !! k.
Proof.
  revert w k. induction ls as [|l ls IH]; intros w k; [reflexivity|].
  destruct k as [|k].
  - cbn [feed]. cbn [lookup list_lookup fmap option_fmap option_map].
    unfold chunk. rewrite Nat.mul_0_r, drop_0. reflexivity.
  - cbn [feed]. rewrite !lookup_cons. rewrite IH.
    unfold chunk. rewrite drop_drop.
    replace (Z.to_nat MerkleChunkSize + Z.to_nat MerkleChunkSize * k)%nat
      with (Z.to_nat MerkleChunkSize * S k)%nat by lia.
    reflexivity.
Qed.
(** ** The loop of [writeToLeaves] is [feed] *)

Lemma leaves_Write_in_bounds (pre post : list leaf) (l : leaf) (b : bytes) :
  leaves_Write (pre ++ l :: post) (Z.of_nat (length pre)) b
  = Returns (pre ++ leaf_Write l b :: post).
Proof.
  unfold leaves_Write.
  rewrite (index_in_bounds _ _ l) by (apply list_lookup_middle; reflexivity).
  osimpl. rewrite store_in_bounds by (rewrite length_app; cbn; lia).
  replace (length pre) with (length pre + 0)%nat at 1 by lia.
  rewrite insert_app_r. reflexivity.
Qed.

Lemma writeToLeaves_loop_feed (post : list leaf) :
  forall (pre : list leaf) (fuel : nat) (b : bytes),
    (length (drop (Z.to_nat MerkleChunkSize * length pre) b)
       <= Z.to_nat MerkleChunkSize * length post)%nat ->
    (length (drop (Z.to_nat MerkleChunkSize * length pre) b) <= fuel)%nat ->
    writeToLeaves_loop fuel b (MerkleChunkSize * Z.of_nat (length pre))
      (Z.of_nat (length pre)) (pre ++ post)
    = Returns (pre ++ feed post (drop (Z.to_nat MerkleChunkSize * length pre) b)).
Proof.
  induction post as [|l post IH]; intros pre fuel b Hroom Hfuel.
  - (* no leaf is left: no byte is left either *)
    rewrite length_drop in Hroom.
    destruct fuel; cbn [writeToLeaves_loop];
      (destruct (Z.ltb_spec (MerkleChunkSize * Z.of_nat (length pre)) (len b));
       [consts; cbn in Hroom; lia|]); reflexivity.
  - destruct fuel as [|fuel]; cbn [writeToLeaves_loop];
      destruct (Z.ltb_spec (MerkleChunkSize * Z.of_nat (length pre)) (len b)) as [Hlt|Hge].
    + rewrite length_drop in Hfuel. consts. lia.
    + rewrite drop_ge by (consts; lia). rewrite feed_nil. reflexivity.
    + set (i := MerkleChunkSize * Z.of_nat (length pre)) in *.
      set (j := if i + MerkleChunkSize >? len b then len b else i + MerkleChunkSize).
      assert (Hj : i < j /\ j <= len b /\ j - i = Z.min MerkleChunkSize (len b - i)).
      { subst j. destruct (Z.gtb_spec (i + MerkleChunkSize) (len b)); consts; lia. }
      rewrite slice_in_bounds by (subst i; consts; lia). osimpl.
      rewrite leaves_Write_in_bounds. osimpl.
      replace (pre ++ leaf_Write l (take (Z.to_nat (j - i)) (drop (Z.to_nat i) b)) :: post)
        with ((pre ++ [leaf_Write l (take (Z.to_nat (j - i)) (drop (Z.to_nat i) b))]) ++ post)
        by (rewrite <- app_assoc; reflexivity).
      replace (i + MerkleChunkSize)
        with (MerkleChunkSize * Z.of_nat (length (pre ++ [leaf_Write l (take (Z.to_nat (j - i)) (drop (Z.to_nat i) b))])))
        by (rewrite length_app; cbn [length]; subst i; lia).
      replace (Z.of_nat (length pre) + 1)
        with (Z.of_nat (length (pre ++ [leaf_Write l (take (Z.to_nat (j - i)) (drop (Z.to_nat i) b))])))
        by (rewrite length_app; cbn [length]; lia).
      assert (Hdrop : forall x : leaf,
        (Z.to_nat MerkleChunkSize * length (pre ++ [x])
         = Z.to_nat MerkleChunkSize * length pre + Z.to_nat MerkleChunkSize)%nat).
      { intros x. rewrite length_app. cbn [length]. lia. }
      rewrite IH.
      * rewrite Hdrop, <- drop_drop, <- app_assoc. cbn [app feed].
        replace (Z.to_nat i) with (Z.to_nat MerkleChunkSize * length pre)%nat
          by (subst i; lia).
        do 3 f_equal. f_equal.
        remember (drop (Z.to_nat MerkleChunkSize * length pre) b) as rest eqn:Hrest.
        assert (Hlen : len rest = len b - i).
        { subst rest. unfold len. rewrite length_drop. subst i. consts. lia. }
        destruct Hj as (_ & _ & Hj).
        destruct (Z.min_spec MerkleChunkSize (len b - i)) as [[? Hm]|[? Hm]];
          rewrite Hm in Hj.
        -- rewrite Hj. reflexivity.
        -- rewrite !take_ge; [reflexivity|..]; unfold len in *; lia.
      * rewrite Hdrop, <- drop_drop, length_drop. cbn [length] in Hroom. lia.
      * rewrite Hdrop, <- drop_drop, length_drop.
        rewrite length_drop in Hfuel |- *. consts. lia.
    + rewrite drop_ge by (consts; lia). rewrite feed_nil. reflexivity.
Qed.

(** ** Dispatching a window *)

Lemma writeToLeaves_dispatch (t : FixedMerkleTree) (w : bytes) :
  len w <= MaxMerkleLeavesSize ->
  len w = MaxMerkleLeavesSize \/ isFinal t = true ->
  (length w <= Z.to_nat MerkleChunkSize * length (Leaves t))%nat ->
  writeToLeaves t w = Returns (set_Leaves (feed (Leaves t) w) t, None).
Proof.
  intros Hmax Hfull Hroom. unfold writeToLeaves.
  destruct (Z.gtb_spec (len w) MaxMerkleLeavesSize); [lia|].
  assert (Hchk : (len w <? MaxMerkleLeavesSize) && negb (isFinal t) = false).
  { destruct Hfull as [->| ->].
    - rewrite Z.ltb_irrefl. reflexivity.
    - apply andb_false_r. }
  rewrite Hchk.
  pose proof (writeToLeaves_loop_feed (Leaves t) [] (length w) w) as Hloop.
  cbn [length app] in Hloop. change (Z.of_nat 0) with 0 in Hloop.
  rewrite Nat.mul_0_r, Z.mul_0_r, drop_0 in Hloop.
  rewrite Hloop by lia. reflexivity.
Qed.

(** ** The stream seen as windows *)

Lemma absorb_enough (f1 : nat) :
  forall (f2 : nat) (ls : list leaf) (data : bytes),
    (length data <= f1)%nat -> (length data <= f2)%nat ->
    absorb f1 ls data = absorb f2 ls data.
Proof.
  induction f1 as [|f1 IH]; intros f2 ls data H1 H2.
  - destruct data; [|cbn in H1; lia].
    destruct f2; reflexivity.
  - destruct f2 as [|f2].
    + destruct data; [|cbn in H2; lia]. reflexivity.
    + cbn [absorb].
      destruct (Z.leb_spec MaxMerkleLeavesSize (len data)); [|reflexivity].
      apply IH; rewrite length_drop; consts; lia.
Qed.

Lemma windows_short (ls : list leaf) (data : bytes) :
  len data < MaxMerkleLeavesSize -> windows ls data = (ls, data).
Proof.
  intros H. unfold windows. destruct (length data) eqn:E; [reflexivity|].
  cbn [absorb]. destruct (Z.leb_spec MaxMerkleLeavesSize (len data)); [lia|].
  reflexivity.
Qed.

Lemma windows_full (ls : list leaf) (data : bytes) :
  MaxMerkleLeavesSize <= len data ->
  windows ls data
  = windows (feed ls (take (Z.to_nat MaxMerkleLeavesSize) data))
            (drop (Z.to_nat MaxMerkleLeavesSize) data).
Proof.
  intros H. unfold windows at 1. destruct (length data) eqn:E.
  - consts. lia.
  - cbn [absorb]. destruct (Z.leb_spec MaxMerkleLeavesSize (len data)); [|lia].
    apply absorb_enough; rewrite length_drop; consts; lia.
Qed.

Lemma windows_remainder (ls : list leaf) (data : bytes) :
  len (windows ls data).2 < MaxMerkleLeavesSize
  /\ length (windows ls data).1 = length ls.
Proof.
  remember (length data) as n eqn:Hn.
  revert ls data Hn. induction n as [n IH] using lt_wf_ind. intros ls data Hn.
  destruct (Z.leb_spec MaxMerkleLeavesSize (len data)) as [Hfull|Hshort].
  - rewrite windows_full by assumption.
    destruct (IH (length (drop (Z.to_nat MaxMerkleLeavesSize) data)))
      with (ls := feed ls (take (Z.to_nat MaxMerkleLeavesSize) data))
           (data := drop (Z.to_nat MaxMerkleLeavesSize) data) as [H1 H2].
    + rewrite length_drop. consts. lia.
    + reflexivity.
    + split; [exact H1|]. rewrite H2. apply length_feed.
  - rewrite windows_short by assumption. split; [exact Hshort|reflexivity].
Qed.

(** Writing [a] and then [b] absorbs what writing [a ++ b] absorbs. *)
Lemma windows_app (ls : list leaf) (a b : bytes) :
  windows (windows ls a).1 ((windows ls a).2 ++ b) = windows ls (a ++ b).
Proof.
  remember (length a) as n eqn:Hn.
  revert ls a Hn. induction n as [n IH] using lt_wf_ind. intros ls a Hn.
  destruct (Z.leb_spec MaxMerkleLeavesSize (len a)) as [Hfull|Hshort].
  - rewrite (windows_full ls a) by assumption.
    rewrite (windows_full ls (a ++ b)) by (rewrite len_app; pose proof (len_nonneg b); lia).
    rewrite take_app_le, drop_app_le by (consts; lia).
    apply (IH (length (drop (Z.to_nat MaxMerkleLeavesSize) a))); [|reflexivity].
    rewrite length_drop. consts. lia.
  - rewrite (windows_short ls a) by assumption. reflexivity.
Qed.

Lemma windows_split (ls : list leaf) (s rest : bytes) (n : nat) :
  (length s + n = Z.to_nat MaxMerkleLeavesSize)%nat ->
  (n <= length rest)%nat ->
  windows ls (s ++ rest) = windows (feed ls (s ++ take n rest)) (drop n rest).
Proof.
  intros Hs Hn.
  rewrite windows_full by (rewrite len_app; consts; lia).
  rewrite take_app, drop_app.
  rewrite take_ge, drop_ge by lia.
  replace (Z.to_nat MaxMerkleLeavesSize - length s)%nat with n by lia.
  reflexivity.
Qed.

(** ** The loop of [Write] *)

Lemma copy_into_window (s : bytes) (lo hi : Z) (src : bytes) :
  0 <= lo -> hi = lo + len src -> hi <= len s ->
  copy_into s lo hi src
  = Returns (take (Z.to_nat lo) s ++ src ++ drop (Z.to_nat hi) s).
Proof.
  intros H1 H2 H3.
  pose proof (copy_into_in_bounds s (Z.to_nat lo) src) as H.
  rewrite Z2Nat.id in H by assumption. rewrite <- H2 in H.
  rewrite H by (unfold len in *; lia).
  replace (Z.to_nat hi) with (Z.to_nat lo + length src)%nat
    by (unfold len in *; lia).
  reflexivity.
Qed.

Lemma Write_loop_done (fuel : nat) (b : bytes) (i j : Z) (t : FixedMerkleTree) :
  len b <= i -> Write_loop fuel b i j t = Returns (t, (len b, None)).
Proof.
  intros H. destruct fuel; cbn [Write_loop];
    (destruct (Z.ltb_spec i (len b)); [lia|reflexivity]).
Qed.

Lemma len_staged (t : FixedMerkleTree) :
  0 <= writeCount t <= len (writeBytes t) -> len (staged t) = writeCount t.
Proof. intros H. unfold staged, len in *. rewrite length_take. lia. Qed.

Lemma Write_loop_spec (fuel : nat) :
  forall (b : bytes) (i j : Z) (t : FixedMerkleTree),
    0 <= i <= len b ->
    j = i + MaxMerkleLeavesSize - writeCount t ->
    len b - i < Z.of_nat fuel ->
    length (Leaves t) = Z.to_nat FixedMerkleLeaves ->
    len (writeBytes t) = MaxMerkleLeavesSize ->
    0 <= writeCount t < MaxMerkleLeavesSize ->
    exists t', Write_loop fuel b i j t = Returns (t', (len b, None))
               /\ absorbed t (drop (Z.to_nat i) b) t'.
Proof.
  induction fuel as [|fuel IH]; intros b i j t Hi Hj Hfuel Hl Hb Hc; [lia|].
  assert (Hst : len (staged t) = writeCount t) by (apply len_staged; lia).
  assert (Hrest : len (drop (Z.to_nat i) b) = len b - i).
  { unfold len. rewrite length_drop. unfold len in Hi. lia. }
  cbn [Write_loop]. destruct (Z.ltb_spec i (len b)) as [Hlt|Hge].
  - set (j' := if j >? len b then len b else j).
    assert (Hj' : j' = Z.min j (len b)).
    { subst j'. destruct (Z.gtb_spec j (len b)); lia. }
    clearbody j'. osimpl.
    rewrite slice_in_bounds by lia. osimpl.
    set (src := take (Z.to_nat (j' - i)) (drop (Z.to_nat i) b)).
    assert (Hsrc : len src = j' - i).
    { subst src. unfold len in *. rewrite length_take, length_drop. lia. }
    rewrite copy_into_window by lia. osimpl.
    set (buf := take (Z.to_nat (writeCount t)) (writeBytes t) ++ src
                ++ drop (Z.to_nat (writeCount t + (j' - i))) (writeBytes t)).
    assert (Hbuf : len buf = MaxMerkleLeavesSize).
    { subst buf. rewrite !len_app. fold (staged t). rewrite Hst, Hsrc.
      unfold len in *. rewrite length_drop. lia. }
    destruct (Z.eqb_spec (writeCount t + (j' - i)) MaxMerkleLeavesSize) as [Hfull|Hpart].
    + (* the window is complete: dispatch it *)
      rewrite writeToLeaves_dispatch; osimpl;
        [|lia|left; exact Hbuf|rewrite Hl; consts; lia].
      destruct (IH b j' (j' + MaxMerkleLeavesSize)
                  (set_writeCount 0
                     (set_Leaves (feed (Leaves t) buf)
                        (set_writeBytes buf
                           (set_writeCount (writeCount t + (j' - i)) t)))))
        as (t' & Hrun & Hab); osimpl;
        [lia|lia|lia|rewrite length_feed; exact Hl|exact Hbuf|consts; lia|].
      exists t'. split; [exact Hrun|].
      assert (Hw : windows (Leaves t) (staged t ++ drop (Z.to_nat i) b)
                   = windows (feed (Leaves t) buf) (drop (Z.to_nat j') b)).
      { rewrite (windows_split _ _ _ (Z.to_nat (j' - i)))
          by (unfold len in *; lia).
        subst buf. fold (staged t).
        rewrite (drop_ge (writeBytes t)) by (unfold len in *; lia).
        rewrite app_nil_r. fold src. rewrite drop_drop.
        replace (Z.to_nat i + Z.to_nat (j' - i))%nat with (Z.to_nat j') by lia.
        reflexivity. }
      destruct Hab as [A1 A2 A3 A4 A5 A6 A7].
      unfold staged in A1, A2, A3 at 1. osimpl.
      change (Z.to_nat 0) with 0%nat in *. rewrite take_0 in *. cbn [app] in *.
      split; osimpl; rewrite ?Hw; try assumption. lia.
    + (* the input ends inside the window: the bytes stay staged *)
      assert (Hend : j' = len b) by lia.
      assert (Hle : len b <= j) by lia. clear Hj'. subst j'.
      rewrite Write_loop_done by lia.
      eexists. split; [reflexivity|].
      assert (Hw : windows (Leaves t) (staged t ++ drop (Z.to_nat i) b)
                   = (Leaves t, staged t ++ drop (Z.to_nat i) b)).
      { apply windows_short. rewrite len_app. lia. }
      assert (Hsrc' : src = drop (Z.to_nat i) b).
      { subst src. apply take_ge. unfold len in *. lia. }
      assert (Hstg : take (Z.to_nat (writeCount t + (len b - i))) buf
                     = staged t ++ drop (Z.to_nat i) b).
      { subst buf. fold (staged t). rewrite app_assoc, <- Hsrc'.
        apply take_app_length'. rewrite length_app. unfold len in *. lia. }
      split; osimpl; rewrite ?Hw; cbn [fst snd]; try reflexivity.
      * unfold staged in *. osimpl. exact Hstg.
      * rewrite len_app. lia.
      * lia.
  - (* nothing is left to write *)
    assert (i = len b) by lia. subst i.
    eexists. split; [reflexivity|].
    assert (Hw : windows (Leaves t) (staged t ++ drop (Z.to_nat (len b)) b)
                 = (Leaves t, staged t)).
    { rewrite drop_ge by (unfold len; lia). rewrite app_nil_r.
      apply windows_short. lia. }
    split; rewrite ?Hw; cbn [fst snd]; try reflexivity. lia.
Qed.

(** ** [Write] and [Finalize] on a well-formed tree *)

Lemma wellformed_unlocked (t : FixedMerkleTree) :
  wellformed t -> isFinal t = false -> writeLock t = false.
Proof.
  intros Hwf Hfin. destruct (writeLock t) eqn:E; [|reflexivity].
  rewrite (wf_lock t Hwf) in Hfin by exact E. discriminate.
Qed.

Lemma relock (t : FixedMerkleTree) :
  writeLock t = false -> set_writeLock false (set_writeLock true t) = t.
Proof. destruct t. cbn. intros ->. reflexivity. Qed.

Lemma wellformed_NewFixedMerkleTree : wellformed NewFixedMerkleTree.
Proof.
  split; unfold NewFixedMerkleTree, initLeaves; osimpl.
  - apply length_replicate.
  - unfold len. rewrite length_replicate. consts. lia.
  - consts. lia.
  - discriminate.
Qed.

Lemma Write_spec (t : FixedMerkleTree) (b : bytes) :
  wellformed t -> isFinal t = false ->
  exists t', Write t b = Returns (t', (len b, None))
             /\ absorbed t b t' /\ wellformed t'.
Proof.
  intros Hwf Hfin.
  pose proof (wellformed_unlocked t Hwf Hfin) as Hlock.
  destruct Hwf as [Hl Hb Hc _].
  unfold Write, Lock. rewrite Hlock. osimpl. rewrite Hfin.
  destruct (Write_loop_spec (S (length b)) b 0
              (MaxMerkleLeavesSize - writeCount t) (set_writeLock true t))
    as (t1 & Hrun & Hab); osimpl;
    try assumption; try (pose proof (len_nonneg b); unfold len in *; lia).
  rewrite Hrun. osimpl.
  destruct Hab as [A1 A2 A3 A4 A5 A6 A7]. unfold staged in A1, A2, A3.
  osimpl. fold (staged t) in A1, A2, A3. rewrite drop_0 in A1, A2, A3.
  unfold Unlock. rewrite A5. osimpl.
  eexists. split; [reflexivity|].
  pose proof (windows_remainder (Leaves t) (staged t ++ b)) as [R1 R2].
  split; split; unfold staged in *; osimpl; try assumption; try congruence.
  rewrite A3. split; [apply len_nonneg|exact R1].
Qed.

Lemma Write_after_Finalize (t : FixedMerkleTree) (b : bytes) :
  isFinal t = true -> writeLock t = false ->
  Write t b
  = Returns (t, (0, Some (errors_New "cannot write. Tree is already finalized"))).
Proof.
  intros Hfin Hlock. unfold Write, Lock. rewrite Hlock. osimpl. rewrite Hfin.
  unfold Unlock. osimpl. rewrite relock by assumption. reflexivity.
Qed.

Lemma Write_blocks (t : FixedMerkleTree) (b : bytes) :
  writeLock t = true -> Write t b = Blocks.
Proof. intros H. unfold Write, Lock. rewrite H. reflexivity. Qed.

(** Whatever [Write] returns, the tree stays well formed, and neither the
    flag nor the cached root moves. *)
Lemma Write_preserves (t t' : FixedMerkleTree) (b : bytes) r :
  wellformed t -> Write t b = Returns (t', r) ->
  wellformed t' /\ isFinal t' = isFinal t /\ merkleRoot t' = merkleRoot t
  /\ (r = (len b, None)
      \/ r = (0, Some (errors_New "cannot write. Tree is already finalized"))).
Proof.
  intros Hwf Hrun. destruct (isFinal t) eqn:Hfin.
  - destruct (writeLock t) eqn:Hlock.
    + rewrite Write_blocks in Hrun by assumption. discriminate.
    + rewrite Write_after_Finalize in Hrun by assumption.
      injection Hrun as <- <-. rewrite Hfin. auto.
  - destruct (Write_spec t b Hwf Hfin) as (t1 & Hrun1 & Hab & Hwf1).
    rewrite Hrun1 in Hrun. injection Hrun as <- <-.
    destruct Hab. split; [exact Hwf1|]. split; [congruence|].
    split; [congruence|]. left. reflexivity.
Qed.

Lemma Finalize_spec (t : FixedMerkleTree) :
  wellformed t -> isFinal t = false ->
  Finalize t = Returns (finalized t, None).
Proof.
  intros Hwf Hfin.
  pose proof (wellformed_unlocked t Hwf Hfin) as Hlock.
  destruct Hwf as [Hl Hb Hc _].
  unfold Finalize, Lock. rewrite Hlock. osimpl. rewrite Hfin.
  unfold Unlock. osimpl.
  assert (Heta : set_writeLock false (set_isFinal true (set_writeLock true t))
                 = set_isFinal true t).
  { destruct t. cbn in *. subst. reflexivity. }
  rewrite Heta. osimpl.
  destruct (Z.gtb_spec (writeCount t) 0) as [Hpos|Hzero].
  - rewrite slice_in_bounds by lia. osimpl.
    rewrite drop_0, Z.sub_0_r. fold (staged t).
    rewrite writeToLeaves_dispatch; osimpl.
    + reflexivity.
    + rewrite len_staged; lia.
    + right. reflexivity.
    + rewrite Hl. pose proof (len_staged t). consts. lia.
  - unfold finalized, staged.
    replace (writeCount t) with 0 by lia. change (Z.to_nat 0) with 0%nat.
    rewrite take_0, feed_nil.
    destruct t. reflexivity.
Qed.

Lemma Finalize_again (t : FixedMerkleTree) :
  isFinal t = true -> writeLock t = false ->
  Finalize t
  = Returns (set_writeLock true t, Some (errors_New "already finalized")).
Proof.
  intros Hfin Hlock. unfold Finalize, Lock. rewrite Hlock. osimpl.
  rewrite Hfin. reflexivity.
Qed.

Lemma Finalize_blocks (t : FixedMerkleTree) :
  writeLock t = true -> Finalize t = Blocks.
Proof. intros H. unfold Finalize, Lock. rewrite H. reflexivity. Qed.

Lemma wellformed_finalized (t : FixedMerkleTree) :
  wellformed t -> wellformed (finalized t).
Proof.
  intros [Hl Hb Hc Hk]. split; unfold finalized; osimpl; try assumption.
  - rewrite length_feed. exact Hl.
  - reflexivity.
Qed.

Lemma Finalize_preserves (t t' : FixedMerkleTree) e :
  wellformed t -> Finalize t = Returns (t', e) ->
  wellformed t' /\ isFinal t' = true /\ merkleRoot t' = merkleRoot t
  /\ writeCount t' = writeCount t
  /\ (e = None \/ e = Some (errors_New "already finalized")).
Proof.
  intros Hwf Hrun. destruct (isFinal t) eqn:Hfin.
  - destruct (writeLock t) eqn:Hlock.
    + rewrite Finalize_blocks in Hrun by assumption. discriminate.
    + rewrite Finalize_again in Hrun by assumption.
      injection Hrun as <- <-. split; [|osimpl; auto].
      destruct Hwf. split; osimpl; auto.
  - rewrite Finalize_spec in Hrun by assumption.
    injection Hrun as <- <-.
    split; [apply wellformed_finalized; assumption|].
    unfold finalized; osimpl; auto.
Qed.

(** ** The fold of the leaf digests *)

Section Fold.

Variable sha3_256 : bytes -> bytes.
Variable MHashBytes : bytes -> bytes -> bytes.

Lemma length_pairs (q : nat) :
  forall level : list bytes,
    length level = (2 * q)%nat -> length (pairs MHashBytes level) = q.
Proof.
  induction q as [|q IH]; intros level H.
  - destruct level; [reflexivity|discriminate].
  - destruct level as [|a [|b rest]]; cbn [length] in H; try lia.
    cbn [pairs length]. rewrite IH by lia. reflexivity.
Qed.

Lemma pair_loop_pairs (q : nat) :
  forall (post pre out : list bytes) (fuel : nat),
    length post = (2 * q)%nat -> (q <= fuel)%nat ->
    pair_loop MHashBytes fuel (pre ++ post) (out ++ replicate q [])
      (Z.of_nat (length pre)) (Z.of_nat (length out))
    = Returns (out ++ pairs MHashBytes post).
Proof.
  induction q as [|q IH]; intros post pre out fuel Hlen Hfuel.
  - destruct post; [|discriminate]. rewrite !app_nil_r.
    destruct fuel; cbn [pair_loop];
      (destruct (Z.ltb_spec (Z.of_nat (length pre)) (len pre));
       [unfold len in *; lia|]); reflexivity.
  - destruct post as [|a [|b rest]]; cbn [length] in Hlen; try lia.
    destruct fuel as [|fuel]; [lia|]. cbn [pair_loop].
    destruct (Z.ltb_spec (Z.of_nat (length pre)) (len (pre ++ a :: b :: rest)))
      as [_|Hge]; [|rewrite len_app in Hge; unfold len in Hge; cbn [length] in Hge; lia].
    rewrite (index_in_bounds _ _ a) by (apply list_lookup_middle; reflexivity).
    osimpl.
    replace (Z.of_nat (length pre) + 1) with (Z.of_nat (length (pre ++ [a])))
      by (rewrite length_app; cbn [length]; lia).
    replace (pre ++ a :: b :: rest) with ((pre ++ [a]) ++ b :: rest)
      by (rewrite <- app_assoc; reflexivity).
    rewrite (index_in_bounds _ _ b) by (apply list_lookup_middle; reflexivity).
    osimpl.
    rewrite store_in_bounds
      by (rewrite length_app, length_replicate; lia).
    osimpl.
    replace (length out) with (length out + 0)%nat at 1 by lia.
    rewrite insert_app_r. cbn [replicate].
    cbn [insert list_insert].
    replace (out ++ MHashBytes a b :: replicate q [])
      with ((out ++ [MHashBytes a b]) ++ replicate q [])
      by (rewrite <- app_assoc; reflexivity).
    replace ((pre ++ [a]) ++ b :: rest) with ((pre ++ [a; b]) ++ rest)
      by (rewrite <- !app_assoc; reflexivity).
    replace (Z.of_nat (length pre) + 2) with (Z.of_nat (length (pre ++ [a; b])))
      by (rewrite length_app; cbn [length]; lia).
    replace (Z.of_nat (length out) + 1)
      with (Z.of_nat (length (out ++ [MHashBytes a b])))
      by (rewrite length_app; cbn [length]; lia).
    rewrite IH by lia.
    cbn [pairs]. rewrite <- app_assoc. reflexivity.
Qed.

(** One round over a level of even length: no padding, the level is
    halved. *)
Lemma round_even (q : nat) (st : fold_state) (remaining : nat) :
  length (nodes st) = (2 * q)%nat ->
  CalculateMerkleRoot_loop MHashBytes (S remaining) st
  = let st' := {| nodes := pairs MHashBytes (nodes st);
                  rounds := S (rounds st);
                  padded := padded st |} in
    if len (pairs MHashBytes (nodes st)) =? 1 then Returns st'
    else CalculateMerkleRoot_loop MHashBytes remaining st'.
Proof.
  intros Hlen. cbn [CalculateMerkleRoot_loop].
  assert (Hodd : (Z.land (len (nodes st)) 1 =? 1) = false).
  { change 1 with (Z.ones 1) at 1. rewrite Z.land_ones by lia.
    unfold len. rewrite Hlen. apply Z.eqb_neq.
    replace (Z.of_nat (2 * q)) with (Z.of_nat q * 2) by lia.
    rewrite Z.pow_1_r, Z.mod_mul by lia. lia. }
  rewrite Hodd. osimpl.
  replace (Z.to_nat ((len (nodes st) + 1) / 2)) with q.
  2:{ unfold len. rewrite Hlen.
      replace (Z.of_nat (2 * q) + 1) with (1 + Z.of_nat q * 2) by lia.
      rewrite Z.div_add by lia. change (1 / 2) with 0. lia. }
  pose proof (pair_loop_pairs q (nodes st) [] [] (length (nodes st))) as H.
  cbn [app length] in H. change (Z.of_nat 0) with 0 in H.
  rewrite H by lia. osimpl. rewrite orb_false_r. reflexivity.
Qed.

Lemma fold_pow2 (k : nat) :
  forall (remaining : nat) (st : fold_state),
    length (nodes st) = (2 ^ S k)%nat -> (k < remaining)%nat ->
    CalculateMerkleRoot_loop MHashBytes remaining st
    = Returns {| nodes := fold_levels MHashBytes (S k) (nodes st);
                 rounds := rounds st + S k;
                 padded := padded st |}
    /\ length (fold_levels MHashBytes (S k) (nodes st)) = 1%nat.
Proof.
  induction k as [|k IH]; intros remaining st Hlen Hrem;
    (destruct remaining as [|remaining]; [lia|]).
  - rewrite (round_even 1) by exact Hlen. cbn zeta.
    assert (Hp : length (pairs MHashBytes (nodes st)) = 1%nat)
      by (apply length_pairs; exact Hlen).
    unfold len. rewrite Hp. cbn [Z.of_nat Pos.of_succ_nat Z.eqb Pos.eqb].
    cbn [fold_levels]. split; [|exact Hp].
    do 2 f_equal. lia.
  - rewrite (round_even (2 ^ S k)) by (rewrite Hlen, Nat.pow_succ_r'; lia).
    cbn zeta.
    assert (Hp : length (pairs MHashBytes (nodes st)) = (2 ^ S k)%nat).
    { apply length_pairs. rewrite Hlen, Nat.pow_succ_r'. lia. }
    assert (Hne : (len (pairs MHashBytes (nodes st)) =? 1) = false).
    { apply Z.eqb_neq. unfold len. rewrite Hp, Nat.pow_succ_r'.
      pose proof (Nat.pow_nonzero 2 k). lia. }
    rewrite Hne.
    destruct (IH remaining
                {| nodes := pairs MHashBytes (nodes st); rounds := S (rounds st);
                   padded := padded st |}) as [Hrun Hone];
      cbn [nodes rounds padded]; [exact Hp|lia|].
    cbn [nodes rounds padded] in Hrun, Hone.
    rewrite Hrun. cbn [fold_levels]. split; [|exact Hone].
    do 2 f_equal. lia.
Qed.

Lemma CalculateMerkleRoot_fold_1024 (t : FixedMerkleTree) :
  length (Leaves t) = Z.to_nat FixedMerkleLeaves ->
  exists root : bytes,
    fold_levels MHashBytes 10 (map (GetHashBytes sha3_256) (Leaves t)) = [root]
    /\ CalculateMerkleRoot_fold sha3_256 MHashBytes t
       = Returns {| nodes := [root]; rounds := 10; padded := false |}
    /\ CalculateMerkleRoot sha3_256 MHashBytes t
       = Returns (set_merkleRoot (Some root) t).
Proof.
  intros Hlen.
  destruct (fold_pow2 9 (Z.to_nat FixedMTDepth)
              {| nodes := map (GetHashBytes sha3_256) (Leaves t);
                 rounds := 0; padded := false |}) as [Hrun Hone].
  - cbn [nodes]. rewrite length_map, Hlen. reflexivity.
  - consts. lia.
  - cbn [nodes rounds padded] in Hrun, Hone.
    destruct (fold_levels MHashBytes 10 (map (GetHashBytes sha3_256) (Leaves t)))
      as [|root [|]] eqn:E; try discriminate.
    exists root. split; [reflexivity|].
    unfold CalculateMerkleRoot, CalculateMerkleRoot_fold. rewrite Hrun.
    split; reflexivity.
Qed.

End Fold.

(** ** [GetMerkleRoot] *)

Section Root.

Variable sha3_256 : bytes -> bytes.
Variable MHashBytes : bytes -> bytes -> bytes.

Lemma CalculateMerkleRoot_spec (t : FixedMerkleTree) :
  length (Leaves t) = Z.to_nat FixedMerkleLeaves ->
  CalculateMerkleRoot sha3_256 MHashBytes t
  = Returns (set_merkleRoot (Some (root_of sha3_256 MHashBytes (Leaves t))) t).
Proof.
  intros Hlen.
  destruct (CalculateMerkleRoot_fold_1024 sha3_256 MHashBytes t Hlen)
    as (root & Hroot & _ & Hrun).
  rewrite Hrun. unfold root_of. rewrite Hroot. reflexivity.
Qed.

Lemma GetMerkleRoot_first (t : FixedMerkleTree) :
  length (Leaves t) = Z.to_nat FixedMerkleLeaves ->
  merkleRoot t = None ->
  GetMerkleRoot sha3_256 MHashBytes t
  = Returns (set_merkleRoot (Some (root_of sha3_256 MHashBytes (Leaves t))) t,
             EncodeToString (root_of sha3_256 MHashBytes (Leaves t))).
Proof.
  intros Hlen Hnil. unfold GetMerkleRoot. rewrite Hnil.
  rewrite CalculateMerkleRoot_spec by exact Hlen. reflexivity.
Qed.

Lemma GetMerkleRoot_cached (t : FixedMerkleTree) (root : bytes) :
  merkleRoot t = Some root ->
  GetMerkleRoot sha3_256 MHashBytes t = Returns (t, EncodeToString root).
Proof. intros H. unfold GetMerkleRoot. rewrite H. reflexivity. Qed.

Lemma GetMerkleRoot_preserves (t t' : FixedMerkleTree) (s : string) :
  wellformed t -> GetMerkleRoot sha3_256 MHashBytes t = Returns (t', s) ->
  wellformed t' /\ isFinal t' = isFinal t /\ writeCount t' = writeCount t
  /\ (forall root, merkleRoot t = Some root -> merkleRoot t' = Some root).
Proof.
  intros Hwf Hrun. destruct (merkleRoot t) as [root|] eqn:E.
  - rewrite (GetMerkleRoot_cached t root E) in Hrun.
    injection Hrun as <- <-. rewrite E. auto.
  - rewrite GetMerkleRoot_first in Hrun by (assumption || apply Hwf).
    injection Hrun as <- <-. destruct Hwf.
    split; [split; osimpl; assumption|]. osimpl. split; [reflexivity|].
    split; [reflexivity|]. intros root Hroot. discriminate.
Qed.

End Root.

(** ** [Reload] *)

Lemma absorbed_refl (t : FixedMerkleTree) : wellformed t -> absorbed t [] t.
Proof.
  intros [Hl Hb Hc _].
  assert (Hw : windows (Leaves t) (staged t ++ []) = (Leaves t, staged t)).
  { rewrite app_nil_r. apply windows_short. rewrite len_staged; lia. }
  split; rewrite ?Hw; cbn [fst snd]; try reflexivity.
  rewrite len_staged; lia.
Qed.

Lemma absorbed_trans (t t1 t2 : FixedMerkleTree) (a b : bytes) :
  absorbed t a t1 -> absorbed t1 b t2 -> absorbed t (a ++ b) t2.
Proof.
  intros [A1 A2 A3 A4 A5 A6 A7] [B1 B2 B3 B4 B5 B6 B7].
  rewrite A1, A2 in B1, B2, B3. rewrite windows_app, <- app_assoc in B1, B2, B3.
  split; congruence.
Qed.

Lemma CopyN_full (data : bytes) :
  MaxMerkleLeavesSize <= len data ->
  CopyN (bytes_NewReader data) MaxMerkleLeavesSize
  = (take (Z.to_nat MaxMerkleLeavesSize) data, MaxMerkleLeavesSize, None,
     bytes_NewReader (drop (Z.to_nat MaxMerkleLeavesSize) data)).
Proof.
  intros H. unfold CopyN, bytes_NewReader. cbn [content fault].
  destruct (Z.eqb_spec (len (take (Z.to_nat MaxMerkleLeavesSize) data))
                       MaxMerkleLeavesSize) as [_|Hne]; [reflexivity|].
  exfalso. apply Hne. unfold len in *. rewrite length_take. consts. lia.
Qed.

Lemma CopyN_short (data : bytes) :
  len data < MaxMerkleLeavesSize ->
  CopyN (bytes_NewReader data) MaxMerkleLeavesSize
  = (data, len data, Some io_EOF, bytes_NewReader []).
Proof.
  intros H. unfold CopyN, bytes_NewReader. cbn [content fault default].
  rewrite take_ge, drop_ge by (unfold len in *; lia).
  destruct (Z.eqb_spec (len data) MaxMerkleLeavesSize); [lia|reflexivity].
Qed.

Lemma Reload_loop_unfold (fuel : nat) (t : FixedMerkleTree) (bytesBuf : bytes)
    (reader : Reader) :
  Reload_loop (S fuel) t bytesBuf reader
  = let '(got, written, err, reader) := CopyN reader MaxMerkleLeavesSize in
    let bytesBuf := bytesBuf ++ got in
    if written >? 0 then
      '(t, (_, err)) ← Write t bytesBuf;
      match err with
      | Some e => Returns (t, Some e)
      | None => Reload_loop fuel t [] reader
      end
    else
      match err with
      | Some e => if is_EOF e then Returns (t, None) else Returns (t, Some e)
      | None => Reload_loop fuel t bytesBuf reader
      end.
Proof. reflexivity. Qed.

Lemma Reload_loop_end (fuel : nat) (t : FixedMerkleTree) :
  Reload_loop (S fuel) t [] (bytes_NewReader []) = Returns (t, None).
Proof.
  cbn [Reload_loop]. rewrite CopyN_short by (consts; cbn; lia).
  reflexivity.
Qed.

Lemma Reload_loop_spec (fuel : nat) :
  forall (data : bytes) (t : FixedMerkleTree),
    wellformed t -> isFinal t = false -> (length data < fuel)%nat ->
    exists t', Reload_loop fuel t [] (bytes_NewReader data) = Returns (t', None)
               /\ absorbed t data t' /\ wellformed t'.
Proof.
  induction fuel as [|fuel IH]; intros data t Hwf Hfin Hfuel; [lia|].
  cbn [Reload_loop].
  destruct (Z.leb_spec MaxMerkleLeavesSize (len data)) as [Hfull|Hshort].
  - rewrite CopyN_full by assumption. cbn [app].
    destruct (Z.gtb_spec MaxMerkleLeavesSize 0) as [_|]; [|consts; lia].
    destruct (Write_spec t (take (Z.to_nat MaxMerkleLeavesSize) data) Hwf Hfin)
      as (t1 & Hrun & Hab & Hwf1).
    rewrite Hrun. osimpl.
    destruct (IH (drop (Z.to_nat MaxMerkleLeavesSize) data) t1)
      as (t2 & Hrun2 & Hab2 & Hwf2); try assumption.
    + destruct Hab. congruence.
    + rewrite length_drop. consts. lia.
    + exists t2. split; [exact Hrun2|]. split; [|exact Hwf2].
      rewrite <- (take_drop (Z.to_nat MaxMerkleLeavesSize) data).
      eapply absorbed_trans; eassumption.
  - rewrite CopyN_short by assumption. cbn [app].
    destruct (Z.gtb_spec (len data) 0) as [Hpos|Hzero].
    + destruct (Write_spec t data Hwf Hfin) as (t1 & Hrun & Hab & Hwf1).
      rewrite Hrun. osimpl.
      destruct fuel as [|fuel]; [unfold len in *; lia|].
      rewrite Reload_loop_end. exists t1. auto.
    + cbn [is_EOF]. exists t. split; [reflexivity|].
      assert (data = []) as -> by (destruct data; [reflexivity|unfold len in *; cbn in *; lia]).
      split; [apply absorbed_refl|]; assumption.
Qed.

Lemma wellformed_initLeaves (t : FixedMerkleTree) :
  wellformed t -> wellformed (initLeaves t).
Proof.
  intros [Hl Hb Hc Hk]. split; unfold initLeaves; osimpl; try assumption.
  apply length_replicate.
Qed.

Lemma Reload_loop_preserves (fuel : nat) :
  forall (t t' : FixedMerkleTree) (buf : bytes) (reader : Reader) e,
    wellformed t -> Reload_loop fuel t buf reader = Returns (t', e) ->
    wellformed t' /\ isFinal t' = isFinal t /\ merkleRoot t' = merkleRoot t.
Proof.
  induction fuel as [|fuel IH]; intros t t' buf reader e Hwf Hrun;
    [discriminate|].
  rewrite Reload_loop_unfold in Hrun.
  destruct (CopyN reader MaxMerkleLeavesSize) as [[[got written] err] reader'].
  cbv beta iota zeta in Hrun.
  destruct (written >? 0).
  - destruct (Write t (buf ++ got)) as [[t1 [n werr]]| | |] eqn:Hw;
      cbn [mbind outcome_bind] in Hrun; try discriminate.
    destruct (Write_preserves _ _ _ _ Hwf Hw) as (Hwf1 & Hf1 & Hr1 & _).
    destruct werr as [e1|].
    + injection Hrun as <- <-. auto.
    + destruct (IH _ _ _ _ _ Hwf1 Hrun) as (Hwf2 & Hf2 & Hr2).
      split; [exact Hwf2|]. split; congruence.
  - destruct err as [e1|].
    + destruct (is_EOF e1); injection Hrun as <- <-; auto.
    + apply (IH _ _ _ _ _ Hwf Hrun).
Qed.

Lemma Reload_unfold (t : FixedMerkleTree) (reader : Reader) :
  Reload t reader
  = Reload_loop (S (length (content reader))) (initLeaves t) [] reader.
Proof. reflexivity. Qed.

Lemma Reload_preserves (t t' : FixedMerkleTree) (reader : Reader) e :
  wellformed t -> Reload t reader = Returns (t', e) ->
  wellformed t' /\ isFinal t' = isFinal t /\ merkleRoot t' = merkleRoot t.
Proof.
  intros Hwf Hrun. rewrite Reload_unfold in Hrun.
  destruct (Reload_loop_preserves _ _ _ _ _ _
              (wellformed_initLeaves t Hwf) Hrun) as (H1 & H2 & H3).
  split; [exact H1|]. split; [rewrite H2|rewrite H3]; reflexivity.
Qed.

(** ** Invariants along a sequence of calls *)

Section Runs.

Variable sha3_256 : bytes -> bytes.
Variable MHashBytes : bytes -> bytes -> bytes.

Lemma step_unfold (t : FixedMerkleTree) (c : call) :
  step sha3_256 MHashBytes t c
  = match c with
    | CallWrite b => '(t, _) ← Write t b; Returns t
    | CallFinalize => '(t, _) ← Finalize t; Returns t
    | CallGetMerkleRoot =>
        '(t, _) ← GetMerkleRoot sha3_256 MHashBytes t; Returns t
    | CallReload reader => '(t, _) ← Reload t reader; Returns t
    end.
Proof. reflexivity. Qed.

Lemma run_cons (c : call) (cs : list call) (t : FixedMerkleTree) :
  run sha3_256 MHashBytes (c :: cs) t
  = (t ← step sha3_256 MHashBytes t c; run sha3_256 MHashBytes cs t).
Proof. reflexivity. Qed.

Lemma step_preserves (t t' : FixedMerkleTree) (c : call) :
  wellformed t -> step sha3_256 MHashBytes t c = Returns t' ->
  wellformed t'
  /\ (isFinal t = true -> isFinal t' = true)
  /\ (forall root, merkleRoot t = Some root -> merkleRoot t' = Some root).
Proof.
  intros Hwf Hstep. rewrite step_unfold in Hstep.
  destruct c as [b| | |reader].
  - destruct (Write t b) as [[t1 r]| | |] eqn:E;
      try discriminate.
    injection Hstep as <-.
    destruct (Write_preserves _ _ _ _ Hwf E) as (H1 & H2 & H3 & _).
    split; [exact H1|]. split; congruence.
  - destruct (Finalize t) as [[t1 e]| | |] eqn:E;
      try discriminate.
    injection Hstep as <-.
    destruct (Finalize_preserves _ _ _ Hwf E) as (H1 & H2 & H3 & _).
    split; [exact H1|]. split; congruence.
  - destruct (GetMerkleRoot sha3_256 MHashBytes t) as [[t1 s]| | |] eqn:E;
      try discriminate.
    injection Hstep as <-.
    destruct (GetMerkleRoot_preserves _ _ _ _ _ Hwf E) as (H1 & H2 & _ & H4).
    split; [exact H1|]. split; [congruence|exact H4].
  - destruct (Reload t reader) as [[t1 e]| | |] eqn:E;
      try discriminate.
    injection Hstep as <-.
    destruct (Reload_preserves _ _ _ _ Hwf E) as (H1 & H2 & H3).
    split; [exact H1|]. split; congruence.
Qed.

Lemma run_preserves (cs : list call) :
  forall t t' : FixedMerkleTree,
    wellformed t -> run sha3_256 MHashBytes cs t = Returns t' ->
    wellformed t'
    /\ (isFinal t = true -> isFinal t' = true)
    /\ (forall root, merkleRoot t = Some root -> merkleRoot t' = Some root).
Proof.
  induction cs as [|c cs IH]; intros t t' Hwf Hrun.
  - injection Hrun as <-. auto.
  - rewrite run_cons in Hrun.
    destruct (step sha3_256 MHashBytes t c) as [t1| | |] eqn:E;
      try discriminate.
    destruct (step_preserves _ _ _ Hwf E) as (H1 & H2 & H3).
    destruct (IH _ _ H1 Hrun) as (I1 & I2 & I3).
    split; [exact I1|]. split; auto.
Qed.

Lemma run_wellformed (cs : list call) (t : FixedMerkleTree) :
  run sha3_256 MHashBytes cs NewFixedMerkleTree = Returns t -> wellformed t.
Proof.
  intros Hrun.
  apply (run_preserves cs _ _ wellformed_NewFixedMerkleTree Hrun).
Qed.

End Runs.

(** ** Calls return or block

    On a well-formed tree no call panics or exhausts the fuel of its
    loops: it returns, or it blocks on the mutex. *)

Lemma Write_total (t : FixedMerkleTree) (b : bytes) :
  wellformed t ->
  (exists t' r, Write t b = Returns (t', r)) \/ Write t b = Blocks.
Proof.
  intros Hwf. destruct (isFinal t) eqn:Hfin.
  - destruct (writeLock t) eqn:Hlock.
    + right. apply Write_blocks. exact Hlock.
    + left. rewrite Write_after_Finalize by assumption. eauto.
  - left. destruct (Write_spec t b Hwf Hfin) as (t' & H & _). eauto.
Qed.

Lemma Finalize_total (t : FixedMerkleTree) :
  wellformed t ->
  (exists t' e, Finalize t = Returns (t', e)) \/ Finalize t = Blocks.
Proof.
  intros Hwf. destruct (isFinal t) eqn:Hfin.
  - destruct (writeLock t) eqn:Hlock.
    + right. apply Finalize_blocks. exact Hlock.
    + left. rewrite Finalize_again by assumption. eauto.
  - left. rewrite Finalize_spec by assumption. eauto.
Qed.

Lemma CopyN_progress (reader : Reader) (n : Z) :
  0 < n ->
  let '(_, written, err, reader') := CopyN reader n in
  (written > 0 -> (length (content reader') < length (content reader))%nat)
  /\ (written <= 0 -> err <> None).
Proof.
  intros Hn. unfold CopyN.
  destruct (Z.eqb_spec (len (take (Z.to_nat n) (content reader))) n)
    as [Heq|Hne];
    cbn [content]; rewrite length_drop; unfold len in *;
    rewrite length_take in *; (split; [|try discriminate]); lia.
Qed.

Lemma Reload_loop_total (fuel : nat) :
  forall (t : FixedMerkleTree) (buf : bytes) (reader : Reader),
    wellformed t -> (length (content reader) < fuel)%nat ->
    (exists t' e, Reload_loop fuel t buf reader = Returns (t', e))
    \/ Reload_loop fuel t buf reader = Blocks.
Proof.
  induction fuel as [|fuel IH]; intros t buf reader Hwf Hfuel; [lia|].
  rewrite Reload_loop_unfold.
  pose proof (CopyN_progress reader MaxMerkleLeavesSize eq_refl) as Hcopy.
  destruct (CopyN reader MaxMerkleLeavesSize) as [[[got written] err] reader'].
  cbv beta iota zeta. destruct Hcopy as [Hpos Hzero].
  destruct (Z.gtb_spec written 0) as [Hw|Hw].
  - destruct (Write_total t (buf ++ got) Hwf) as [(t1 & [n werr] & H)|H];
      rewrite H; [|right; reflexivity].
    cbn [mbind outcome_bind].
    destruct (Write_preserves _ _ _ _ Hwf H) as (Hwf1 & _).
    destruct werr as [e|]; [left; eauto|].
    apply IH; [exact Hwf1|]. specialize (Hpos ltac:(lia)). lia.
  - destruct err as [e|]; [|exfalso; apply (Hzero Hw); reflexivity].
    left. destruct (is_EOF e); eauto.
Qed.

Lemma Reload_total (t : FixedMerkleTree) (reader : Reader) :
  wellformed t ->
  (exists t' e, Reload t reader = Returns (t', e)) \/ Reload t reader = Blocks.
Proof.
  intros Hwf. rewrite Reload_unfold.
  apply Reload_loop_total; [apply wellformed_initLeaves; exact Hwf|lia].
Qed.

Lemma step_total (sha3_256 : bytes -> bytes)
    (MHashBytes : bytes -> bytes -> bytes) (t : FixedMerkleTree) (c : call) :
  wellformed t ->
  (exists t', step sha3_256 MHashBytes t c = Returns t')
  \/ step sha3_256 MHashBytes t c = Blocks.
Proof.
  intros Hwf. rewrite step_unfold. destruct c as [b| | |reader].
  - destruct (Write_total t b Hwf) as [(t' & r & ->)| ->]; [left|right];
      eauto.
  - destruct (Finalize_total t Hwf) as [(t' & e & ->)| ->]; [left|right];
      eauto.
  - left. destruct (merkleRoot t) as [root|] eqn:Hroot.
    + rewrite (GetMerkleRoot_cached _ _ t root Hroot). eauto.
    + rewrite GetMerkleRoot_first by (apply Hwf || exact Hroot). eauto.
  - destruct (Reload_total t reader Hwf) as [(t' & e & ->)| ->]; [left|right];
      eauto.
Qed.

(** ** Writing a stream in segments *)

Lemma write_all_cons (b : bytes) (segs : list bytes) (t : FixedMerkleTree) :
  write_all (b :: segs) t = ('(t, _) ← Write t b; write_all segs t).
Proof. reflexivity. Qed.

Lemma write_all_spec (segs : list bytes) :
  forall t : FixedMerkleTree,
    wellformed t -> isFinal t = false ->
    exists t', write_all segs t = Returns t'
               /\ absorbed t (concat segs) t' /\ wellformed t'.
Proof.
  induction segs as [|b segs IH]; intros t Hwf Hfin.
  - exists t. split; [reflexivity|]. split; [apply absorbed_refl|]; assumption.
  - destruct (Write_spec t b Hwf Hfin) as (t1 & Hrun & Hab & Hwf1).
    destruct (IH t1 Hwf1) as (t2 & Hrun2 & Hab2 & Hwf2).
    { destruct Hab. congruence. }
    exists t2. rewrite write_all_cons, Hrun. split; [exact Hrun2|].
    split; [|exact Hwf2]. cbn [concat]. eapply absorbed_trans; eassumption.
Qed.

Lemma staged_NewFixedMerkleTree : staged NewFixedMerkleTree = [].
Proof. reflexivity. Qed.

Section Commit.

Variable sha3_256 : bytes -> bytes.
Variable MHashBytes : bytes -> bytes -> bytes.

Lemma commit_spec (segs : list bytes) :
  commit sha3_256 MHashBytes segs
  = Returns (None, EncodeToString
                     (root_of sha3_256 MHashBytes (stream_leaves (concat segs)))).
Proof.
  destruct (write_all_spec segs NewFixedMerkleTree
              wellformed_NewFixedMerkleTree eq_refl)
    as (t & Hrun & Hab & Hwf).
  destruct Hab as [A1 A2 A3 A4 A5 A6 A7].
  rewrite staged_NewFixedMerkleTree in A1, A2, A3. cbn [app] in A1, A2, A3.
  unfold commit. rewrite Hrun. osimpl.
  rewrite Finalize_spec by assumption. osimpl.
  rewrite GetMerkleRoot_first.
  - osimpl. unfold finalized. osimpl. rewrite A1, A2. reflexivity.
  - apply (wellformed_finalized t Hwf).
  - unfold finalized. osimpl. exact A7.
Qed.

End Commit.

(** * The claims *)

(** ** Determinism under splitting *)

(** C1: for every list of segments, writing them through successive
    [Write] calls on a fresh tree, finalizing and asking for the root
    returns what a single [Write] of their concatenation returns: no
    error from [Finalize] and the same root string.  The split offsets do
    not matter. *)
Theorem commit_split_invariant (sha3_256 : bytes -> bytes)
    (MHashBytes : bytes -> bytes -> bytes) (segs : list bytes) :
  commit sha3_256 MHashBytes segs = commit sha3_256 MHashBytes [concat segs]
  /\ exists root : string,
       commit sha3_256 MHashBytes segs = Returns (None, root).
Proof.
  rewrite !commit_spec. cbn [concat]. rewrite app_nil_r.
  split; [reflexivity|]. eexists. reflexivity.
Qed.

(** ** Verification of a path *)

Lemma bytes_Equal_eq (a b : bytes) : bytes_Equal a b = true <-> a = b.
Proof.
  revert b. induction a as [|x a IH]; intros [|y b]; cbn [bytes_Equal];
    try (split; [discriminate|discriminate]); [split; reflexivity|].
  rewrite andb_true_iff, IH. split.
  - intros [Hxy ->]. apply Byte.byte_dec_bl in Hxy. subst. reflexivity.
  - intros [= -> ->]. split; [apply Byte.byte_dec_lb|]; reflexivity.
Qed.

Lemma land_1_even (n : Z) : (Z.land n 1 =? 0) = Z.even n.
Proof.
  change 1 with (Z.ones 1). rewrite Z.land_ones by lia.
  rewrite Z.pow_1_r, Zmod_even. destruct (Z.even n); reflexivity.
Qed.

Section Paths.

Variable MHashBytes : bytes -> bytes -> bytes.

Lemma VerifyMerklePath_loop_replay (siblings : list bytes) :
  forall (idx : Z) (current : bytes),
    VerifyMerklePath_loop MHashBytes siblings idx current
    = replay MHashBytes siblings idx current.
Proof.
  induction siblings as [|s rest IH]; intros idx current; [reflexivity|].
  cbn [VerifyMerklePath_loop replay]. rewrite land_1_even. apply IH.
Qed.

(** A path of depth one whose sibling is the leaf digest itself is
    accepted at index 1 as well as at index 0. *)
Lemma VerifyMerklePath_twin (L : bytes) :
  VerifyMerklePath MHashBytes
    {| LeafHash := L; RootHash := MHashBytes L L; Nodes := [L]; LeafInd := 1 |}
  = true.
Proof.
  unfold VerifyMerklePath. cbn. apply bytes_Equal_eq. reflexivity.
Qed.

End Paths.

(** C2, as stated, at a path whose two leaves carry the same digest (two
    leaves that absorbed the same bytes): the path for leaf 0 is still
    accepted when the index is changed to 1. *)
Lemma VerifyMerklePath_index_swap_accepted :
  let L := GetHashBytes demo_sha3_256 getNewLeaf in
  VerifyMerklePath demo_MHashBytes
    {| LeafHash := L; RootHash := demo_MHashBytes L L;
       Nodes := [L]; LeafInd := 1 |} = true.
Proof. apply VerifyMerklePath_twin. Qed.

(** C2, amended: [VerifyMerklePath] replays the path from [LeafHash] and
    [LeafInd] (even index: [MHashBytes current sibling]; odd index:
    [MHashBytes sibling current]; then the index is halved) and accepts
    iff the result is [RootHash].  For the depth-1 path with root
    [MHashBytes L0 L1], leaf [L0] and sibling [L1], index 0 is accepted,
    and index 1 makes the check compare [MHashBytes L1 L0] with the root:
    it is rejected exactly when the two combinations differ. *)
Theorem VerifyMerklePath_spec (MHashBytes : bytes -> bytes -> bytes) :
  (forall fp : FixedMerklePath,
     VerifyMerklePath MHashBytes fp = true
     <-> replay MHashBytes (Nodes fp) (LeafInd fp) (LeafHash fp) = RootHash fp)
  /\ (forall L0 L1 : bytes,
        VerifyMerklePath MHashBytes
          {| LeafHash := L0; RootHash := MHashBytes L0 L1;
             Nodes := [L1]; LeafInd := 0 |} = true
        /\ VerifyMerklePath MHashBytes
             {| LeafHash := L0; RootHash := MHashBytes L0 L1;
                Nodes := [L1]; LeafInd := 1 |}
           = bytes_Equal (MHashBytes L1 L0) (MHashBytes L0 L1)
        /\ (VerifyMerklePath MHashBytes
              {| LeafHash := L0; RootHash := MHashBytes L0 L1;
                 Nodes := [L1]; LeafInd := 1 |} = false
            <-> MHashBytes L1 L0 <> MHashBytes L0 L1)).
Proof.
  split.
  - intros fp. unfold VerifyMerklePath.
    rewrite VerifyMerklePath_loop_replay. apply bytes_Equal_eq.
  - intros L0 L1. split; [|split].
    + unfold VerifyMerklePath. cbn. apply bytes_Equal_eq. reflexivity.
    + reflexivity.
    + unfold VerifyMerklePath. cbn.
      rewrite <- not_true_iff_false, bytes_Equal_eq. reflexivity.
Qed.

(** ** Finalizing more than once *)

(** C3, evaluated on a fresh tree: the first [Finalize] returns no error
    and a [Write] after it is refused; the second [Finalize] returns
    "already finalized" and keeps the mutex, so that the third [Finalize],
    and any [Write] after the second, never return. *)
Theorem Finalize_thrice_blocks :
  exists t1 t2 : FixedMerkleTree,
    Finalize NewFixedMerkleTree = Returns (t1, None)
    /\ (forall b : bytes,
          Write t1 b
          = Returns (t1, (0, Some (errors_New "cannot write. Tree is already finalized"))))
    /\ Finalize t1 = Returns (t2, Some (errors_New "already finalized"))
    /\ Finalize t2 = Blocks
    /\ (forall b : bytes, Write t2 b = Blocks).
Proof.
  exists (finalized NewFixedMerkleTree),
         (set_writeLock true (finalized NewFixedMerkleTree)).
  split; [apply Finalize_spec; [apply wellformed_NewFixedMerkleTree|reflexivity]|].
  split; [intros b; apply Write_after_Finalize; reflexivity|].
  split; [apply Finalize_again; reflexivity|].
  split; [apply Finalize_blocks; reflexivity|].
  intros b. apply Write_blocks. reflexivity.
Qed.

(** ** Short writes before [Finalize] *)

Lemma absorbed_not_final (t t' : FixedMerkleTree) (d : bytes) :
  absorbed t d t' -> isFinal t = false -> isFinal t' = false.
Proof. intros [] H. congruence. Qed.





(** ** Re-hydration *)

Lemma Reload_loop_reads (fuel : nat) :
  forall (data : bytes) (t : FixedMerkleTree),
    wellformed t -> isFinal t = false -> (length data < fuel)%nat ->
    Reload_loop fuel t [] (bytes_NewReader data)
    = (t' ← write_all (reads fuel data) t; Returns (t', None)).
Proof.
  induction fuel as [|fuel IH]; intros data t Hwf Hfin Hfuel; [lia|].
  rewrite Reload_loop_unfold. cbn [reads].
  destruct (Z.leb_spec MaxMerkleLeavesSize (len data)) as [Hfull|Hshort].
  - rewrite CopyN_full by assumption. cbn [app].
    destruct (Z.gtb_spec MaxMerkleLeavesSize 0) as [_|]; [|consts; lia].
    destruct (Z.gtb_spec (len data) 0) as [_|]; [|consts; lia].
    rewrite write_all_cons.
    destruct (Write_spec t (take (Z.to_nat MaxMerkleLeavesSize) data) Hwf Hfin)
      as (t1 & Hrun & Hab & Hwf1).
    rewrite Hrun. osimpl.
    apply IH; [exact Hwf1|exact (absorbed_not_final _ _ _ Hab Hfin)|].
    rewrite length_drop. consts. lia.
  - rewrite CopyN_short by assumption. cbn [app].
    destruct (Z.gtb_spec (len data) 0) as [Hpos|Hzero].
    + rewrite write_all_cons, take_ge by (unfold len in *; lia).
      destruct (Write_spec t data Hwf Hfin) as (t1 & Hrun & Hab & Hwf1).
      rewrite Hrun. osimpl.
      destruct fuel as [|fuel]; [unfold len in *; lia|].
      rewrite Reload_loop_end, drop_ge by (unfold len in *; lia).
      reflexivity.
    + reflexivity.
Qed.

Lemma Reload_spec (t : FixedMerkleTree) (data : bytes) :
  wellformed t -> isFinal t = false ->
  exists t', Reload t (bytes_NewReader data) = Returns (t', None)
             /\ write_all (reads (S (length data)) data) (initLeaves t)
                = Returns t'
             /\ absorbed (initLeaves t) data t' /\ wellformed t'.
Proof.
  intros Hwf Hfin. rewrite Reload_unfold.
  pose proof (wellformed_initLeaves t Hwf) as Hwf0.
  destruct (Reload_loop_spec (S (length data)) data (initLeaves t))
    as (t' & Hrun & Hab & Hwf'); [exact Hwf0|exact Hfin|lia|].
  exists t'. cbn [content bytes_NewReader].
  split; [exact Hrun|]. split; [|split; assumption].
  rewrite Reload_loop_reads in Hrun by (assumption || lia).
  destruct (write_all _ _) as [t1| | |]; try discriminate.
  injection Hrun as ->. reflexivity.
Qed.

Lemma windows_one (ls : list leaf) (data : bytes) :
  len data = MaxMerkleLeavesSize -> windows ls data = (feed ls data, []).
Proof.
  intros H. rewrite windows_full by lia.
  rewrite take_ge, drop_ge by (unfold len in *; lia).
  apply windows_short. consts. cbn. lia.
Qed.

Lemma Leaves_initLeaves (t : FixedMerkleTree) :
  Leaves (initLeaves t) = Leaves NewFixedMerkleTree.
Proof. reflexivity. Qed.

Lemma staged_initLeaves (t : FixedMerkleTree) : staged (initLeaves t) = staged t.
Proof. reflexivity. Qed.

Lemma fresh_leaf_0 : Leaves NewFixedMerkleTree !! 0%nat = Some getNewLeaf.
Proof.
  unfold NewFixedMerkleTree, initLeaves. osimpl.
  apply lookup_replicate_2. consts. lia.
Qed.

(** C5, as stated, on two used trees.  A finalized tree: [Reload] returns
    the error of [Write].  A tree that holds one staged byte: after
    [Reload] from 65536 zero bytes its first leaf absorbed that byte and
    63 zeros, where the first leaf of a fresh tree fed the same 65536
    bytes absorbed 64 zeros. *)
Lemma Reload_used_tree_differs :
  ('(t, _) ← Finalize NewFixedMerkleTree;
   '(_, err) ← Reload t (bytes_NewReader [x01]);
   Returns err)
  = Returns (Some (errors_New "cannot write. Tree is already finalized"))
  /\ ('(t, _) ← Write NewFixedMerkleTree [x01];
      '(t, err) ← Reload t (bytes_NewReader (replicate (Z.to_nat 65536) x00));
      Returns (err, h <$> Leaves t !! 0%nat))
     = Returns (None, Some (x01 :: replicate 63 x00))
  /\ ('(t, _) ← Write NewFixedMerkleTree (replicate (Z.to_nat 65536) x00);
      Returns (h <$> Leaves t !! 0%nat))
     = Returns (Some (replicate 64 x00)).
Proof.
  assert (Hz : len (replicate (Z.to_nat 65536) x00) = MaxMerkleLeavesSize).
  { unfold len. rewrite length_replicate. consts. lia. }
  split; [|split].
  - rewrite Finalize_spec by (apply wellformed_NewFixedMerkleTree || reflexivity).
    osimpl. rewrite Reload_unfold.
    cbn [content bytes_NewReader length].
    rewrite Reload_loop_unfold, CopyN_short by (consts; cbn; lia).
    cbn [app]. change (len [x01] >? 0) with true. cbv iota beta.
    rewrite Write_after_Finalize by reflexivity. reflexivity.
  - destruct (Write_spec NewFixedMerkleTree [x01]
                wellformed_NewFixedMerkleTree eq_refl)
      as (t1 & H1 & Hab1 & Hwf1).
    pose proof (absorbed_not_final _ _ _ Hab1 eq_refl) as Hf1.
    destruct Hab1 as [_ A2 _ _ _ _ _].
    rewrite staged_NewFixedMerkleTree, windows_short in A2
      by (consts; cbn; lia).
    cbn [app snd] in A2.
    destruct (Reload_spec t1 (replicate (Z.to_nat 65536) x00) Hwf1 Hf1)
      as (t2 & H2 & _ & [B1 _ _ _ _ _ _] & _).
    rewrite H1. osimpl. rewrite H2. osimpl.
    rewrite staged_initLeaves, A2, Leaves_initLeaves in B1.
    assert (Hs : windows (Leaves NewFixedMerkleTree)
                   ([x01] ++ replicate (Z.to_nat 65536) x00)
                 = windows (feed (Leaves NewFixedMerkleTree)
                              ([x01] ++ take (Z.to_nat 65535)
                                          (replicate (Z.to_nat 65536) x00)))
                           (drop (Z.to_nat 65535)
                              (replicate (Z.to_nat 65536) x00))).
    { apply windows_split.
      - change (length [x01]) with 1%nat. consts. lia.
      - rewrite length_replicate. lia. }
    rewrite Hs in B1.
    rewrite windows_short in B1.
    2:{ unfold len. rewrite length_drop, length_replicate. consts. lia. }
    cbn [fst] in B1. rewrite B1, feed_lookup, fresh_leaf_0.
    cbn [fmap option_fmap option_map]. unfold chunk, leaf_Write.
    cbn [h app]. rewrite Nat.mul_0_r, drop_0.
    change (Z.to_nat MerkleChunkSize) with 64%nat.
    cbn [take app]. rewrite take_take, take_replicate.
    replace ((63 `min` Z.to_nat 65535) `min` Z.to_nat 65536)%nat with 63%nat
      by lia.
    reflexivity.
  - destruct (Write_spec NewFixedMerkleTree (replicate (Z.to_nat 65536) x00)
                wellformed_NewFixedMerkleTree eq_refl)
      as (t1 & H1 & [A1 _ _ _ _ _ _] & _).
    rewrite H1. osimpl.
    rewrite staged_NewFixedMerkleTree in A1. cbn [app] in A1.
    rewrite windows_one in A1 by exact Hz. cbn [fst] in A1.
    rewrite A1, feed_lookup, fresh_leaf_0.
    cbn [fmap option_fmap option_map]. unfold chunk, leaf_Write.
    cbn [h app]. rewrite Nat.mul_0_r, drop_0, take_replicate.
    replace (Z.to_nat MerkleChunkSize `min` Z.to_nat 65536)%nat with 64%nat
      by (consts; lia).
    reflexivity.
Qed.

(** C5, amended: for a tree reached by any calls that is not finalized
    and holds no staged byte, and any finite source, [Reload] resets the
    leaves, feeds the successive reads of at most 65536 bytes through
    [Write] and returns no error; afterwards the leaf digests are those
    of a fresh tree that was written the same bytes.  And a fresh tree
    re-hydrated from 65536 zero bytes has the root of a tree that was
    written these bytes and finalized. *)
Theorem Reload_unstaged_tree (sha3_256 : bytes -> bytes)
    (MHashBytes : bytes -> bytes -> bytes)
    (cs : list call) (t : FixedMerkleTree) (data : bytes) :
  run sha3_256 MHashBytes cs NewFixedMerkleTree = Returns t ->
  isFinal t = false ->
  writeCount t = 0 ->
  (exists t' tw : FixedMerkleTree,
     Reload t (bytes_NewReader data) = Returns (t', None)
     /\ write_all (reads (S (length data)) data) (initLeaves t) = Returns t'
     /\ Write NewFixedMerkleTree data = Returns (tw, (len data, None))
     /\ map (GetHashBytes sha3_256) (Leaves t')
        = map (GetHashBytes sha3_256) (Leaves tw))
  /\ (exists root : string,
        ('(t, _) ← Reload NewFixedMerkleTree
                     (bytes_NewReader (replicate (Z.to_nat 65536) x00));
         '(_, root) ← GetMerkleRoot sha3_256 MHashBytes t;
         Returns root) = Returns root
        /\ commit sha3_256 MHashBytes [replicate (Z.to_nat 65536) x00]
           = Returns (None, root)).
Proof.
  intros Hrun Hfin Hcount.
  pose proof (run_wellformed _ _ _ _ Hrun) as Hwf. split.
  - destruct (Reload_spec t data Hwf Hfin) as (t' & H1 & H2 & [A1 _ _ _ _ _ _] & _).
    destruct (Write_spec NewFixedMerkleTree data wellformed_NewFixedMerkleTree eq_refl)
      as (tw & H3 & [B1 _ _ _ _ _ _] & _).
    exists t', tw. split; [exact H1|]. split; [exact H2|]. split; [exact H3|].
    rewrite A1, B1, Leaves_initLeaves, staged_initLeaves.
    unfold staged at 1. rewrite Hcount. reflexivity.
  - assert (Hz : len (replicate (Z.to_nat 65536) x00) = MaxMerkleLeavesSize).
    { unfold len. rewrite length_replicate. consts. lia. }
    destruct (Reload_spec NewFixedMerkleTree (replicate (Z.to_nat 65536) x00)
                wellformed_NewFixedMerkleTree eq_refl)
      as (t' & H1 & _ & [A1 _ _ _ _ _ A7] & Hwf').
    rewrite H1. osimpl.
    rewrite GetMerkleRoot_first by (apply Hwf' || exact A7). osimpl.
    eexists. split; [reflexivity|].
    rewrite commit_spec. cbn [concat]. rewrite app_nil_r.
    unfold stream_leaves. rewrite A1, Leaves_initLeaves, staged_initLeaves.
    rewrite staged_NewFixedMerkleTree. cbn [app].
    rewrite windows_one by exact Hz. cbn [fst snd]. rewrite feed_nil.
    reflexivity.
Qed.

Lemma Reload_unstaged_tree_witness :
  (exists t' tw : FixedMerkleTree,
     Reload NewFixedMerkleTree (bytes_NewReader [x01; x02])
     = Returns (t', None)
     /\ write_all (reads 3 [x01; x02]) (initLeaves NewFixedMerkleTree)
        = Returns t'
     /\ Write NewFixedMerkleTree [x01; x02] = Returns (tw, (2, None))
     /\ map (GetHashBytes demo_sha3_256) (Leaves t')
        = map (GetHashBytes demo_sha3_256) (Leaves tw))
  /\ (exists root : string,
        ('(t, _) ← Reload NewFixedMerkleTree
                     (bytes_NewReader (replicate (Z.to_nat 65536) x00));
         '(_, root) ← GetMerkleRoot demo_sha3_256 demo_MHashBytes t;
         Returns root) = Returns root
        /\ commit demo_sha3_256 demo_MHashBytes [replicate (Z.to_nat 65536) x00]
           = Returns (None, root)).
Proof.
  apply (Reload_unstaged_tree demo_sha3_256 demo_MHashBytes []
           NewFixedMerkleTree [x01; x02]); reflexivity.
Defined.

(** ** Windows, chunks and leaves *)

Lemma chunk_S (k : nat) (w : bytes) :
  chunk (S k) w = chunk k (drop (Z.to_nat MerkleChunkSize) w).
Proof.
  unfold chunk. rewrite drop_drop. do 2 f_equal. lia.
Qed.

Lemma length_chunk (k : nat) (w : bytes) :
  length (chunk k w)
  = Nat.min (Z.to_nat MerkleChunkSize)
            (length w - Z.to_nat MerkleChunkSize * k).
Proof. unfold chunk. rewrite length_take, length_drop. reflexivity. Qed.

Lemma concat_chunks (n : nat) :
  forall w : bytes,
    (length w <= Z.to_nat MerkleChunkSize * n)%nat ->
    concat (map (fun k => chunk k w) (seq 0 n)) = w.
Proof.
  induction n as [|n IH]; intros w Hlen.
  - destruct w; [reflexivity|cbn in Hlen; lia].
  - cbn [seq map concat]. rewrite <- seq_shift, map_map.
    erewrite map_ext by (intros k; apply chunk_S).
    rewrite IH by (rewrite length_drop; lia).
    unfold chunk. rewrite Nat.mul_0_r, drop_0. apply take_drop.
Qed.

Lemma dispatch_all_cons (w : bytes) (ws : list bytes) (t : FixedMerkleTree) :
  dispatch_all (w :: ws) t
  = ('(t, err) ← writeToLeaves t w;
     match err with
     | Some e => Returns (t, Some e)
     | None => dispatch_all ws t
     end).
Proof. reflexivity. Qed.

Lemma dispatch_all_leaves (ws : list bytes) :
  forall t : FixedMerkleTree,
    length (Leaves t) = Z.to_nat FixedMerkleLeaves ->
    Forall (window_ok (isFinal t)) ws ->
    exists t', dispatch_all ws t = Returns (t', None)
               /\ forall (i : nat) (l : leaf),
                    Leaves t !! i = Some l ->
                    Leaves t' !! i
                    = Some {| h := h l ++ concat (map (chunk i) ws) |}.
Proof.
  induction ws as [|w ws IH]; intros t Hlen Hok.
  - exists t. split; [reflexivity|]. intros i [hl] Hi. cbn [map concat h].
    rewrite app_nil_r. exact Hi.
  - inversion Hok as [|w' ws' [Hmax Hfull] Hok']; subst.
    rewrite dispatch_all_cons, writeToLeaves_dispatch;
      [|exact Hmax|exact Hfull|rewrite Hlen; unfold len in *; consts; lia].
    osimpl.
    destruct (IH (set_Leaves (feed (Leaves t) w) t)) as (t' & Hrun & Hleaf);
      osimpl; [rewrite length_feed; exact Hlen|exact Hok'|].
    exists t'. split; [exact Hrun|]. intros i l Hi.
    rewrite (Hleaf i (leaf_Write l (chunk i w)))
      by (rewrite feed_lookup, Hi; reflexivity).
    unfold leaf_Write. cbn [h map concat]. rewrite app_assoc. reflexivity.
Qed.

(** C6: a window that [writeToLeaves] accepts is cut into consecutive
    chunks of 64 bytes, the last one shorter when the length is not a
    multiple of 64, and chunk [i] is appended to what leaf [i] absorbed;
    so after any sequence of dispatched windows on fresh leaves, the
    digest of leaf [i] is the hash of the concatenation, in arrival
    order, of the chunks of position [i] of all the windows. *)
Theorem dispatch_chunks_to_leaves (sha3_256 : bytes -> bytes)
    (t : FixedMerkleTree) (w : bytes) (ws : list bytes) :
  Leaves t = Leaves NewFixedMerkleTree ->
  window_ok (isFinal t) w ->
  Forall (window_ok (isFinal t)) ws ->
  (* one window *)
  (concat (map (fun k => chunk k w) (seq 0 (Z.to_nat FixedMerkleLeaves))) = w
   /\ (forall k : nat,
         length (chunk k w)
         = Nat.min 64 (length w - 64 * k))
   /\ exists t1 : FixedMerkleTree,
        writeToLeaves t w = Returns (t1, None)
        /\ forall (i : nat) (l : leaf),
             Leaves t !! i = Some l ->
             Leaves t1 !! i = Some (leaf_Write l (chunk i w)))
  (* a sequence of windows *)
  /\ exists t' : FixedMerkleTree,
       dispatch_all ws t = Returns (t', None)
       /\ forall i : nat,
            (i < Z.to_nat FixedMerkleLeaves)%nat ->
            GetHashBytes sha3_256 <$> Leaves t' !! i
            = Some (sha3_256 (concat (map (chunk i) ws))).
Proof.
  intros Hfresh [Hmax Hfull] Hok.
  assert (Hlen : length (Leaves t) = Z.to_nat FixedMerkleLeaves).
  { rewrite Hfresh. apply wellformed_NewFixedMerkleTree. }
  split; [split; [|split]|].
  - apply concat_chunks. unfold len in *. consts. lia.
  - intros k. apply length_chunk.
  - exists (set_Leaves (feed (Leaves t) w) t). split.
    + apply writeToLeaves_dispatch;
        [exact Hmax|exact Hfull|rewrite Hlen; unfold len in *; consts; lia].
    + intros i l Hi. osimpl. rewrite feed_lookup, Hi. reflexivity.
  - destruct (dispatch_all_leaves ws t Hlen Hok) as (t' & Hrun & Hleaf).
    exists t'. split; [exact Hrun|]. intros i Hi.
    rewrite (Hleaf i getNewLeaf).
    + reflexivity.
    + rewrite Hfresh. unfold NewFixedMerkleTree, initLeaves. osimpl.
      apply lookup_replicate_2. exact Hi.
Qed.

Lemma dispatch_chunks_to_leaves_witness :
  let t := set_isFinal true NewFixedMerkleTree in
  let w := [x01; x02; x03] in
  let ws := [[x01; x02]; [x03]] in
  (concat (map (fun k => chunk k w) (seq 0 (Z.to_nat FixedMerkleLeaves))) = w
   /\ (forall k : nat,
         length (chunk k w)
         = Nat.min 64 (length w - 64 * k))
   /\ exists t1 : FixedMerkleTree,
        writeToLeaves t w = Returns (t1, None)
        /\ forall (i : nat) (l : leaf),
             Leaves t !! i = Some l ->
             Leaves t1 !! i = Some (leaf_Write l (chunk i w)))
  /\ exists t' : FixedMerkleTree,
       dispatch_all ws t = Returns (t', None)
       /\ forall i : nat,
            (i < Z.to_nat FixedMerkleLeaves)%nat ->
            GetHashBytes demo_sha3_256 <$> Leaves t' !! i
            = Some (demo_sha3_256 (concat (map (chunk i) ws))).
Proof.
  apply (dispatch_chunks_to_leaves demo_sha3_256
           (set_isFinal true NewFixedMerkleTree) [x01; x02; x03]
           [[x01; x02]; [x03]]).
  - reflexivity.
  - split; [vm_compute; discriminate|right; reflexivity].
  - repeat constructor; vm_compute; discriminate.
Defined.

(** ** The fold over 1024 leaves *)

Lemma length_fold_levels (MHashBytes : bytes -> bytes -> bytes) (k : nat) :
  forall (j : nat) (level : list bytes),
    length level = (2 ^ (k + j))%nat ->
    length (fold_levels MHashBytes k level) = (2 ^ j)%nat.
Proof.
  induction k as [|k IH]; intros j level Hlen; [exact Hlen|].
  cbn [fold_levels]. apply IH. apply length_pairs.
  rewrite Hlen. cbn [Nat.add]. rewrite Nat.pow_succ_r'. reflexivity.
Qed.

(** C7: on 1024 leaves, the loop of [CalculateMerkleRoot], bounded by
    [FixedMTDepth] = 11 iterations, runs exactly 10 rounds: after 9 rounds
    two nodes are left, after the 10th a single one, where the loop stops
    and which becomes the root; the branch that duplicates the last node
    of a level of odd length is never taken. *)
Theorem CalculateMerkleRoot_ten_rounds (sha3_256 : bytes -> bytes)
    (MHashBytes : bytes -> bytes -> bytes) (t : FixedMerkleTree) :
  length (Leaves t) = Z.to_nat FixedMerkleLeaves ->
  FixedMTDepth = 11
  /\ length (fold_levels MHashBytes 9 (map (GetHashBytes sha3_256) (Leaves t)))
     = 2%nat
  /\ exists root : bytes,
       fold_levels MHashBytes 10 (map (GetHashBytes sha3_256) (Leaves t))
       = [root]
       /\ CalculateMerkleRoot_fold sha3_256 MHashBytes t
          = Returns {| nodes := [root]; rounds := 10; padded := false |}
       /\ CalculateMerkleRoot sha3_256 MHashBytes t
          = Returns (set_merkleRoot (Some root) t).
Proof.
  intros Hlen. split; [reflexivity|]. split.
  - apply (length_fold_levels MHashBytes 9 1).
    rewrite length_map, Hlen. reflexivity.
  - apply CalculateMerkleRoot_fold_1024. exact Hlen.
Qed.

Lemma CalculateMerkleRoot_ten_rounds_witness :
  FixedMTDepth = 11
  /\ length (fold_levels demo_MHashBytes 9
               (map (GetHashBytes demo_sha3_256) (Leaves NewFixedMerkleTree)))
     = 2%nat
  /\ exists root : bytes,
       fold_levels demo_MHashBytes 10
         (map (GetHashBytes demo_sha3_256) (Leaves NewFixedMerkleTree))
       = [root]
       /\ CalculateMerkleRoot_fold demo_sha3_256 demo_MHashBytes
            NewFixedMerkleTree
          = Returns {| nodes := [root]; rounds := 10; padded := false |}
       /\ CalculateMerkleRoot demo_sha3_256 demo_MHashBytes NewFixedMerkleTree
          = Returns (set_merkleRoot (Some root) NewFixedMerkleTree).
Proof.
  apply (CalculateMerkleRoot_ten_rounds demo_sha3_256 demo_MHashBytes
           NewFixedMerkleTree).
  reflexivity.
Defined.

(** ** The cached root *)



Section RootSize.

Variable sha3_256 : bytes -> bytes.
Variable MHashBytes : bytes -> bytes -> bytes.
Hypothesis MHashBytes_size : forall a b : bytes, length (MHashBytes a b) = 32%nat.






End RootSize.




(** ** Invariants of the tree *)

(** C9: after any sequence of calls that return, the number of staged
    bytes is in [0, 65536); and once the tree is finalized it stays so
    under any further calls. *)
Theorem writeCount_bounded_isFinal_monotone (sha3_256 : bytes -> bytes)
    (MHashBytes : bytes -> bytes -> bytes)
    (cs cs' : list call) (t t' : FixedMerkleTree) :
  run sha3_256 MHashBytes cs NewFixedMerkleTree = Returns t ->
  run sha3_256 MHashBytes cs' t = Returns t' ->
  0 <= writeCount t < MaxMerkleLeavesSize
  /\ 0 <= writeCount t' < MaxMerkleLeavesSize
  /\ (isFinal t = true -> isFinal t' = true).
Proof.
  intros Hrun Hrun'.
  pose proof (run_wellformed _ _ _ _ Hrun) as Hwf.
  destruct (run_preserves _ _ _ _ _ Hwf Hrun') as (Hwf' & Hfin & _).
  split; [apply Hwf|]. split; [apply Hwf'|exact Hfin].
Qed.

Lemma writeCount_bounded_isFinal_monotone_witness :
  let t := finalized NewFixedMerkleTree in
  0 <= writeCount t < MaxMerkleLeavesSize
  /\ 0 <= writeCount t < MaxMerkleLeavesSize
  /\ (isFinal t = true -> isFinal t = true).
Proof.
  apply (writeCount_bounded_isFinal_monotone demo_sha3_256 demo_MHashBytes
           [CallFinalize] [CallWrite [x01]]
           (finalized NewFixedMerkleTree) (finalized NewFixedMerkleTree)).
  - reflexivity.
  - reflexivity.
Defined.

(** ** The error branches of [writeToLeaves] *)

Lemma CopyN_cases (reader : Reader) (n : Z) :
  let '(_, _, err, reader') := CopyN reader n in
  fault reader' = fault reader
  /\ (err = None \/ err = Some (default io_EOF (fault reader))).
Proof.
  unfold CopyN. destruct (_ =? _); cbn [fault]; auto.
Qed.

Lemma Reload_loop_errors (fuel : nat) :
  forall (t t' : FixedMerkleTree) (buf : bytes) (reader : Reader) (e : error),
    wellformed t -> Reload_loop fuel t buf reader = Returns (t', Some e) ->
    e = ErrTreeFinalized \/ fault reader = Some e.
Proof.
  induction fuel as [|fuel IH]; intros t t' buf reader e Hwf Hrun;
    [discriminate|].
  rewrite Reload_loop_unfold in Hrun.
  pose proof (CopyN_cases reader MaxMerkleLeavesSize) as Hcopy.
  destruct (CopyN reader MaxMerkleLeavesSize) as [[[got written] err] reader'].
  cbv beta iota zeta in Hrun. destruct Hcopy as [Hfault Herr].
  destruct (written >? 0).
  - destruct (Write t (buf ++ got)) as [[t1 [n werr]]| | |] eqn:Hw;
      cbn [mbind outcome_bind] in Hrun; try discriminate.
    destruct (Write_preserves _ _ _ _ Hwf Hw) as (Hwf1 & _ & _ & Hr).
    destruct werr as [e1|].
    + injection Hrun as _ <-. left.
      destruct Hr as [Hr|Hr]; [discriminate|]. injection Hr as _ ->.
      reflexivity.
    + rewrite <- Hfault. apply (IH _ _ _ _ _ Hwf1 Hrun).
  - destruct err as [e1|].
    + destruct (is_EOF e1) eqn:Heof; [discriminate|].
      injection Hrun as _ <-. right.
      destruct Herr as [Herr|Herr]; [discriminate|]. injection Herr as ->.
      destruct (fault reader); [reflexivity|discriminate].
    + rewrite <- Hfault. apply (IH _ _ _ _ _ Hwf Hrun).
Qed.

(** C10: on a tree reached by any calls, neither error of
    [writeToLeaves] comes out of [Write], [Finalize] or [Reload]: while
    the tree is not finalized, [Write] returns the length of its input
    and no error; the only error of [Write] is "cannot write. Tree is
    already finalized", the only error of [Finalize] is "already
    finalized", and [Reload] returns the error of [Write] or the error of
    its source. *)
Theorem writeToLeaves_errors_unreachable (sha3_256 : bytes -> bytes)
    (MHashBytes : bytes -> bytes -> bytes)
    (cs : list call) (t : FixedMerkleTree) :
  run sha3_256 MHashBytes cs NewFixedMerkleTree = Returns t ->
  (isFinal t = false ->
   forall b : bytes,
     exists t' : FixedMerkleTree, Write t b = Returns (t', (len b, None)))
  /\ (forall (b : bytes) (t' : FixedMerkleTree) (n : Z) (e : error),
        Write t b = Returns (t', (n, Some e)) -> e = ErrTreeFinalized)
  /\ (forall (t' : FixedMerkleTree) (e : error),
        Finalize t = Returns (t', Some e) -> e = ErrAlreadyFinalized)
  /\ (forall (reader : Reader) (t' : FixedMerkleTree) (e : error),
        Reload t reader = Returns (t', Some e) ->
        e = ErrTreeFinalized \/ fault reader = Some e).
Proof.
  intros Hrun. pose proof (run_wellformed _ _ _ _ Hrun) as Hwf.
  split; [|split; [|split]].
  - intros Hfin b. destruct (Write_spec t b Hwf Hfin) as (t' & H & _).
    exists t'. exact H.
  - intros b t' n e H.
    destruct (Write_preserves _ _ _ _ Hwf H) as (_ & _ & _ & [Hr|Hr]);
      [discriminate|]. injection Hr as _ ->. reflexivity.
  - intros t' e H.
    destruct (Finalize_preserves _ _ _ Hwf H) as (_ & _ & _ & _ & [He|He]);
      [discriminate|]. injection He as ->. reflexivity.
  - intros reader t' e H. rewrite Reload_unfold in H.
    apply (Reload_loop_errors _ _ _ _ _ _ (wellformed_initLeaves t Hwf) H).
Qed.

Lemma writeToLeaves_errors_unreachable_witness :
  let t := NewFixedMerkleTree in
  (isFinal t = false ->
   forall b : bytes,
     exists t' : FixedMerkleTree, Write t b = Returns (t', (len b, None)))
  /\ (forall (b : bytes) (t' : FixedMerkleTree) (n : Z) (e : error),
        Write t b = Returns (t', (n, Some e)) -> e = ErrTreeFinalized)
  /\ (forall (t' : FixedMerkleTree) (e : error),
        Finalize t = Returns (t', Some e) -> e = ErrAlreadyFinalized)
  /\ (forall (reader : Reader) (t' : FixedMerkleTree) (e : error),
        Reload t reader = Returns (t', Some e) ->
        e = ErrTreeFinalized \/ fault reader = Some e).
Proof.
  apply (writeToLeaves_errors_unreachable demo_sha3_256 demo_MHashBytes []
           NewFixedMerkleTree).
  reflexivity.
Defined.

(** * Further properties *)

(** ** Paths that [VerifyMerklePath] accepts *)

Section PathProperties.

Variable sha3_256 : bytes -> bytes.
Variable MHashBytes : bytes -> bytes -> bytes.

Lemma pairs_lookup (j : nat) :
  forall (level : list bytes) (a b : bytes),
    level !! (2 * j)%nat = Some a -> level !! (2 * j + 1)%nat = Some b ->
    pairs MHashBytes level !! j = Some (MHashBytes a b).
Proof.
  induction j as [|j IH]; intros level a b Ha Hb.
  - destruct level as [|x [|y rest]]; try discriminate.
    cbn in Ha, Hb. injection Ha as ->. injection Hb as ->. reflexivity.
  - destruct level as [|x [|y rest]]; try discriminate.
    replace (2 * S j)%nat with (S (S (2 * j))) in Ha by lia.
    replace (2 * S j + 1)%nat with (S (S (2 * j + 1))) in Hb by lia.
    cbn [pairs]. rewrite lookup_cons. apply IH; assumption.
Qed.

Lemma quot_2_of_nat (i : nat) : Z.quot (Z.of_nat i) 2 = Z.of_nat (i / 2).
Proof. rewrite Z.quot_div_nonneg by lia. rewrite Nat2Z.inj_div. reflexivity. Qed.

Lemma even_of_nat (i : nat) : Z.even (Z.of_nat i) = Nat.even i.
Proof.
  destruct (Nat.even i) eqn:E.
  - apply Nat.even_spec in E as [j ->]. rewrite Nat2Z.inj_mul.
    rewrite Z.even_mul. reflexivity.
  - apply (f_equal negb) in E. rewrite Nat.negb_even in E. cbn in E.
    apply Nat.odd_spec in E as [j ->].
    rewrite Nat2Z.inj_add, Nat2Z.inj_mul, Z.even_add, Z.even_mul. reflexivity.
Qed.

Lemma merkle_path_replay (k : nat) :
  forall (level : list bytes) (i : nat),
    length level = (2 ^ k)%nat -> (i < 2 ^ k)%nat ->
    replay MHashBytes (merkle_path MHashBytes k level i) (Z.of_nat i)
      (default [] (level !! i))
    = default [] (head (fold_levels MHashBytes k level)).
Proof.
  induction k as [|k IH]; intros level i Hlen Hi.
  - destruct level as [|x [|]]; try discriminate.
    cbn in Hi. replace i with 0%nat by lia. reflexivity.
  - cbn [merkle_path replay fold_levels].
    rewrite quot_2_of_nat, even_of_nat.
    assert (Hp : length (pairs MHashBytes level) = (2 ^ k)%nat).
    { apply length_pairs. rewrite Hlen, Nat.pow_succ_r'. reflexivity. }
    rewrite Nat.pow_succ_r' in Hlen, Hi.
    assert (Hhalf : (i / 2 < 2 ^ k)%nat)
      by (apply Nat.Div0.div_lt_upper_bound; lia).
    rewrite <- (IH (pairs MHashBytes level) (i / 2)%nat Hp Hhalf).
    f_equal.
    destruct (lookup_lt_is_Some_2 level i) as [cur Hcur]; [lia|].
    rewrite Hcur. cbn [default]. unfold sibling.
    destruct (Nat.even i) eqn:E.
    + apply Nat.even_spec in E as [j ->].
      destruct (lookup_lt_is_Some_2 level (S (2 * j))) as [b Hb]; [lia|].
      rewrite Hb. cbn [default].
      replace (2 * j / 2)%nat with j by (rewrite Nat.mul_comm, Nat.div_mul; lia).
      rewrite (pairs_lookup j level cur b); [reflexivity|exact Hcur|].
      rewrite Nat.add_1_r. exact Hb.
    + apply (f_equal negb) in E. rewrite Nat.negb_even in E. cbn in E.
      apply Nat.odd_spec in E as [j ->].
      replace (Nat.pred (2 * j + 1)) with (2 * j)%nat by lia.
      destruct (lookup_lt_is_Some_2 level (2 * j)) as [a Ha]; [lia|].
      rewrite Ha. cbn [default].
      replace ((2 * j + 1) / 2)%nat with j.
      2:{ rewrite Nat.add_comm, Nat.mul_comm, Nat.div_add by lia. reflexivity. }
      rewrite (pairs_lookup j level a cur); [reflexivity|exact Ha|exact Hcur].
Qed.

Lemma length_merkle_path (k : nat) :
  forall (level : list bytes) (i : nat),
    length (merkle_path MHashBytes k level i) = k.
Proof.
  induction k as [|k IH]; intros level i; [reflexivity|].
  cbn [merkle_path length]. rewrite IH. reflexivity.
Qed.

End PathProperties.

(** X1: for every leaf index below 1024 there is a path of 10 siblings,
    read off the levels of the fold, that [VerifyMerklePath] accepts for
    the digest of that leaf against the root [CalculateMerkleRoot]
    stores. *)
Theorem VerifyMerklePath_accepts_merkle_path (sha3_256 : bytes -> bytes)
    (MHashBytes : bytes -> bytes -> bytes) (t : FixedMerkleTree) (i : nat) :
  length (Leaves t) = Z.to_nat FixedMerkleLeaves ->
  (i < Z.to_nat FixedMerkleLeaves)%nat ->
  exists (root : bytes) (l : leaf),
    CalculateMerkleRoot sha3_256 MHashBytes t
    = Returns (set_merkleRoot (Some root) t)
    /\ Leaves t !! i = Some l
    /\ length (merkle_path MHashBytes 10
                 (map (GetHashBytes sha3_256) (Leaves t)) i) = 10%nat
    /\ VerifyMerklePath MHashBytes
         {| LeafHash := GetHashBytes sha3_256 l;
            RootHash := root;
            Nodes := merkle_path MHashBytes 10
                       (map (GetHashBytes sha3_256) (Leaves t)) i;
            LeafInd := Z.of_nat i |} = true.
Proof.
  intros Hlen Hi.
  destruct (lookup_lt_is_Some_2 (Leaves t) i) as [l Hl]; [lia|].
  exists (root_of sha3_256 MHashBytes (Leaves t)), l.
  split; [apply CalculateMerkleRoot_spec; exact Hlen|].
  split; [exact Hl|]. split; [apply length_merkle_path|].
  unfold VerifyMerklePath. cbn [Nodes LeafInd LeafHash RootHash].
  rewrite VerifyMerklePath_loop_replay. apply bytes_Equal_eq.
  pose proof (merkle_path_replay MHashBytes 10
                (map (GetHashBytes sha3_256) (Leaves t)) i) as H.
  rewrite list_lookup_fmap, Hl in H. cbn [fmap option_fmap option_map default] in H.
  apply H.
  - rewrite length_map, Hlen. reflexivity.
  - replace (2 ^ 10)%nat with (Z.to_nat FixedMerkleLeaves) by reflexivity.
    exact Hi.
Qed.

Lemma VerifyMerklePath_accepts_merkle_path_witness :
  exists (root : bytes) (l : leaf),
    CalculateMerkleRoot demo_sha3_256 demo_MHashBytes NewFixedMerkleTree
    = Returns (set_merkleRoot (Some root) NewFixedMerkleTree)
    /\ Leaves NewFixedMerkleTree !! 5%nat = Some l
    /\ length (merkle_path demo_MHashBytes 10
                 (map (GetHashBytes demo_sha3_256) (Leaves NewFixedMerkleTree))
                 5) = 10%nat
    /\ VerifyMerklePath demo_MHashBytes
         {| LeafHash := GetHashBytes demo_sha3_256 l;
            RootHash := root;
            Nodes := merkle_path demo_MHashBytes 10
                       (map (GetHashBytes demo_sha3_256)
                          (Leaves NewFixedMerkleTree)) 5;
            LeafInd := Z.of_nat 5 |} = true.
Proof.
  apply (VerifyMerklePath_accepts_merkle_path demo_sha3_256 demo_MHashBytes
           NewFixedMerkleTree 5).
  - reflexivity.
  - vm_compute. lia.
Defined.

Section ReplayLaws.

Variable MHashBytes : bytes -> bytes -> bytes.

Lemma replay_app (a : list bytes) :
  forall (b : list bytes) (idx : Z) (current : bytes),
    replay MHashBytes (a ++ b) idx current
    = replay MHashBytes b (Z.quot idx (2 ^ len a))
        (replay MHashBytes a idx current).
Proof.
  induction a as [|s a IH]; intros b idx current.
  - cbn [app replay]. change (len []) with 0. rewrite Z.pow_0_r, Z.quot_1_r.
    reflexivity.
  - cbn [app replay]. rewrite IH. f_equal.
    replace (len (s :: a)) with (1 + len a)
      by (unfold len; cbn [length]; lia).
    rewrite Z.pow_add_r, Z.pow_1_r by (pose proof (len_nonneg a); lia).
    rewrite Z.quot_quot by (pose proof (len_nonneg a); lia). reflexivity.
Qed.

Lemma replay_shift (siblings : list bytes) :
  forall (idx j : Z) (current : bytes),
    0 <= idx -> 0 <= j ->
    replay MHashBytes siblings (idx + j * 2 ^ len siblings) current
    = replay MHashBytes siblings idx current.
Proof.
  induction siblings as [|s rest IH]; intros idx j current Hidx Hj;
    [reflexivity|].
  cbn [replay].
  replace (len (s :: rest)) with (1 + len rest)
    by (unfold len; cbn [length]; lia).
  pose proof (len_nonneg rest) as Hn.
  rewrite Z.pow_add_r, Z.pow_1_r by lia.
  assert (Hpow : 0 < 2 ^ len rest) by (apply Z.pow_pos_nonneg; lia).
  replace (idx + j * (2 * 2 ^ len rest))
    with (idx + 2 * (j * 2 ^ len rest)) by lia.
  rewrite Z.even_add_mul_2.
  rewrite !Z.quot_div_nonneg by nia.
  replace (idx + 2 * (j * 2 ^ len rest))
    with (idx + (j * 2 ^ len rest) * 2) by lia.
  rewrite Z.div_add by lia.
  apply IH; [apply Z.div_pos; lia|exact Hj].
Qed.

End ReplayLaws.

(** X2: [VerifyMerklePath] does not check that the index lies in the
    range of its path: for an index that is not negative, a path of [d]
    siblings that is accepted at index [i] is accepted at every index
    [i + j * 2^d], and one that is rejected at [i] is rejected there. *)
Theorem VerifyMerklePath_index_modulo (MHashBytes : bytes -> bytes -> bytes)
    (fp : FixedMerklePath) (j : Z) :
  0 <= LeafInd fp -> 0 <= j ->
  VerifyMerklePath MHashBytes
    {| LeafHash := LeafHash fp; RootHash := RootHash fp; Nodes := Nodes fp;
       LeafInd := LeafInd fp + j * 2 ^ len (Nodes fp) |}
  = VerifyMerklePath MHashBytes fp.
Proof.
  intros Hi Hj. unfold VerifyMerklePath. cbn [Nodes LeafInd LeafHash RootHash].
  rewrite !VerifyMerklePath_loop_replay, replay_shift by assumption.
  reflexivity.
Qed.

Lemma VerifyMerklePath_index_modulo_witness :
  let fp := {| LeafHash := [x01]; RootHash := [x02];
               Nodes := [[x03]; [x04]]; LeafInd := 1 |} in
  VerifyMerklePath demo_MHashBytes
    {| LeafHash := LeafHash fp; RootHash := RootHash fp; Nodes := Nodes fp;
       LeafInd := LeafInd fp + 3 * 2 ^ len (Nodes fp) |}
  = VerifyMerklePath demo_MHashBytes fp.
Proof.
  apply (VerifyMerklePath_index_modulo demo_MHashBytes
           {| LeafHash := [x01]; RootHash := [x02];
              Nodes := [[x03]; [x04]]; LeafInd := 1 |} 3); cbn; lia.
Defined.

(** X3: a path is verified level by level: checking the siblings
    [lower ++ upper] from a leaf is checking [upper] from the node the
    replay of [lower] reaches, at the index divided by [2^len lower]; with
    no sibling at all the check is the equality of leaf and root. *)
Theorem VerifyMerklePath_app (MHashBytes : bytes -> bytes -> bytes)
    (leafHash rootHash : bytes) (lower upper : list bytes) (idx : Z) :
  VerifyMerklePath MHashBytes
    {| LeafHash := leafHash; RootHash := rootHash;
       Nodes := lower ++ upper; LeafInd := idx |}
  = VerifyMerklePath MHashBytes
      {| LeafHash := VerifyMerklePath_loop MHashBytes lower idx leafHash;
         RootHash := rootHash; Nodes := upper;
         LeafInd := Z.quot idx (2 ^ len lower) |}
  /\ (VerifyMerklePath MHashBytes
        {| LeafHash := leafHash; RootHash := rootHash;
           Nodes := []; LeafInd := idx |} = true
      <-> leafHash = rootHash).
Proof.
  split.
  - unfold VerifyMerklePath. cbn [Nodes LeafInd LeafHash RootHash].
    rewrite !VerifyMerklePath_loop_replay, replay_app. reflexivity.
  - unfold VerifyMerklePath. cbn [Nodes LeafInd LeafHash RootHash].
    cbn [VerifyMerklePath_loop]. apply bytes_Equal_eq.
Qed.

(** ** [CalculateMerkleRoot] on any number of leaves *)

Section AnySize.

Variable sha3_256 : bytes -> bytes.
Variable MHashBytes : bytes -> bytes -> bytes.

Lemma land_1_odd (n : nat) : (Z.land (Z.of_nat n) 1 =? 1) = Nat.odd n.
Proof.
  change 1 with (Z.ones 1) at 1. rewrite Z.land_ones by lia.
  rewrite Z.pow_1_r. destruct (Nat.odd n) eqn:E.
  - apply Nat.odd_spec in E as [j ->]. apply Z.eqb_eq.
    replace (Z.of_nat (2 * j + 1)) with (1 + Z.of_nat j * 2) by lia.
    rewrite Z.mod_add by lia. reflexivity.
  - apply (f_equal negb) in E. rewrite Nat.negb_odd in E. cbn in E.
    apply Nat.even_spec in E as [j ->]. apply Z.eqb_neq.
    replace (Z.of_nat (2 * j)) with (Z.of_nat j * 2) by lia.
    rewrite Z.mod_mul by lia. lia.
Qed.

Lemma padded_length (level : list bytes) :
  length (if Nat.odd (length level)
          then level ++ [default [] (last level)] else level)
  = (2 * ((length level + 1) / 2))%nat.
Proof.
  destruct (Nat.odd (length level)) eqn:E.
  - apply Nat.odd_spec in E as [j Hj]. rewrite length_app, Hj. cbn [length].
    replace (2 * j + 1 + 1)%nat with ((j + 1) * 2)%nat by lia.
    rewrite Nat.div_mul by lia. lia.
  - apply (f_equal negb) in E. rewrite Nat.negb_odd in E. cbn in E.
    apply Nat.even_spec in E as [j Hj]. rewrite Hj.
    replace (2 * j + 1)%nat with (1 + j * 2)%nat by lia.
    rewrite Nat.div_add by lia. cbn. lia.
Qed.

Lemma length_level_up (level : list bytes) :
  length (level_up MHashBytes level) = ((length level + 1) / 2)%nat.
Proof. unfold level_up. apply length_pairs, padded_length. Qed.

(** One round of the loop, whatever the length of the level. *)
Lemma round_any (st : fold_state) (remaining : nat) :
  CalculateMerkleRoot_loop MHashBytes (S remaining) st
  = let st' := {| nodes := level_up MHashBytes (nodes st);
                  rounds := S (rounds st);
                  padded := padded st || Nat.odd (length (nodes st)) |} in
    if len (level_up MHashBytes (nodes st)) =? 1 then Returns st'
    else CalculateMerkleRoot_loop MHashBytes remaining st'.
Proof.
  cbn [CalculateMerkleRoot_loop].
  assert (Hodd : (Z.land (len (nodes st)) 1 =? 1) = Nat.odd (length (nodes st)))
    by apply land_1_odd.
  rewrite !Hodd. clear Hodd.
  pose proof (padded_length (nodes st)) as Hpad.
  assert (Hq : Z.to_nat ((len (nodes st) + 1) / 2)
               = ((length (nodes st) + 1) / 2)%nat).
  { unfold len. rewrite <- (Nat2Z.id ((length (nodes st) + 1) / 2)).
    f_equal. rewrite Nat2Z.inj_div. f_equal. lia. }
  rewrite Hq. unfold level_up.
  destruct (Nat.odd (length (nodes st))) eqn:E.
  - assert (Hlast : nodes st !! (length (nodes st) - 1)%nat
                    = Some (default [] (last (nodes st)))).
    { rewrite last_lookup.
      replace (Nat.pred (length (nodes st))) with (length (nodes st) - 1)%nat
        by lia.
      destruct (lookup_lt_is_Some_2 (nodes st) (length (nodes st) - 1))
        as [x Hx]; [|rewrite Hx; reflexivity].
      apply Nat.odd_spec in E as [j Hj]. lia. }
    replace (len (nodes st) - 1) with (Z.of_nat (length (nodes st) - 1)).
    2:{ apply Nat.odd_spec in E as [j Hj]. unfold len. lia. }
    rewrite (index_in_bounds _ _ _ Hlast). osimpl.
    pose proof (pair_loop_pairs MHashBytes ((length (nodes st) + 1) / 2)
                  (nodes st ++ [default [] (last (nodes st))]) [] []
                  (length (nodes st ++ [default [] (last (nodes st))]))) as H.
    cbn [app length] in H. change (Z.of_nat 0) with 0 in H.
    rewrite H by lia. reflexivity.
  - osimpl.
    pose proof (pair_loop_pairs MHashBytes ((length (nodes st) + 1) / 2)
                  (nodes st) [] [] (length (nodes st))) as H.
    cbn [app length] in H. change (Z.of_nat 0) with 0 in H.
    rewrite H by lia. reflexivity.
Qed.

Lemma fold_any (e : nat) :
  forall (remaining : nat) (st : fold_state),
    (1 <= length (nodes st) <= 2 ^ e)%nat ->
    (1 <= remaining)%nat -> (e <= remaining)%nat ->
    exists (k : nat) (p : bool),
      (1 <= k <= Nat.max 1 e)%nat
      /\ CalculateMerkleRoot_loop MHashBytes remaining st
         = Returns {| nodes := fold_up MHashBytes k (nodes st);
                      rounds := rounds st + k;
                      padded := p |}
      /\ length (fold_up MHashBytes k (nodes st)) = 1%nat
      /\ forall j : nat,
           (1 <= j < k)%nat -> length (fold_up MHashBytes j (nodes st)) <> 1%nat.
Proof.
  induction e as [|e IH]; intros remaining st Hlen Hrem He;
    (destruct remaining as [|remaining]; [lia|]);
    rewrite round_any; cbn zeta;
    pose proof (length_level_up (nodes st)) as Hup.
  - cbn in Hlen. assert (Hone : length (nodes st) = 1%nat) by lia.
    rewrite Hone in Hup. cbn in Hup.
    unfold len. rewrite Hup. cbn [Z.of_nat Pos.of_succ_nat Z.eqb Pos.eqb].
    exists 1%nat, (padded st || Nat.odd (length (nodes st))).
    split; [lia|]. split; [do 2 f_equal; lia|]. split; [exact Hup|].
    intros j Hj. lia.
  - rewrite Nat.pow_succ_r' in Hlen.
    assert (Hhalf : (1 <= (length (nodes st) + 1) / 2 <= 2 ^ e)%nat).
    { split.
      - apply Nat.div_le_lower_bound; lia.
      - assert (((length (nodes st) + 1) / 2 < 2 ^ e + 1)%nat)
          by (apply Nat.Div0.div_lt_upper_bound; lia).
        lia. }
    destruct (Z.eqb_spec (len (level_up MHashBytes (nodes st))) 1) as [Hstop|Hgo].
    + exists 1%nat, (padded st || Nat.odd (length (nodes st))).
      split; [lia|]. split; [do 2 f_equal; lia|].
      split; [unfold len in Hstop; cbn [fold_up]; lia|].
      intros j Hj. lia.
    + assert (He1 : (1 <= e)%nat).
      { destruct e; [|lia]. change (2 ^ 0)%nat with 1%nat in Hhalf.
        unfold len in Hgo. lia. }
      destruct (IH remaining
                  {| nodes := level_up MHashBytes (nodes st);
                     rounds := S (rounds st);
                     padded := padded st || Nat.odd (length (nodes st)) |})
        as (k & p & Hk & Hrun & Hone & Hmin);
        cbn [nodes rounds padded]; [rewrite Hup; exact Hhalf|lia|lia|].
      cbn [nodes rounds padded] in Hrun, Hone, Hmin.
      exists (S k), p. split; [lia|]. rewrite Hrun. cbn [fold_up].
      split; [do 2 f_equal; lia|]. split; [exact Hone|].
      intros j Hj. destruct j as [|j]; [lia|]. cbn [fold_up].
      destruct j as [|j].
      * cbn [fold_up]. unfold len in Hgo. lia.
      * apply Hmin. lia.
Qed.

Lemma fold_oversize (remaining : nat) :
  forall st : fold_state,
    (2 ^ remaining < length (nodes st))%nat ->
    exists p : bool,
      CalculateMerkleRoot_loop MHashBytes remaining st
      = Returns {| nodes := fold_up MHashBytes remaining (nodes st);
                   rounds := rounds st + remaining;
                   padded := p |}
      /\ (1 < length (fold_up MHashBytes remaining (nodes st)))%nat.
Proof.
  induction remaining as [|remaining IH]; intros st Hlen.
  - exists (padded st). cbn [CalculateMerkleRoot_loop fold_up].
    split; [destruct st; cbn; do 2 f_equal; lia|]. cbn in Hlen. lia.
  - rewrite round_any. cbn zeta.
    pose proof (length_level_up (nodes st)) as Hup.
    rewrite Nat.pow_succ_r' in Hlen.
    assert (Hhalf : (2 ^ remaining < (length (nodes st) + 1) / 2)%nat).
    { apply Nat.div_le_lower_bound; lia. }
    pose proof (Nat.pow_nonzero 2 remaining ltac:(lia)) as Hpow.
    destruct (Z.eqb_spec (len (level_up MHashBytes (nodes st))) 1) as [Hstop|_].
    { unfold len in Hstop. lia. }
    destruct (IH {| nodes := level_up MHashBytes (nodes st);
                    rounds := S (rounds st);
                    padded := padded st || Nat.odd (length (nodes st)) |})
      as (p & Hrun & Hmany); cbn [nodes rounds padded]; [lia|].
    cbn [nodes rounds padded] in Hrun, Hmany.
    exists p. rewrite Hrun. cbn [fold_up]. split; [do 2 f_equal; lia|exact Hmany].
Qed.

Lemma fold_empty (remaining : nat) :
  forall st : fold_state,
    nodes st = [] ->
    exists st' : fold_state,
      CalculateMerkleRoot_loop MHashBytes remaining st = Returns st'
      /\ nodes st' = [].
Proof.
  induction remaining as [|remaining IH]; intros st Hnil.
  - exists st. split; [reflexivity|exact Hnil].
  - rewrite round_any. cbn zeta. rewrite Hnil.
    change (level_up MHashBytes []) with ([] : list bytes).
    change (len [] =? 1) with false. cbv iota.
    apply IH. reflexivity.
Qed.

End AnySize.

(** X4: on a tree with 1 to 2048 leaves, [CalculateMerkleRoot] runs the
    rounds (pad a level of odd length with its last node, pair) until one
    node is left, at most 11 of them and at least one, and stores that
    node; with a single leaf the root is the combination of its digest
    with itself. *)
Theorem CalculateMerkleRoot_up_to_2048 (sha3_256 : bytes -> bytes)
    (MHashBytes : bytes -> bytes -> bytes) (t : FixedMerkleTree) :
  (1 <= length (Leaves t) <= 2048)%nat ->
  exists (root : bytes) (k : nat) (p : bool),
    (1 <= k <= 11)%nat
    /\ fold_up MHashBytes k (map (GetHashBytes sha3_256) (Leaves t)) = [root]
    /\ (forall j : nat,
          (1 <= j < k)%nat ->
          length (fold_up MHashBytes j (map (GetHashBytes sha3_256) (Leaves t)))
          <> 1%nat)
    /\ CalculateMerkleRoot_fold sha3_256 MHashBytes t
       = Returns {| nodes := [root]; rounds := k; padded := p |}
    /\ CalculateMerkleRoot sha3_256 MHashBytes t
       = Returns (set_merkleRoot (Some root) t)
    /\ (forall l : leaf,
          Leaves t = [l] ->
          root = MHashBytes (GetHashBytes sha3_256 l) (GetHashBytes sha3_256 l)).
Proof.
  intros Hlen.
  destruct (fold_any MHashBytes 11 (Z.to_nat FixedMTDepth)
              {| nodes := map (GetHashBytes sha3_256) (Leaves t);
                 rounds := 0; padded := false |})
    as (k & p & Hk & Hrun & Hone & Hmin); cbn [nodes rounds padded].
  - rewrite length_map. change (2 ^ 11)%nat with 2048%nat. exact Hlen.
  - consts. lia.
  - consts. lia.
  - cbn [nodes rounds padded] in Hrun, Hone, Hmin.
    destruct (fold_up MHashBytes k (map (GetHashBytes sha3_256) (Leaves t)))
      as [|root [|]] eqn:E; try discriminate.
    exists root, k, p. split; [lia|]. split; [first [exact E|reflexivity]|].
    split; [exact Hmin|].
    unfold CalculateMerkleRoot, CalculateMerkleRoot_fold. rewrite Hrun.
    split; [reflexivity|]. split; [reflexivity|].
    intros l Hl. rewrite Hl in E, Hmin.
    destruct k as [|[|k]]; [lia| |].
    + cbn in E. injection E as <-. reflexivity.
    + exfalso. apply (Hmin 1%nat); [lia|reflexivity].
Qed.

Lemma CalculateMerkleRoot_up_to_2048_witness :
  let t := set_Leaves [{| h := [x01] |}; {| h := [x02] |}; {| h := [x03] |}]
             NewFixedMerkleTree in
  exists (root : bytes) (k : nat) (p : bool),
    (1 <= k <= 11)%nat
    /\ fold_up demo_MHashBytes k (map (GetHashBytes demo_sha3_256) (Leaves t))
       = [root]
    /\ (forall j : nat,
          (1 <= j < k)%nat ->
          length (fold_up demo_MHashBytes j
                    (map (GetHashBytes demo_sha3_256) (Leaves t)))
          <> 1%nat)
    /\ CalculateMerkleRoot_fold demo_sha3_256 demo_MHashBytes t
       = Returns {| nodes := [root]; rounds := k; padded := p |}
    /\ CalculateMerkleRoot demo_sha3_256 demo_MHashBytes t
       = Returns (set_merkleRoot (Some root) t)
    /\ (forall l : leaf,
          Leaves t = [l] ->
          root = demo_MHashBytes (GetHashBytes demo_sha3_256 l)
                                 (GetHashBytes demo_sha3_256 l)).
Proof.
  apply (CalculateMerkleRoot_up_to_2048 demo_sha3_256 demo_MHashBytes
           (set_Leaves [{| h := [x01] |}; {| h := [x02] |}; {| h := [x03] |}]
              NewFixedMerkleTree)).
  cbn [Leaves set_Leaves length]. lia.
Defined.

(** X5: on a tree without leaves, [CalculateMerkleRoot] panics (it reads
    the first node of an empty level after its 11 rounds), and so does
    [GetMerkleRoot] when no root is cached. *)
Theorem CalculateMerkleRoot_no_leaf (sha3_256 : bytes -> bytes)
    (MHashBytes : bytes -> bytes -> bytes) (t : FixedMerkleTree) :
  Leaves t = [] ->
  CalculateMerkleRoot sha3_256 MHashBytes t = Panics
  /\ (merkleRoot t = None -> GetMerkleRoot sha3_256 MHashBytes t = Panics).
Proof.
  intros Hnil.
  assert (H : CalculateMerkleRoot sha3_256 MHashBytes t = Panics).
  { unfold CalculateMerkleRoot, CalculateMerkleRoot_fold. rewrite Hnil.
    destruct (fold_empty MHashBytes (Z.to_nat FixedMTDepth)
                {| nodes := map (GetHashBytes sha3_256) [];
                   rounds := 0; padded := false |} eq_refl)
      as (st' & Hrun & Hst').
    rewrite Hrun. osimpl. rewrite Hst'. reflexivity. }
  split; [exact H|]. intros Hroot. unfold GetMerkleRoot. rewrite Hroot, H.
  reflexivity.
Qed.

Lemma CalculateMerkleRoot_no_leaf_witness :
  let t := set_Leaves [] NewFixedMerkleTree in
  CalculateMerkleRoot demo_sha3_256 demo_MHashBytes t = Panics
  /\ (merkleRoot t = None
      -> GetMerkleRoot demo_sha3_256 demo_MHashBytes t = Panics).
Proof.
  apply (CalculateMerkleRoot_no_leaf demo_sha3_256 demo_MHashBytes
           (set_Leaves [] NewFixedMerkleTree)).
  reflexivity.
Defined.

(** X6: on a tree with more than 2048 leaves the loop of
    [CalculateMerkleRoot] uses its 11 iterations without reaching a single
    node: several nodes are left and the first of them is stored as the
    root. *)
Theorem CalculateMerkleRoot_over_2048 (sha3_256 : bytes -> bytes)
    (MHashBytes : bytes -> bytes -> bytes) (t : FixedMerkleTree) :
  (2048 < length (Leaves t))%nat ->
  exists (root : bytes) (others : list bytes) (p : bool),
    others <> []
    /\ fold_up MHashBytes 11 (map (GetHashBytes sha3_256) (Leaves t))
       = root :: others
    /\ CalculateMerkleRoot_fold sha3_256 MHashBytes t
       = Returns {| nodes := root :: others; rounds := 11; padded := p |}
    /\ CalculateMerkleRoot sha3_256 MHashBytes t
       = Returns (set_merkleRoot (Some root) t).
Proof.
  intros Hlen.
  destruct (fold_oversize MHashBytes (Z.to_nat FixedMTDepth)
              {| nodes := map (GetHashBytes sha3_256) (Leaves t);
                 rounds := 0; padded := false |})
    as (p & Hrun & Hmany); cbn [nodes rounds padded].
  - rewrite length_map. change (2 ^ Z.to_nat FixedMTDepth)%nat with 2048%nat.
    exact Hlen.
  - cbn [nodes rounds padded] in Hrun, Hmany.
    change (fold_up MHashBytes (Z.to_nat FixedMTDepth))
      with (fold_up MHashBytes 11) in Hrun, Hmany.
    change (0 + Z.to_nat FixedMTDepth)%nat with 11%nat in Hrun.
    destruct (fold_up MHashBytes 11 (map (GetHashBytes sha3_256) (Leaves t)))
      as [|root [|x others]] eqn:E; cbn [length] in Hmany; try lia.
    exists root, (x :: others), p. split; [discriminate|].
    split; [first [exact E|reflexivity]|].
    unfold CalculateMerkleRoot, CalculateMerkleRoot_fold. rewrite Hrun.
    split; reflexivity.
Qed.

Lemma CalculateMerkleRoot_over_2048_witness :
  let t := set_Leaves (replicate 2049 getNewLeaf) NewFixedMerkleTree in
  exists (root : bytes) (others : list bytes) (p : bool),
    others <> []
    /\ fold_up demo_MHashBytes 11 (map (GetHashBytes demo_sha3_256) (Leaves t))
       = root :: others
    /\ CalculateMerkleRoot_fold demo_sha3_256 demo_MHashBytes t
       = Returns {| nodes := root :: others; rounds := 11; padded := p |}
    /\ CalculateMerkleRoot demo_sha3_256 demo_MHashBytes t
       = Returns (set_merkleRoot (Some root) t).
Proof.
  apply (CalculateMerkleRoot_over_2048 demo_sha3_256 demo_MHashBytes
           (set_Leaves (replicate 2049 getNewLeaf) NewFixedMerkleTree)).
  vm_compute. lia.
Defined.

(** ** Where the bytes of a stream go *)

Lemma reads_nil (fuel : nat) : reads fuel [] = [].
Proof. destruct fuel; reflexivity. Qed.

Lemma reads_enough (f1 : nat) :
  forall (f2 : nat) (data : bytes),
    (length data < f1)%nat -> (length data < f2)%nat ->
    reads f1 data = reads f2 data.
Proof.
  induction f1 as [|f1 IH]; intros f2 data H1 H2; [lia|].
  destruct f2 as [|f2]; [lia|]. cbn [reads].
  destruct (Z.gtb_spec (len data) 0) as [Hpos|]; [|reflexivity].
  f_equal. apply IH; rewrite length_drop; unfold len in *; consts; lia.
Qed.

Lemma reads_unfold (fuel : nat) (data : bytes) :
  reads (S fuel) data
  = if len data >? 0
    then take (Z.to_nat MaxMerkleLeavesSize) data
         :: reads fuel (drop (Z.to_nat MaxMerkleLeavesSize) data)
    else [].
Proof. reflexivity. Qed.

Lemma reads_cons (data : bytes) :
  0 < len data ->
  reads (S (length data)) data
  = take (Z.to_nat MaxMerkleLeavesSize) data
    :: reads (S (length (drop (Z.to_nat MaxMerkleLeavesSize) data)))
             (drop (Z.to_nat MaxMerkleLeavesSize) data).
Proof.
  intros Hpos. rewrite reads_unfold.
  destruct (Z.gtb_spec (len data) 0) as [_|]; [|lia].
  f_equal. apply reads_enough; rewrite ?length_drop; unfold len in *; consts; lia.
Qed.

Lemma chunk_nil (i : nat) : chunk i [] = [].
Proof. unfold chunk. rewrite drop_nil, take_nil. reflexivity. Qed.

Lemma flushed_short (data : bytes) (i : nat) :
  len data < MaxMerkleLeavesSize ->
  concat (map (chunk i) (reads (S (length data)) data)) = chunk i data.
Proof.
  intros Hshort. destruct data as [|x data].
  - rewrite chunk_nil. reflexivity.
  - rewrite reads_cons by (unfold len; cbn [length]; lia).
    rewrite take_ge, drop_ge by (unfold len in *; consts; lia).
    rewrite reads_nil. cbn [map concat]. apply app_nil_r.
Qed.

Lemma concat_map_cons {A B} (f : A -> list B) (x : A) (xs : list A) :
  concat (map f (x :: xs)) = f x ++ concat (map f xs).
Proof. reflexivity. Qed.

Lemma flushed_full (data : bytes) (i : nat) :
  MaxMerkleLeavesSize <= len data ->
  concat (map (chunk i) (reads (S (length data)) data))
  = chunk i (take (Z.to_nat MaxMerkleLeavesSize) data)
    ++ concat (map (chunk i)
         (reads (S (length (drop (Z.to_nat MaxMerkleLeavesSize) data)))
                (drop (Z.to_nat MaxMerkleLeavesSize) data))).
Proof.
  intros Hfull. rewrite (reads_cons data) by (consts; lia).
  apply concat_map_cons.
Qed.

Lemma flushed_lookup (n : nat) :
  forall (data : bytes) (ls : list leaf) (i : nat),
    length data = n ->
    feed (windows ls data).1 (windows ls data).2 !! i
    = (fun l => {| h := h l ++ concat (map (chunk i)
                                         (reads (S (length data)) data)) |})
      <$> ls !! i.
Proof.
  induction n as [n IH] using lt_wf_ind. intros data ls i Hn.
  destruct (Z.leb_spec MaxMerkleLeavesSize (len data)) as [Hfull|Hshort].
  - rewrite windows_full by exact Hfull.
    rewrite (flushed_full data) by exact Hfull.
    rewrite (IH (length (drop (Z.to_nat MaxMerkleLeavesSize) data)));
      [|rewrite length_drop; unfold len in *; consts; lia|reflexivity].
    rewrite feed_lookup.
    destruct (ls !! i) as [l|]; [|reflexivity].
    change (Some {| h := h (leaf_Write l (chunk i (take (Z.to_nat MaxMerkleLeavesSize) data)))
                       ++ concat (map (chunk i)
         (reads (S (length (drop (Z.to_nat MaxMerkleLeavesSize) data)))
                (drop (Z.to_nat MaxMerkleLeavesSize) data))) |}
            = Some {| h := h l ++ chunk i (take (Z.to_nat MaxMerkleLeavesSize) data)
    ++ concat (map (chunk i)
         (reads (S (length (drop (Z.to_nat MaxMerkleLeavesSize) data)))
                (drop (Z.to_nat MaxMerkleLeavesSize) data))) |}).
    unfold leaf_Write. cbn [h].
    rewrite app_assoc. reflexivity.
  - rewrite windows_short by exact Hshort.
    rewrite (flushed_short data) by exact Hshort.
    change (feed ls data !! i = (fun l => {| h := h l ++ chunk i data |}) <$> ls !! i).
    rewrite feed_lookup. reflexivity.
Qed.

(** X7: after any segments were written on a fresh tree and the tree was
    finalized, leaf [i] has absorbed, in order, the chunk of position [i]
    of every successive window of 65536 bytes of the stream (the last
    window may be shorter): the bytes at offsets [65536 * w + 64 * i]
    onwards, 64 at a time. *)
Theorem finalized_leaf_content (segs : list bytes) (i : nat) :
  (i < Z.to_nat FixedMerkleLeaves)%nat ->
  (t ← write_all segs NewFixedMerkleTree;
   '(t, err) ← Finalize t;
   Returns (err, h <$> Leaves t !! i))
  = Returns (None,
             Some (concat (map (chunk i)
                             (reads (S (length (concat segs))) (concat segs))))).
Proof.
  intros Hi.
  destruct (write_all_spec segs NewFixedMerkleTree
              wellformed_NewFixedMerkleTree eq_refl)
    as (t & Hrun & Hab & Hwf).
  pose proof (absorbed_not_final _ _ _ Hab eq_refl) as Hfin.
  destruct Hab as [A1 A2 _ _ _ _ _].
  rewrite staged_NewFixedMerkleTree in A1, A2. cbn [app] in A1, A2.
  rewrite Hrun. osimpl. rewrite Finalize_spec by assumption. osimpl.
  unfold finalized. osimpl. rewrite A1, A2.
  rewrite (flushed_lookup (length (concat segs))) by reflexivity.
  unfold NewFixedMerkleTree, initLeaves. osimpl.
  rewrite lookup_replicate_2 by exact Hi. reflexivity.
Qed.

Lemma finalized_leaf_content_witness :
  (t ← write_all [[x01; x02]; [x03]] NewFixedMerkleTree;
   '(t, err) ← Finalize t;
   Returns (err, h <$> Leaves t !! 0%nat))
  = Returns (None,
             Some (concat (map (chunk 0)
                             (reads (S (length (concat [[x01; x02]; [x03]])))
                                    (concat [[x01; x02]; [x03]]))))).
Proof.
  apply (finalized_leaf_content [[x01; x02]; [x03]] 0).
  vm_compute. lia.
Defined.

(** ** Byte counts *)

Lemma held_cons (l : leaf) (ls : list leaf) :
  held (l :: ls) = len (h l) + held ls.
Proof. reflexivity. Qed.

Lemma held_fresh (n : nat) : held (replicate n getNewLeaf) = 0.
Proof.
  induction n as [|n IH]; [reflexivity|].
  cbn [replicate]. rewrite held_cons, IH. reflexivity.
Qed.

Lemma feed_held (ls : list leaf) :
  forall w : bytes,
    len w <= MerkleChunkSize * Z.of_nat (length ls) ->
    held (feed ls w) = held ls + len w.
Proof.
  induction ls as [|l ls IH]; intros w Hw.
  - destruct w; [reflexivity|]. consts. cbn [length] in Hw. lia.
  - cbn [feed]. rewrite !held_cons. rewrite IH.
    + unfold leaf_Write. cbn [h]. rewrite len_app.
      unfold len. rewrite length_take, length_drop. consts. lia.
    + unfold len in *. rewrite length_drop. cbn [length] in Hw. consts. lia.
Qed.

Lemma windows_held (n : nat) :
  forall (data : bytes) (ls : list leaf),
    length data = n ->
    length ls = Z.to_nat FixedMerkleLeaves ->
    held (windows ls data).1 + len (windows ls data).2 = held ls + len data.
Proof.
  induction n as [n IH] using lt_wf_ind. intros data ls Hn Hls.
  destruct (Z.leb_spec MaxMerkleLeavesSize (len data)) as [Hfull|Hshort].
  - rewrite windows_full by exact Hfull.
    rewrite (IH (length (drop (Z.to_nat MaxMerkleLeavesSize) data)));
      [|rewrite length_drop; unfold len in *; consts; lia|reflexivity
       |rewrite length_feed; exact Hls].
    rewrite feed_held.
    + unfold len in *. rewrite length_take, length_drop. consts. lia.
    + unfold len in *. rewrite length_take, Hls. consts. lia.
  - rewrite windows_short by exact Hshort. reflexivity.
Qed.

Lemma feed_sizes (ls : list leaf) (w : bytes) (c : Z) :
  len w = MaxMerkleLeavesSize ->
  (forall (i : nat) (l : leaf),
      (i < Z.to_nat FixedMerkleLeaves)%nat ->
      ls !! i = Some l -> len (h l) = c) ->
  forall (i : nat) (l : leaf),
    (i < Z.to_nat FixedMerkleLeaves)%nat ->
    feed ls w !! i = Some l -> len (h l) = c + MerkleChunkSize.
Proof.
  intros Hw Hc i l Hi Hl. rewrite feed_lookup in Hl.
  destruct (ls !! i) as [l0|] eqn:E; [|discriminate].
  cbn [fmap option_fmap option_map] in Hl.
  injection Hl as <-. unfold leaf_Write. cbn [h].
  rewrite len_app, (Hc i l0 Hi E). f_equal.
  unfold len in *. rewrite length_chunk. consts. lia.
Qed.

Lemma len_window (data : bytes) :
  MaxMerkleLeavesSize <= len data ->
  len (take (Z.to_nat MaxMerkleLeavesSize) data) = MaxMerkleLeavesSize
  /\ len data = len (drop (Z.to_nat MaxMerkleLeavesSize) data)
                + 1 * MaxMerkleLeavesSize.
Proof.
  intros H. unfold len in *. rewrite length_take, length_drop. consts. lia.
Qed.

Lemma sizes_short (data : bytes) (ls : list leaf) (c : Z) :
  len data < MaxMerkleLeavesSize ->
  (forall (i : nat) (l : leaf),
      (i < Z.to_nat FixedMerkleLeaves)%nat ->
      ls !! i = Some l -> len (h l) = c) ->
  len data = len data mod MaxMerkleLeavesSize
  /\ forall (i : nat) (l : leaf),
      (i < Z.to_nat FixedMerkleLeaves)%nat ->
      ls !! i = Some l ->
      len (h l) = c + MerkleChunkSize * (len data / MaxMerkleLeavesSize).
Proof.
  intros Hshort Hc. pose proof (len_nonneg data) as Hpos. split.
  - rewrite Z.mod_small by lia. reflexivity.
  - intros i l Hi Hl. rewrite (Hc i l Hi Hl).
    rewrite Z.div_small by lia. lia.
Qed.

Lemma sizes_full (m c : Z) (p : list leaf * bytes) :
  len p.2 = m mod MaxMerkleLeavesSize ->
  (forall (i : nat) (l : leaf),
      (i < Z.to_nat FixedMerkleLeaves)%nat ->
      p.1 !! i = Some l ->
      len (h l) = c + MerkleChunkSize
                  + MerkleChunkSize * (m / MaxMerkleLeavesSize)) ->
  len p.2 = (m + 1 * MaxMerkleLeavesSize) mod MaxMerkleLeavesSize
  /\ forall (i : nat) (l : leaf),
      (i < Z.to_nat FixedMerkleLeaves)%nat ->
      p.1 !! i = Some l ->
      len (h l) = c + MerkleChunkSize
                      * ((m + 1 * MaxMerkleLeavesSize) / MaxMerkleLeavesSize).
Proof.
  intros IH1 IH2.
  assert (Hnz : MaxMerkleLeavesSize <> 0) by (consts; lia).
  split.
  - rewrite IH1, Z.mod_add by exact Hnz. reflexivity.
  - intros i l Hi Hl. rewrite (IH2 i l Hi Hl).
    rewrite Z.div_add by exact Hnz. lia.
Qed.

Lemma drop_window_lt (data : bytes) :
  MaxMerkleLeavesSize <= len data ->
  (length (drop (Z.to_nat MaxMerkleLeavesSize) data) < length data)%nat.
Proof.
  intros Hfull. rewrite length_drop. unfold len in Hfull. consts. lia.
Qed.

Lemma windows_sizes (n : nat) :
  forall (data : bytes) (ls : list leaf) (c : Z),
    length data = n ->
    (forall (i : nat) (l : leaf),
        (i < Z.to_nat FixedMerkleLeaves)%nat ->
        ls !! i = Some l -> len (h l) = c) ->
    len (windows ls data).2 = len data mod MaxMerkleLeavesSize
    /\ forall (i : nat) (l : leaf),
        (i < Z.to_nat FixedMerkleLeaves)%nat ->
        (windows ls data).1 !! i = Some l ->
        len (h l) = c + MerkleChunkSize * (len data / MaxMerkleLeavesSize).
Proof.
  induction n as [n IH] using lt_wf_ind. intros data ls c Hn Hc.
  destruct (Z.leb_spec MaxMerkleLeavesSize (len data)) as [Hfull|Hshort].
  - rewrite windows_full by exact Hfull.
    destruct (len_window data Hfull) as [Hw Hlen].
    rewrite Hlen.
    pose proof (drop_window_lt data Hfull) as Hlt. rewrite Hn in Hlt.
    destruct (IH _ Hlt (drop (Z.to_nat MaxMerkleLeavesSize) data)
                (feed ls (take (Z.to_nat MaxMerkleLeavesSize) data))
                (c + MerkleChunkSize) eq_refl
                (feed_sizes ls _ c Hw Hc)) as [IH1 IH2].
    apply sizes_full; assumption.
  - rewrite windows_short by exact Hshort.
    apply sizes_short; assumption.
Qed.

(** X8: any segments written on a fresh tree are accepted, and afterwards
    the staging buffer holds [n mod 65536] bytes and every leaf has
    absorbed [64 * (n / 65536)] bytes, where [n] is the number of bytes
    written: only whole windows reach the leaves, and each gives 64 bytes
    to each of the 1024 leaves. *)
Theorem written_sizes (segs : list bytes) :
  exists t : FixedMerkleTree,
    write_all segs NewFixedMerkleTree = Returns t
    /\ writeCount t = len (concat segs) mod MaxMerkleLeavesSize
    /\ length (Leaves t) = Z.to_nat FixedMerkleLeaves
    /\ forall (i : nat) (l : leaf),
        Leaves t !! i = Some l ->
        len (h l)
        = MerkleChunkSize * (len (concat segs) / MaxMerkleLeavesSize).
Proof.
  destruct (write_all_spec segs NewFixedMerkleTree
              wellformed_NewFixedMerkleTree eq_refl)
    as (t & Hrun & Hab & Hwf).
  exists t. split; [exact Hrun|].
  destruct Hab as [A1 _ A3 _ _ _ _].
  rewrite staged_NewFixedMerkleTree in A1, A3. cbn [app] in A1, A3.
  destruct (windows_sizes (length (concat segs)) (concat segs)
              (Leaves NewFixedMerkleTree) 0 eq_refl) as [S1 S2].
  { intros i l Hi Hl. unfold NewFixedMerkleTree, initLeaves in Hl.
    osimpl. apply lookup_replicate_1 in Hl as [-> _]. reflexivity. }
  split; [rewrite A3; exact S1|].
  split; [apply Hwf|].
  intros i l Hl. rewrite A1 in Hl.
  rewrite (S2 i l); [lia| |exact Hl].
  apply lookup_lt_Some in Hl. rewrite <- A1 in Hl.
  destruct Hwf as [Hlv _ _ _]. rewrite Hlv in Hl. exact Hl.
Qed.

(** X9: no byte is lost or duplicated.  After any segments were written
    on a fresh tree, the bytes absorbed by the leaves plus the staged
    ones are as many as were written; [Finalize] then returns no error
    and leaves the leaves holding exactly that many bytes. *)
Theorem no_byte_lost (segs : list bytes) :
  exists t t' : FixedMerkleTree,
    write_all segs NewFixedMerkleTree = Returns t
    /\ held (Leaves t) + writeCount t = len (concat segs)
    /\ Finalize t = Returns (t', None)
    /\ held (Leaves t') = len (concat segs)
    /\ writeCount t' = writeCount t.
Proof.
  destruct (write_all_spec segs NewFixedMerkleTree
              wellformed_NewFixedMerkleTree eq_refl)
    as (t & Hrun & Hab & Hwf).
  exists t, (finalized t). split; [exact Hrun|].
  pose proof (absorbed_not_final _ _ _ Hab eq_refl) as Hfin.
  destruct Hab as [A1 A2 A3 _ _ _ _].
  rewrite staged_NewFixedMerkleTree in A1, A2, A3. cbn [app] in A1, A2, A3.
  pose proof (windows_held (length (concat segs)) (concat segs)
                (Leaves NewFixedMerkleTree) eq_refl
                (wf_leaves _ wellformed_NewFixedMerkleTree)) as Hheld.
  assert (Hfresh : held (Leaves NewFixedMerkleTree) = 0).
  { unfold NewFixedMerkleTree, initLeaves. osimpl. apply held_fresh. }
  rewrite Hfresh, <- A1, <- A3 in Hheld.
  split; [lia|].
  split; [apply Finalize_spec; assumption|].
  split; [|reflexivity].
  unfold finalized. osimpl. rewrite feed_held.
  - rewrite A2, <- A3. lia.
  - destruct Hwf as [Hlv _ Hc _]. rewrite Hlv, A2, <- A3. consts. lia.
Qed.

(** ** Reload from any source *)

Lemma CopyN_full_any (reader : Reader) :
  MaxMerkleLeavesSize <= len (content reader) ->
  CopyN reader MaxMerkleLeavesSize
  = (take (Z.to_nat MaxMerkleLeavesSize) (content reader),
     MaxMerkleLeavesSize, None,
     {| content := drop (Z.to_nat MaxMerkleLeavesSize) (content reader);
        fault := fault reader |}).
Proof.
  intros H. unfold CopyN.
  destruct (Z.eqb_spec (len (take (Z.to_nat MaxMerkleLeavesSize) (content reader)))
                       MaxMerkleLeavesSize) as [_|Hne]; [reflexivity|].
  exfalso. apply Hne. unfold len in *. rewrite length_take. consts. lia.
Qed.

Lemma CopyN_short_any (reader : Reader) :
  len (content reader) < MaxMerkleLeavesSize ->
  CopyN reader MaxMerkleLeavesSize
  = (content reader, len (content reader),
     Some (default io_EOF (fault reader)),
     {| content := []; fault := fault reader |}).
Proof.
  intros H. unfold CopyN.
  rewrite take_ge, drop_ge by (unfold len in *; lia).
  destruct (Z.eqb_spec (len (content reader)) MaxMerkleLeavesSize);
    [lia|reflexivity].
Qed.





(** ** Calls on a tree whose mutex is free *)

Lemma Write_unlocked (t : FixedMerkleTree) (b : bytes) :
  wellformed t -> writeLock t = false ->
  exists t' r, Write t b = Returns (t', r)
               /\ writeLock t' = false /\ wellformed t'.
Proof.
  intros Hwf Hlock. destruct (isFinal t) eqn:Hfin.
  - exists t. eexists. split; [apply Write_after_Finalize; assumption|].
    split; assumption.
  - destruct (Write_spec t b Hwf Hfin) as (t' & Hrun & Hab & Hwf').
    exists t'. eexists. split; [exact Hrun|]. split; [|exact Hwf'].
    rewrite (ab_lock _ _ _ Hab). exact Hlock.
Qed.

Lemma Reload_loop_unlocked (fuel : nat) :
  forall (t : FixedMerkleTree) (buf : bytes) (reader : Reader),
    wellformed t -> writeLock t = false ->
    (length (content reader) < fuel)%nat ->
    exists t' e, Reload_loop fuel t buf reader = Returns (t', e)
                 /\ writeLock t' = false.
Proof.
  induction fuel as [|fuel IH]; intros t buf reader Hwf Hlock Hfuel; [lia|].
  rewrite Reload_loop_unfold.
  pose proof (CopyN_progress reader MaxMerkleLeavesSize eq_refl) as Hcopy.
  destruct (CopyN reader MaxMerkleLeavesSize) as [[[got written] err] reader'].
  cbv beta iota zeta. destruct Hcopy as [Hpos Hzero].
  destruct (Z.gtb_spec written 0) as [Hw|Hw].
  - destruct (Write_unlocked t (buf ++ got) Hwf Hlock)
      as (t1 & [n werr] & H & Hlock1 & Hwf1).
    rewrite H. cbn [mbind outcome_bind].
    destruct werr as [e|]; [eauto|].
    apply IH; [exact Hwf1|exact Hlock1|]. specialize (Hpos ltac:(lia)). lia.
  - destruct err as [e|]; [|exfalso; apply (Hzero Hw); reflexivity].
    destruct (is_EOF e); eauto.
Qed.

Lemma writeLock_initLeaves (t : FixedMerkleTree) :
  writeLock (initLeaves t) = writeLock t.
Proof. reflexivity. Qed.

(** X11: a call blocks only on a leaked mutex.  On a tree reached by any
    calls the mutex is free as long as the tree is not finalized; and
    while the mutex is free every [Write], [Finalize], [GetMerkleRoot]
    and [Reload] returns, and leaves the mutex free, except a [Finalize]
    of a tree that is finalized already. *)
Theorem calls_return_while_unlocked (sha3_256 : bytes -> bytes)
    (MHashBytes : bytes -> bytes -> bytes)
    (cs : list call) (t : FixedMerkleTree) :
  run sha3_256 MHashBytes cs NewFixedMerkleTree = Returns t ->
  (isFinal t = false -> writeLock t = false)
  /\ (writeLock t = false ->
      forall c : call,
        exists t' : FixedMerkleTree,
          step sha3_256 MHashBytes t c = Returns t'
          /\ (writeLock t' = true -> c = CallFinalize /\ isFinal t = true)).
Proof.
  intros Hrun. pose proof (run_wellformed _ _ _ _ Hrun) as Hwf.
  split; [apply wellformed_unlocked; exact Hwf|].
  intros Hlock c. rewrite step_unfold. destruct c as [b| | |reader].
  - destruct (Write_unlocked t b Hwf Hlock) as (t' & r & H & Hl & _).
    exists t'. rewrite H. split; [reflexivity|]. congruence.
  - destruct (isFinal t) eqn:Hfin.
    + rewrite Finalize_again by assumption. eexists.
      split; [reflexivity|]. intros _. split; reflexivity.
    + rewrite Finalize_spec by assumption. eexists.
      split; [reflexivity|]. unfold finalized. osimpl. congruence.
  - destruct (merkleRoot t) as [root|] eqn:Hroot.
    + rewrite (GetMerkleRoot_cached _ _ _ root) by exact Hroot.
      eexists. split; [reflexivity|]. congruence.
    + rewrite GetMerkleRoot_first by (apply Hwf || exact Hroot).
      eexists. split; [reflexivity|]. osimpl. congruence.
  - rewrite Reload_unfold.
    destruct (Reload_loop_unlocked (S (length (content reader)))
                (initLeaves t) [] reader) as (t' & e & H & Hl);
      [apply wellformed_initLeaves; exact Hwf
      |rewrite writeLock_initLeaves; exact Hlock|lia|].
    exists t'. rewrite H. split; [reflexivity|]. congruence.
Qed.

Lemma calls_return_while_unlocked_witness :
  (isFinal NewFixedMerkleTree = false -> writeLock NewFixedMerkleTree = false)
  /\ (writeLock NewFixedMerkleTree = false ->
      forall c : call,
        exists t' : FixedMerkleTree,
          step demo_sha3_256 demo_MHashBytes NewFixedMerkleTree c = Returns t'
          /\ (writeLock t' = true ->
              c = CallFinalize /\ isFinal NewFixedMerkleTree = true)).
Proof.
  apply (calls_return_while_unlocked demo_sha3_256 demo_MHashBytes []
           NewFixedMerkleTree).
  reflexivity.
Defined.

(** ** The hexadecimal strings *)

Lemma hex_decode_digits (v : byte) :
  Byte.of_N (16 * hex_value (hex_digit (N.shiftr (Byte.to_N v) 4))
             + hex_value (hex_digit (N.land (Byte.to_N v) 15)))
  = Some v.
Proof. destruct v; reflexivity. Qed.

Lemma hex_decode_EncodeToString (src : bytes) :
  hex_decode (EncodeToString src) = src.
Proof.
  induction src as [|v src IH]; [reflexivity|].
  cbn [EncodeToString hex_decode]. rewrite hex_decode_digits, IH.
  reflexivity.
Qed.

(** X12: the hexadecimal strings are faithful.  Decoding the string
    [hex.EncodeToString] returns gives back the bytes, so two byte strings have
    the same encoding only if they are equal; in particular two leaves
    have the same [GetHash] exactly when they have the same
    [GetHashBytes], and the string [GetMerkleRoot] returns determines the
    root it caches. *)
Theorem hex_strings_faithful (sha3_256 : bytes -> bytes)
    (MHashBytes : bytes -> bytes -> bytes) :
  (forall src : bytes, hex_decode (EncodeToString src) = src)
  /\ (forall a b : bytes, EncodeToString a = EncodeToString b <-> a = b)
  /\ (forall l1 l2 : leaf,
        GetHash sha3_256 l1 = GetHash sha3_256 l2
        <-> GetHashBytes sha3_256 l1 = GetHashBytes sha3_256 l2)
  /\ (forall (t t' : FixedMerkleTree) (s : string),
        GetMerkleRoot sha3_256 MHashBytes t = Returns (t', s) ->
        merkleRoot t' = Some (hex_decode s)).
Proof.
  assert (Hinj : forall a b : bytes,
             EncodeToString a = EncodeToString b <-> a = b).
  { intros a b. split; [|intros ->; reflexivity].
    intros H. apply (f_equal hex_decode) in H.
    rewrite !hex_decode_EncodeToString in H. exact H. }
  split; [exact hex_decode_EncodeToString|].
  split; [exact Hinj|]. split.
  - intros l1 l2. unfold GetHash, GetHashBytes. apply Hinj.
  - intros t t' s H. unfold GetMerkleRoot in H.
    destruct (merkleRoot t) as [root|] eqn:Hroot.
    + injection H as <- <-. rewrite hex_decode_EncodeToString. exact Hroot.
    + destruct (CalculateMerkleRoot sha3_256 MHashBytes t) as [t1| | |] eqn:E;
        try discriminate.
      cbn [mbind outcome_bind] in H. injection H as <- <-.
      unfold CalculateMerkleRoot in E.
      destruct (CalculateMerkleRoot_fold sha3_256 MHashBytes t) as [st| | |];
        try discriminate.
      cbn [mbind outcome_bind] in E.
      destruct (index (nodes st) 0) as [root| | |]; try discriminate.
      cbn [mbind outcome_bind] in E. injection E as <-.
      cbn [merkleRoot set_merkleRoot default from_option]. unfold id.
      rewrite hex_decode_EncodeToString. reflexivity.
Qed.

(** ** The sync code: [findDelta] *)

Section FindDelta.

Import sdk.

Lemma has_key_insert {V} (m : gmap string V) (k p : string) (v : V) :
  has_key (<[k := v]> m) p = String.eqb k p || has_key m p.
Proof.
  unfold has_key. destruct (String.eqb_spec k p) as [->|Hne].
  - rewrite lookup_insert_eq. reflexivity.
  - rewrite lookup_insert_ne by exact Hne. reflexivity.
Qed.

Lemma has_key_delete {V} (m : gmap string V) (k p : string) :
  has_key (delete k m) p = negb (String.eqb k p) && has_key m p.
Proof.
  unfold has_key. destruct (String.eqb_spec k p) as [->|Hne].
  - rewrite lookup_delete_eq. reflexivity.
  - rewrite lookup_delete_ne by exact Hne. reflexivity.
Qed.

Lemma has_key_empty {V} (p : string) : has_key (∅ : gmap string V) p = false.
Proof. unfold has_key. rewrite lookup_empty. reflexivity. Qed.

Lemma prev_map_lookup_from (prevRemote : list fileInfo) (p : string) :
  forall (m : gmap string string),
    foldl (fun prevMap f => <[Path f := Hash f]> prevMap) m prevRemote !! p
    = foldl (fun found f =>
               if String.eqb (Path f) p then Some (Hash f) else found)
            (m !! p) prevRemote.
Proof.
  induction prevRemote as [|f fs IH]; intros m; [reflexivity|].
  cbn [foldl]. rewrite IH. f_equal.
  destruct (String.eqb_spec (Path f) p) as [->|Hne].
  - apply lookup_insert_eq.
  - apply lookup_insert_ne. exact Hne.
Qed.

Lemma prev_map_lookup (prevRemote : list fileInfo) (p : string) :
  prev_map prevRemote !! p = snapshot_hash prevRemote p.
Proof.
  unfold prev_map, snapshot_hash. rewrite prev_map_lookup_from.
  rewrite lookup_empty. reflexivity.
Qed.

Lemma has_key_prev_from (prevRemote : list fileInfo) (p : string) :
  forall (m : gmap string string),
    has_key (foldl (fun prevMap f => <[Path f := Hash f]> prevMap) m prevRemote) p
    = has_key m p || listed prevRemote p.
Proof.
  induction prevRemote as [|f fs IH]; intros m.
  - cbn. rewrite orb_false_r. reflexivity.
  - cbn [foldl]. rewrite IH, has_key_insert. unfold listed. cbn [existsb].
    destruct (String.eqb (Path f) p), (has_key m p); reflexivity.
Qed.

Lemma has_key_prev_map (prevRemote : list fileInfo) (p : string) :
  has_key (prev_map prevRemote) p = listed prevRemote p.
Proof.
  unfold prev_map. rewrite has_key_prev_from, has_key_empty. reflexivity.
Qed.

Lemma scan_from (prevMap : gmap string string) (files : list fileInfo)
    (p : string) :
  forall st : gmap string string * gmap string string,
    has_key (foldl (scan_step prevMap) st files).1 p
    = has_key st.1 p || listed files p
    /\ has_key (foldl (scan_step prevMap) st files).2 p
       = has_key st.2 p || changed_in prevMap files p.
Proof.
  induction files as [|f fs IH]; intros [fMap fMod].
  - unfold changed_in. cbn. rewrite !orb_false_r.
    destruct (prevMap !! p); rewrite ?orb_false_r; split; reflexivity.
  - cbn [foldl]. destruct (IH (scan_step prevMap (fMap, fMod) f)) as [IH1 IH2].
    rewrite IH1, IH2. clear IH IH1 IH2.
    unfold scan_step, listed, changed_in. cbn [existsb fst snd].
    destruct (String.eqb_spec (Path f) p) as [Heq|Hne].
    + rewrite Heq.
      destruct (prevMap !! p) as [hash|];
        [destruct (String.eqb hash (Hash f))|];
        cbn [negb fst snd andb orb]; rewrite ?has_key_insert, ?String.eqb_refl;
        cbn [orb]; rewrite ?orb_true_r; split; reflexivity.
    + assert (Hf : String.eqb (Path f) p = false)
        by (apply String.eqb_neq; exact Hne).
      destruct (prevMap !! Path f) as [hash|];
        [destruct (String.eqb hash (Hash f))|];
        cbn [negb fst snd andb orb]; rewrite ?has_key_insert, ?Hf;
        cbn [orb andb];
        (destruct (prevMap !! p); split; reflexivity).
Qed.

Lemma scan_spec (prevRemote files : list fileInfo) (p : string) :
  has_key (scan (prev_map prevRemote) files).1 p = listed files p
  /\ has_key (scan (prev_map prevRemote) files).2 p
     = changed prevRemote files p.
Proof.
  unfold scan.
  destruct (scan_from (prev_map prevRemote) files p (∅, ∅)) as [H1 H2].
  rewrite H1, H2. cbn [fst snd]. rewrite !has_key_empty. cbn [orb].
  split; [reflexivity|].
  unfold changed_in, changed. rewrite prev_map_lookup. reflexivity.
Qed.

Lemma remote_step_entry (prevMap rMod lMod lMap : gmap string string)
    (lFDiff : list FileDiff) (p : string) :
  remote_step prevMap rMod lMod (lMap, lFDiff) p
  = (delete p lMap, lFDiff ++ remote_entry prevMap rMod lMod lMap p).
Proof.
  unfold remote_step, remote_entry.
  destruct (has_key lMod p) eqn:HlMod.
  - destruct (has_key rMod p); reflexivity.
  - rewrite andb_false_r.
    destruct (has_key lMap p) eqn:Hl; [rewrite app_nil_r; reflexivity|].
    assert (Hdel : delete p lMap = lMap).
    { apply delete_id. unfold has_key in Hl.
      destruct (lMap !! p); [discriminate|reflexivity]. }
    rewrite Hdel. destruct (has_key prevMap p); reflexivity.
Qed.

Lemma remote_entry_delete (prevMap rMod lMod lMap : gmap string string)
    (k p : string) :
  k <> p ->
  remote_entry prevMap rMod lMod (delete k lMap) p
  = remote_entry prevMap rMod lMod lMap p.
Proof.
  intros Hne. unfold remote_entry. rewrite has_key_delete.
  destruct (String.eqb_spec k p); [contradiction|]. reflexivity.
Qed.

Lemma remote_loop (prevMap rMod lMod : gmap string string) (ks : list string) :
  forall (lMap : gmap string string) (lFDiff : list FileDiff),
    NoDup ks ->
    foldl (remote_step prevMap rMod lMod) (lMap, lFDiff) ks
    = (foldl (fun m k => delete k m) lMap ks,
       lFDiff ++ (ks ≫= remote_entry prevMap rMod lMod lMap)).
Proof.
  induction ks as [|k ks IH]; intros lMap lFDiff Hnd.
  - cbn. rewrite app_nil_r. reflexivity.
  - apply NoDup_cons in Hnd as [Hk Hnd].
    cbn [foldl]. rewrite remote_step_entry, IH by exact Hnd.
    f_equal. rewrite <- app_assoc. f_equal.
    change ((k :: ks) ≫= remote_entry prevMap rMod lMod lMap)
      with (remote_entry prevMap rMod lMod lMap k
            ++ (ks ≫= remote_entry prevMap rMod lMod lMap)).
    f_equal. clear IH Hnd. induction ks as [|q ks IH]; [reflexivity|].
    change (remote_entry prevMap rMod lMod (delete k lMap) q
            ++ (ks ≫= remote_entry prevMap rMod lMod (delete k lMap))
            = remote_entry prevMap rMod lMod lMap q
              ++ (ks ≫= remote_entry prevMap rMod lMod lMap)).
    rewrite not_elem_of_cons in Hk. destruct Hk as [Hkq Hk].
    rewrite remote_entry_delete by exact Hkq. rewrite IH by exact Hk.
    reflexivity.
Qed.

Lemma local_loop (prevMap lMod : gmap string string) (ks : list string) :
  forall lFDiff : list FileDiff,
    foldl (local_step prevMap lMod) lFDiff ks
    = lFDiff ++ (local_entry prevMap lMod <$> ks).
Proof.
  induction ks as [|k ks IH]; intros lFDiff.
  - cbn. rewrite app_nil_r. reflexivity.
  - cbn [foldl fmap list_fmap]. rewrite IH. unfold local_step, local_entry.
    rewrite <- app_assoc. reflexivity.
Qed.

Lemma has_key_deleted (ks : list string) (p : string) :
  forall m : gmap string string,
    has_key (foldl (fun m k => delete k m) m ks) p
    = has_key m p && negb (bool_decide (p ∈ ks)).
Proof.
  induction ks as [|k ks IH]; intros m.
  - cbn [foldl]. rewrite bool_decide_eq_false_2 by apply not_elem_of_nil.
    rewrite andb_true_r. reflexivity.
  - cbn [foldl]. rewrite IH, has_key_delete.
    destruct (String.eqb_spec k p) as [->|Hne].
    + rewrite (bool_decide_eq_true_2 (p ∈ p :: ks)) by (apply elem_of_cons; left; reflexivity).
      cbn. rewrite andb_false_r. reflexivity.
    + cbn [negb andb]. destruct (decide (p ∈ ks)) as [Hin|Hnin].
      * rewrite !bool_decide_eq_true_2; [reflexivity| |exact Hin].
        apply elem_of_cons. right. exact Hin.
      * rewrite !bool_decide_eq_false_2; [reflexivity| |exact Hnin].
        rewrite elem_of_cons. intros [->|]; [apply Hne; reflexivity|].
        contradiction.
Qed.

Section Order.

Variable keys : gmap string string -> list string.
Hypothesis keys_order : range_order keys.

Lemma elem_of_keys (m : gmap string string) (p : string) :
  p ∈ keys m <-> has_key m p = true.
Proof.
  rewrite (keys_order m). unfold has_key. rewrite list_elem_of_fmap. split.
  - intros ([q v] & -> & Hin). apply elem_of_map_to_list in Hin.
    cbn [fst]. rewrite Hin. reflexivity.
  - destruct (m !! p) as [v|] eqn:E; [|discriminate]. intros _.
    exists (p, v). split; [reflexivity|]. apply elem_of_map_to_list. exact E.
Qed.

Lemma NoDup_keys (m : gmap string string) : NoDup (keys m).
Proof. rewrite (keys_order m). apply NoDup_fst_map_to_list. Qed.

(** [findDelta] without the loops. *)
Lemma findDelta_entries (remote local prevRemote : list fileInfo) :
  findDelta keys remote local prevRemote
  = let prevMap := prev_map prevRemote in
    let rMap := (scan prevMap remote).1 in
    let rMod := (scan prevMap remote).2 in
    let lMap := (scan prevMap local).1 in
    let lMod := (scan prevMap local).2 in
    (keys rMap ≫= remote_entry prevMap rMod lMod lMap)
    ++ (local_entry prevMap lMod
          <$> keys (foldl (fun m k => delete k m) lMap (keys rMap))).
Proof.
  unfold findDelta. cbv zeta.
  destruct (scan (prev_map prevRemote) remote) as [rMap rMod].
  destruct (scan (prev_map prevRemote) local) as [lMap lMod].
  cbn [fst snd]. rewrite remote_loop by apply NoDup_keys.
  rewrite local_loop. reflexivity.
Qed.

Lemma findDelta_elem (remote local prevRemote : list fileInfo) (d : FileDiff) :
  d ∈ findDelta keys remote local prevRemote
  <-> operation remote local prevRemote (DPath d) = Some (Op d).
Proof.
  rewrite findDelta_entries. cbv zeta.
  rewrite elem_of_app, list_elem_of_bind, list_elem_of_fmap.
  pose proof (fun p => has_key_prev_map prevRemote p) as HP.
  pose proof (fun p => proj1 (scan_spec prevRemote remote p)) as HR.
  pose proof (fun p => proj2 (scan_spec prevRemote remote p)) as HRM.
  pose proof (fun p => proj1 (scan_spec prevRemote local p)) as HL.
  pose proof (fun p => proj2 (scan_spec prevRemote local p)) as HLM.
  unfold operation. split.
  - intros [(p & Hd & Hp)|(p & -> & Hp)].
    + apply elem_of_keys in Hp. rewrite HR in Hp.
      unfold remote_entry in Hd. rewrite HLM, HRM, HL, HP in Hd.
      destruct (changed prevRemote local p) eqn:E1;
        [|destruct (listed local p) eqn:E2];
        try (apply list_elem_of_singleton in Hd; subst d; cbn [DPath Op];
             rewrite Hp, E1, ?E2; reflexivity).
      apply elem_of_nil in Hd. contradiction.
    + apply elem_of_keys in Hp. rewrite has_key_deleted, HL in Hp.
      apply andb_true_iff in Hp as [Hl Hr].
      apply negb_true_iff, bool_decide_eq_false in Hr.
      rewrite elem_of_keys, HR in Hr.
      unfold local_entry. cbn [DPath Op]. rewrite HLM, HP.
      destruct (listed remote p); [exfalso; apply Hr; reflexivity|].
      rewrite Hl. reflexivity.
  - destruct d as [op p]. cbn [DPath Op]. intros Hop.
    destruct (listed remote p) eqn:Hr.
    + left. exists p. split; [|apply elem_of_keys; rewrite HR; exact Hr].
      unfold remote_entry. rewrite HLM, HRM, HL, HP.
      destruct (changed prevRemote local p);
        [|destruct (listed local p); [discriminate|]];
        injection Hop as <-; apply list_elem_of_singleton; reflexivity.
    + right. exists p. destruct (listed local p) eqn:Hl; [|discriminate].
      split.
      * unfold local_entry. rewrite HLM, HP. injection Hop as <-. reflexivity.
      * apply elem_of_keys. rewrite has_key_deleted, HL, Hl.
        apply andb_true_iff. split; [reflexivity|].
        apply negb_true_iff, bool_decide_eq_false.
        rewrite elem_of_keys, HR, Hr. discriminate.
Qed.

Lemma DPath_remote_entry (prevMap rMod lMod lMap : gmap string string)
    (p : string) (d : FileDiff) :
  d ∈ remote_entry prevMap rMod lMod lMap p -> DPath d = p.
Proof.
  unfold remote_entry.
  destruct (has_key lMod p); [|destruct (has_key lMap p)]; intros H;
    try (apply list_elem_of_singleton in H; subst d; reflexivity).
  apply elem_of_nil in H. contradiction.
Qed.

Lemma NoDup_remote_entries (prevMap rMod lMod lMap : gmap string string)
    (ks : list string) :
  NoDup ks ->
  NoDup (DPath <$> (ks ≫= remote_entry prevMap rMod lMod lMap)).
Proof.
  induction ks as [|k ks IH]; intros Hnd; [apply NoDup_nil_2|].
  apply NoDup_cons in Hnd as [Hk Hnd].
  change ((k :: ks) ≫= remote_entry prevMap rMod lMod lMap)
    with (remote_entry prevMap rMod lMod lMap k
          ++ (ks ≫= remote_entry prevMap rMod lMod lMap)).
  rewrite fmap_app. apply NoDup_app. split; [|split; [|apply IH; exact Hnd]].
  - unfold remote_entry.
    destruct (has_key lMod k); [|destruct (has_key lMap k)];
      cbn; try apply NoDup_singleton. apply NoDup_nil_2.
  - intros p Hp1 Hp2.
    apply list_elem_of_fmap in Hp1 as (d1 & -> & Hd1).
    apply list_elem_of_fmap in Hp2 as (d2 & Heq & Hd2).
    apply DPath_remote_entry in Hd1.
    apply list_elem_of_bind in Hd2 as (q & Hd2 & Hq).
    apply DPath_remote_entry in Hd2. apply Hk. congruence.
Qed.

Lemma findDelta_NoDup (remote local prevRemote : list fileInfo) :
  NoDup (DPath <$> findDelta keys remote local prevRemote).
Proof.
  rewrite findDelta_entries. cbv zeta. rewrite fmap_app.
  apply NoDup_app. split; [|split].
  - apply NoDup_remote_entries, NoDup_keys.
  - intros p Hp1 Hp2.
    apply list_elem_of_fmap in Hp1 as (d1 & -> & Hd1).
    apply list_elem_of_bind in Hd1 as (q & Hd1 & Hq).
    apply DPath_remote_entry in Hd1. subst q.
    apply list_elem_of_fmap in Hp2 as (d2 & Heq & Hd2).
    apply list_elem_of_fmap in Hd2 as (q & -> & Hq2).
    cbn [local_entry DPath] in Heq. subst q.
    apply elem_of_keys in Hq2. rewrite has_key_deleted in Hq2.
    apply andb_true_iff in Hq2 as [_ Hq2].
    apply negb_true_iff, bool_decide_eq_false in Hq2. contradiction.
  - rewrite <- list_fmap_compose.
    assert (Hid : forall ks : list string,
               (DPath ∘ local_entry (prev_map prevRemote)
                  (scan (prev_map prevRemote) local).2) <$> ks = ks).
    { induction ks as [|k ks IH]; [reflexivity|].
      cbn [fmap list_fmap]. f_equal. exact IH. }
    rewrite Hid. apply NoDup_keys.
Qed.

End Order.

End FindDelta.

(** X13: the table of [findDelta].  Whatever the order in which the two
    [range] loops visit the maps, an operation for a path is in the
    result exactly when [operation] gives it: for a path listed remotely,
    [Conflict] or [Update] when the local file changed since the
    snapshot (conflict when the remote one changed too), nothing when the
    file is there locally, else [Delete] when the snapshot had the path
    and [Download] when not; for a path listed locally only, [Update]
    when it changed, else [LocalDelete] when the snapshot had it and
    [Upload] when not.  No path gets two operations. *)
Theorem findDelta_operation (keys : gmap string string -> list string)
    (remote local prevRemote : list sdk.fileInfo) :
  range_order keys ->
  (forall d : sdk.FileDiff,
      d ∈ sdk.findDelta keys remote local prevRemote
      <-> operation remote local prevRemote (sdk.DPath d) = Some (sdk.Op d))
  /\ NoDup (sdk.DPath <$> sdk.findDelta keys remote local prevRemote).
Proof.
  intros Hkeys. split.
  - intros d. apply findDelta_elem. exact Hkeys.
  - apply findDelta_NoDup. exact Hkeys.
Qed.

Lemma findDelta_operation_witness :
  let keys := fun m : gmap string string => (map_to_list m).*1 in
  let remote := [{| sdk.Path := "/a"; sdk.Size := 1; sdk.Hash := "h1" |};
                 {| sdk.Path := "/b"; sdk.Size := 2; sdk.Hash := "h2" |}] in
  let local := [{| sdk.Path := "/a"; sdk.Size := 1; sdk.Hash := "h3" |};
                {| sdk.Path := "/c"; sdk.Size := 3; sdk.Hash := "h4" |}] in
  let prevRemote := [{| sdk.Path := "/a"; sdk.Size := 1; sdk.Hash := "h0" |}] in
  (forall d : sdk.FileDiff,
      d ∈ sdk.findDelta keys remote local prevRemote
      <-> operation remote local prevRemote (sdk.DPath d) = Some (sdk.Op d))
  /\ NoDup (sdk.DPath <$> sdk.findDelta keys remote local prevRemote).
Proof.
  apply (findDelta_operation (fun m : gmap string string => (map_to_list m).*1)).
  intros m. reflexivity.
Defined.

(** X14: the order in which Go visits the keys of the maps changes only
    the order of the result of [findDelta]: two runs on the same lists
    give the same operations, each once. *)
Theorem findDelta_order_independent
    (keys1 keys2 : gmap string string -> list string)
    (remote local prevRemote : list sdk.fileInfo) :
  range_order keys1 -> range_order keys2 ->
  sdk.findDelta keys1 remote local prevRemote
  ≡ₚ sdk.findDelta keys2 remote local prevRemote.
Proof.
  intros H1 H2. apply NoDup_Permutation.
  - apply (NoDup_fmap_1 sdk.DPath), findDelta_NoDup. exact H1.
  - apply (NoDup_fmap_1 sdk.DPath), findDelta_NoDup. exact H2.
  - intros d. rewrite !findDelta_elem by assumption. reflexivity.
Qed.

Lemma findDelta_order_independent_witness :
  let keys1 := fun m : gmap string string => (map_to_list m).*1 in
  let keys2 := fun m : gmap string string => reverse (map_to_list m).*1 in
  let remote := [{| sdk.Path := "/a"; sdk.Size := 1; sdk.Hash := "h1" |};
                 {| sdk.Path := "/b"; sdk.Size := 2; sdk.Hash := "h2" |}] in
  let local := [{| sdk.Path := "/c"; sdk.Size := 3; sdk.Hash := "h4" |}] in
  sdk.findDelta keys1 remote local [] ≡ₚ sdk.findDelta keys2 remote local [].
Proof.
  apply (findDelta_order_independent
           (fun m : gmap string string => (map_to_list m).*1)
           (fun m : gmap string string => reverse (map_to_list m).*1)).
  - intros m. reflexivity.
  - intros m. apply reverse_Permutation.
Defined.

(** X15: [findDelta] never acts on a change that is remote only.  For a
    path listed on both sides whose local file has the hash of the
    snapshot (or with no snapshot entry), the result holds no operation,
    whatever the remote hash is: the flag [bRemoteModified] is used for
    [Conflict] alone, and a file changed remotely is not downloaded. *)
Theorem findDelta_remote_change_ignored
    (keys : gmap string string -> list string)
    (remote local prevRemote : list sdk.fileInfo) (p : string) :
  range_order keys ->
  listed remote p = true ->
  listed local p = true ->
  changed prevRemote local p = false ->
  filter (fun d => sdk.DPath d = p)
         (sdk.findDelta keys remote local prevRemote) = [].
Proof.
  intros Hkeys Hr Hl Hc.
  destruct (filter _ _) as [|d ds] eqn:E; [reflexivity|]. exfalso.
  assert (Hd : d ∈ filter (fun d => sdk.DPath d = p)
                     (sdk.findDelta keys remote local prevRemote))
    by (rewrite E; apply elem_of_cons; left; reflexivity).
  apply list_elem_of_filter in Hd as [Hp Hin].
  apply (findDelta_elem keys Hkeys) in Hin. rewrite Hp in Hin.
  unfold operation in Hin. rewrite Hr, Hc, Hl in Hin. discriminate.
Qed.

Lemma findDelta_remote_change_ignored_witness :
  let keys := fun m : gmap string string => (map_to_list m).*1 in
  let remote := [{| sdk.Path := "/a"; sdk.Size := 5; sdk.Hash := "new" |}] in
  let local := [{| sdk.Path := "/a"; sdk.Size := 1; sdk.Hash := "old" |}] in
  let prevRemote := [{| sdk.Path := "/a"; sdk.Size := 1; sdk.Hash := "old" |}] in
  filter (fun d => sdk.DPath d = "/a")
         (sdk.findDelta keys remote local prevRemote) = [].
Proof.
  apply (findDelta_remote_change_ignored
           (fun m : gmap string string => (map_to_list m).*1)).
  - intros m. reflexivity.
  - reflexivity.
  - reflexivity.
  - reflexivity.
Defined.

(** ** The sync code: local paths *)

Lemma in_cutset_cons (c a : Ascii.ascii) (cutset : string) :
  sdk.in_cutset c (String a cutset)
  = Ascii.eqb c a || sdk.in_cutset c cutset.
Proof. reflexivity. Qed.









(** ** The sync code: the excluded paths *)

Lemma TrimRight_idem (s cutset : string) :
  sdk.TrimRight (sdk.TrimRight s cutset) cutset = sdk.TrimRight s cutset.
Proof.
  induction s as [|a s IH]; [reflexivity|].
  cbn [sdk.TrimRight].
  destruct (sdk.TrimRight s cutset) as [|c' r] eqn:E.
  - destruct (sdk.in_cutset a cutset) eqn:Ha; [reflexivity|].
    cbn [sdk.TrimRight]. rewrite Ha. reflexivity.
  - change (sdk.TrimRight (String a (String c' r)) cutset)
      with (match sdk.TrimRight (String c' r) cutset with
            | EmptyString =>
                if sdk.in_cutset a cutset then EmptyString
                else String a EmptyString
            | String c2 r2 => String a (String c2 r2)
            end).
    rewrite IH. reflexivity.
Qed.

Lemma exclude_loop_idx (exclPath : list string) :
  forall (m : gmap string Z) (i : Z),
    (foldl (fun '(exclMap, idx) path =>
              (<[sdk.TrimRight path "/" := idx]> exclMap, idx + 1))
           (m, i) exclPath).2 = i + len exclPath.
Proof.
  induction exclPath as [|p ps IH]; intros m i.
  - unfold len. cbn. lia.
  - cbn [foldl]. rewrite IH. unfold len. cbn [length]. lia.
Qed.

Lemma getRemoteExcludeMap_snoc (exclPath : list string) (path : string) :
  sdk.getRemoteExcludeMap (exclPath ++ [path])
  = <[sdk.TrimRight path "/" := len exclPath]>
      (sdk.getRemoteExcludeMap exclPath).
Proof.
  unfold sdk.getRemoteExcludeMap. rewrite foldl_app. cbn [foldl].
  pose proof (exclude_loop_idx exclPath ∅ 0) as Hidx.
  destruct (foldl _ (∅, 0) exclPath) as [m i]. cbn [fst snd] in *.
  rewrite Hidx. reflexivity.
Qed.

Lemma getRemoteExcludeMap_last (exclPath : list string) (k : string) (idx : Z) :
  sdk.getRemoteExcludeMap exclPath !! k = Some idx
  <-> exists n : nat,
        idx = Z.of_nat n
        /\ exclPath !! n ≫= (fun path => Some (sdk.TrimRight path "/")) = Some k
        /\ forall j : nat,
             (n < j)%nat ->
             exclPath !! j ≫= (fun path => Some (sdk.TrimRight path "/"))
             <> Some k.
Proof.
  induction exclPath as [|p ps IH] using rev_ind.
  - unfold sdk.getRemoteExcludeMap. cbn [foldl fst]. rewrite lookup_empty.
    split; [discriminate|]. intros (n & _ & H & _). discriminate.
  - rewrite getRemoteExcludeMap_snoc.
    destruct (decide (sdk.TrimRight p "/" = k)) as [Hk|Hk].
    + rewrite Hk, lookup_insert_eq. split.
      * intros [= <-]. exists (length ps). split; [reflexivity|]. split.
        -- rewrite lookup_app_r, Nat.sub_diag by lia. cbn. rewrite Hk.
           reflexivity.
        -- intros j Hj. rewrite lookup_ge_None_2; [discriminate|].
           rewrite length_app. cbn. lia.
      * intros (n & -> & Hn & Hlast). f_equal. unfold len. f_equal.
        destruct (lt_eq_lt_dec n (length ps)) as [[Hlt|Heq]|Hgt].
        -- exfalso. apply (Hlast (length ps) Hlt).
           rewrite lookup_app_r, Nat.sub_diag by lia. cbn. rewrite Hk.
           reflexivity.
        -- symmetry. exact Heq.
        -- rewrite lookup_ge_None_2 in Hn; [discriminate|].
           rewrite length_app. cbn. lia.
    + rewrite lookup_insert_ne by exact Hk. rewrite IH. split.
      * intros (n & -> & Hn & Hlast). exists n. split; [reflexivity|].
        assert (Hlt : (n < length ps)%nat).
        { destruct (ps !! n) eqn:E; [|discriminate].
          apply lookup_lt_Some in E. exact E. }
        split; [rewrite lookup_app_l by exact Hlt; exact Hn|].
        intros j Hj. destruct (lt_eq_lt_dec j (length ps)) as [[Hl|He]|Hg].
        -- rewrite lookup_app_l by exact Hl. apply Hlast. exact Hj.
        -- rewrite lookup_app_r, He, Nat.sub_diag by lia. cbn.
           intros [= H]. apply Hk. exact H.
        -- rewrite lookup_ge_None_2; [discriminate|].
           rewrite length_app. cbn. lia.
      * intros (n & -> & Hn & Hlast). exists n. split; [reflexivity|].
        assert (Hlt : (n < length ps)%nat).
        { destruct (lt_eq_lt_dec n (length ps)) as [[Hl|He]|Hg].
          - exact Hl.
          - exfalso. rewrite lookup_app_r, He, Nat.sub_diag in Hn by lia.
            cbn in Hn. injection Hn as Hn. apply Hk. exact Hn.
          - rewrite lookup_ge_None_2 in Hn; [discriminate|].
            rewrite length_app. cbn. lia. }
        split; [rewrite lookup_app_l in Hn by exact Hlt; exact Hn|].
        intros j Hj. destruct (lt_eq_lt_dec j (length ps)) as [[Hl|He]|Hg].
        -- specialize (Hlast j Hj). rewrite lookup_app_l in Hlast by exact Hl.
           exact Hlast.
        -- rewrite lookup_ge_None_2 by lia. discriminate.
        -- rewrite lookup_ge_None_2 by lia. discriminate.
Qed.

(** X17: the map [getRemoteExcludeMap] builds.  Its keys are the excluded
    paths without their trailing slashes, so that no key ends with a
    slash (trimming a key changes nothing), and a key maps to the index
    of the last entry of [exclPath] that gives it. *)
Theorem getRemoteExcludeMap_lookup (exclPath : list string) (k : string) :
  (sdk.has_key (sdk.getRemoteExcludeMap exclPath) k = true
   <-> exists path : string,
         path ∈ exclPath /\ sdk.TrimRight path "/" = k)
  /\ (forall idx : Z,
        sdk.getRemoteExcludeMap exclPath !! k = Some idx
        <-> exists n : nat,
              idx = Z.of_nat n
              /\ exclPath !! n ≫= (fun path => Some (sdk.TrimRight path "/"))
                 = Some k
              /\ forall j : nat,
                   (n < j)%nat ->
                   exclPath !! j ≫= (fun path => Some (sdk.TrimRight path "/"))
                   <> Some k)
  /\ (sdk.has_key (sdk.getRemoteExcludeMap exclPath) k = true ->
      sdk.TrimRight k "/" = k).
Proof.
  assert (Hkey : sdk.has_key (sdk.getRemoteExcludeMap exclPath) k = true
                 <-> exists path : string,
                       path ∈ exclPath /\ sdk.TrimRight path "/" = k).
  { induction exclPath as [|p ps IH] using rev_ind.
    - unfold sdk.getRemoteExcludeMap, sdk.has_key. cbn [foldl fst].
      rewrite lookup_empty. split; [discriminate|].
      intros (path & Hin & _). apply elem_of_nil in Hin. contradiction.
    - rewrite getRemoteExcludeMap_snoc. unfold sdk.has_key in *.
      destruct (decide (sdk.TrimRight p "/" = k)) as [Hk|Hk].
      + rewrite Hk, lookup_insert_eq. split; [|reflexivity]. intros _.
        exists p. split; [|exact Hk]. apply elem_of_app. right.
        apply list_elem_of_singleton. reflexivity.
      + rewrite lookup_insert_ne by exact Hk. rewrite IH. split.
        * intros (path & Hin & Hp). exists path. split; [|exact Hp].
          apply elem_of_app. left. exact Hin.
        * intros (path & Hin & Hp). exists path. split; [|exact Hp].
          apply elem_of_app in Hin as [Hin|Hin]; [exact Hin|].
          apply list_elem_of_singleton in Hin. subst path. contradiction. }
  split; [exact Hkey|]. split; [apply getRemoteExcludeMap_last|].
  intros H. apply Hkey in H as (path & _ & <-). apply TrimRight_idem.
Qed.

(** ** A root asked for before [Finalize] *)

Lemma windows_nil (ls : list leaf) : windows ls [] = (ls, []).
Proof. apply windows_short. consts. cbn. lia. Qed.

Lemma windows_cons_window (ls : list leaf) (w rest : bytes) :
  len w = MaxMerkleLeavesSize ->
  windows ls (w ++ rest) = windows (feed ls w) rest.
Proof.
  intros Hw.
  rewrite windows_full by (rewrite len_app; pose proof (len_nonneg rest); lia).
  assert (Hlen : length w = Z.to_nat MaxMerkleLeavesSize)
    by (unfold len in Hw; lia).
  rewrite <- Hlen, take_app_length, drop_app_length. reflexivity.
Qed.

Lemma windows_whole (n : nat) :
  forall (data : bytes) (ls : list leaf),
    length data = n ->
    exists whole : bytes,
      data = whole ++ (windows ls data).2
      /\ windows ls whole = ((windows ls data).1, [])
      /\ len whole mod MaxMerkleLeavesSize = 0.
Proof.
  induction n as [n IH] using lt_wf_ind. intros data ls Hn.
  destruct (Z.leb_spec MaxMerkleLeavesSize (len data)) as [Hfull|Hshort].
  - destruct (len_window data Hfull) as [Hw _].
    pose proof (drop_window_lt data Hfull) as Hlt. rewrite Hn in Hlt.
    destruct (IH _ Hlt (drop (Z.to_nat MaxMerkleLeavesSize) data)
                (feed ls (take (Z.to_nat MaxMerkleLeavesSize) data)) eq_refl)
      as (whole & Hdata & Hwin & Hmod).
    rewrite windows_full by exact Hfull.
    exists (take (Z.to_nat MaxMerkleLeavesSize) data ++ whole).
    split; [|split].
    + rewrite <- app_assoc, <- Hdata, take_drop. reflexivity.
    + rewrite windows_cons_window by exact Hw. exact Hwin.
    + rewrite len_app, Hw, Z.add_comm.
      rewrite <- (Z.mul_1_l MaxMerkleLeavesSize) at 1.
      rewrite Z.mod_add by (apply Z.neq_sym, Z.lt_neq; reflexivity).
      exact Hmod.
  - exists []. rewrite windows_short by exact Hshort.
    split; [reflexivity|]. split; [apply windows_nil|reflexivity].
Qed.

(** X18: a root asked for before [Finalize] leaves out the staged bytes,
    for good.  After any segments were written on a fresh tree,
    [GetMerkleRoot] returns the root of the whole windows written so far
    (the root [commit] gives for the stream cut at the last multiple of
    65536 bytes) and caches it; [Finalize] then succeeds and dispatches
    the staged bytes to the leaves, but [GetMerkleRoot] still returns the
    cached root. *)
Theorem early_root_ignores_staged (sha3_256 : bytes -> bytes)
    (MHashBytes : bytes -> bytes -> bytes) (segs : list bytes) :
  exists (whole staged_bytes : bytes) (root : string),
    concat segs = whole ++ staged_bytes
    /\ len whole mod MaxMerkleLeavesSize = 0
    /\ len staged_bytes < MaxMerkleLeavesSize
    /\ commit sha3_256 MHashBytes [whole] = Returns (None, root)
    /\ (t ← write_all segs NewFixedMerkleTree;
        '(t, early) ← GetMerkleRoot sha3_256 MHashBytes t;
        '(t, err) ← Finalize t;
        '(_, late) ← GetMerkleRoot sha3_256 MHashBytes t;
        Returns (early, err, late))
       = Returns (root, None, root).
Proof.
  destruct (write_all_spec segs NewFixedMerkleTree
              wellformed_NewFixedMerkleTree eq_refl)
    as (t & Hrun & Hab & Hwf).
  pose proof (absorbed_not_final _ _ _ Hab eq_refl) as Hfin.
  destruct Hab as [A1 _ _ _ _ _ A7].
  rewrite staged_NewFixedMerkleTree in A1. cbn [app] in A1.
  destruct (windows_whole (length (concat segs)) (concat segs)
              (Leaves NewFixedMerkleTree) eq_refl)
    as (whole & Hdata & Hwin & Hmod).
  exists whole, (windows (Leaves NewFixedMerkleTree) (concat segs)).2,
    (EncodeToString (root_of sha3_256 MHashBytes (Leaves t))).
  split; [exact Hdata|]. split; [exact Hmod|].
  split; [apply windows_remainder|]. split.
  - rewrite commit_spec. cbn [concat]. rewrite app_nil_r.
    unfold stream_leaves. rewrite Hwin. cbn [fst snd].
    rewrite feed_nil, A1. reflexivity.
  - rewrite Hrun. osimpl.
    pose proof (GetMerkleRoot_first sha3_256 MHashBytes t (wf_leaves _ Hwf) A7)
      as Hroot.
    destruct (GetMerkleRoot_preserves sha3_256 MHashBytes _ _ _ Hwf Hroot)
      as (Hwf1 & Hfin1 & _).
    rewrite Hroot. osimpl.
    rewrite Finalize_spec by first [exact Hwf1|exact Hfin].
    osimpl.
    rewrite (GetMerkleRoot_cached sha3_256 MHashBytes _
               (root_of sha3_256 MHashBytes (Leaves t))) by reflexivity.
    reflexivity.
Qed.

(** ** Reload of a finalized tree *)

(** X19: [Reload] of a finalized tree destroys its leaves and fails.  On a
    tree that is finalized and whose mutex is free, [Reload] from a
    source that delivers at least one byte resets the 1024 leaves, then
    returns the error of its first [Write], "cannot write. Tree is
    already finalized": the leaves are empty afterwards, while the cached
    root and the staged bytes are kept.  With a source that is empty it
    resets the leaves and returns the error of the source, none for
    [io.EOF]. *)
Theorem Reload_finalized_tree (t : FixedMerkleTree) (reader : Reader) :
  isFinal t = true ->
  writeLock t = false ->
  Reload t reader
  = Returns (initLeaves t,
             if len (content reader) >? 0 then Some ErrTreeFinalized
             else source_error reader)
  /\ Leaves (initLeaves t) = replicate (Z.to_nat FixedMerkleLeaves) getNewLeaf
  /\ merkleRoot (initLeaves t) = merkleRoot t
  /\ writeCount (initLeaves t) = writeCount t.
Proof.
  intros Hfin Hlock. split; [|split; [|split]; reflexivity].
  rewrite Reload_unfold, Reload_loop_unfold.
  destruct (Z.leb_spec MaxMerkleLeavesSize (len (content reader)))
    as [Hfull|Hshort].
  - rewrite CopyN_full_any by exact Hfull.
    destruct (Z.gtb_spec MaxMerkleLeavesSize 0) as [_|]; [|consts; lia].
    destruct (Z.gtb_spec (len (content reader)) 0) as [_|]; [|consts; lia].
    cbn [app]. rewrite Write_after_Finalize by assumption. reflexivity.
  - rewrite CopyN_short_any by exact Hshort. cbn [app].
    destruct (Z.gtb_spec (len (content reader)) 0) as [Hpos|Hzero].
    + rewrite Write_after_Finalize by assumption. reflexivity.
    + unfold source_error. destruct (fault reader) as [e|]; [|reflexivity].
      cbn [default from_option]. unfold id. destruct (is_EOF e); reflexivity.
Qed.

Lemma Reload_finalized_tree_witness :
  Reload (finalized NewFixedMerkleTree) (bytes_NewReader [x01])
  = Returns (initLeaves (finalized NewFixedMerkleTree),
             if len (content (bytes_NewReader [x01])) >? 0
             then Some ErrTreeFinalized
             else source_error (bytes_NewReader [x01]))
  /\ Leaves (initLeaves (finalized NewFixedMerkleTree))
     = replicate (Z.to_nat FixedMerkleLeaves) getNewLeaf
  /\ merkleRoot (initLeaves (finalized NewFixedMerkleTree))
     = merkleRoot (finalized NewFixedMerkleTree)
  /\ writeCount (initLeaves (finalized NewFixedMerkleTree))
     = writeCount (finalized NewFixedMerkleTree).
Proof.
  apply (Reload_finalized_tree (finalized NewFixedMerkleTree)
           (bytes_NewReader [x01]));
    reflexivity.
Defined.
